(** * inferno: smoothing recurrences, inter-spike intervals, delta synapses,
      linear connections and internal utilities

    A shallow embedding of

    - [inferno/core/math.py]: [exponential_smoothing],
      [holt_linear_smoothing], [isi], [rescale];
    - [inferno/neural/synapses/current.py]: [DeltaCurrent],
      [DeltaPlusCurrent];
    - [inferno/neural/connections/linear.py]: [DenseLinear], [DirectLinear],
      [LateralLinear];
    - [inferno/_internal/utils.py]: [fzip], [unique], [Proxy], [regroup],
      [rgetattr], [rsetattr].

    The tensors the smoothing functions, [isi] and the synapses compute are
    float32 tensors: their
    entries are IEEE 754 binary32 numbers ([Float.float]), every operation
    rounds its exact result to the nearest number of the format, ties to
    even, and overflows to an infinity; Python floats are binary64 numbers.
    The arguments of the constructors, which are finite Python floats, and
    the data of [rescale] are rationals ([Q], compared with [==]).  A tensor
    is represented by the list of its entries in row-major order together
    with the part of its shape the code looks at.  Python exceptions are the
    left summand of [result]. *)

From Stdlib Require Import List ZArith QArith Qround Qminmax Qabs Qpower Qreduction.
From Stdlib Require Import Lia Lqa String Ascii Bool Arith.
From stdpp Require Import base list gmap strings.
Import ListNotations.

Local Open Scope Q_scope.

(** ** Exceptions and fallible computations *)

Inductive exn : Type :=
| TypeError
| ValueError
| RuntimeError
| IndexError
| ZeroDivisionError
| ConfigurationError
| ShapeMismatchError.

Inductive result (A : Type) : Type :=
| Ok (a : A)
| Raise (e : exn).

Arguments Ok {A} a.
Arguments Raise {A} e.

Definition rbind {A B : Type} (m : result A) (k : A -> result B) : result B :=
  match m with
  | Ok a => k a
  | Raise e => Raise e
  end.

Notation "'let*' x ':=' m 'in' k" := (rbind m (fun x => k))
  (at level 10, x name, m at level 100, k at level 200).

Definition is_ok {A : Type} (m : result A) : bool :=
  match m with Ok _ => true | Raise _ => false end.

(** ** Python values and tensors *)

(** The values a connection hands to a synapse constructor. *)
Inductive pyval : Type :=
| PyNone
| PyInt (z : Z)
| PyFloat (q : Q).

(** Number of entries of a tensor of the given shape. *)
Definition numel (shape : list nat) : nat := fold_right Nat.mul 1%nat shape.

(** ** Floating point numbers *)

Module Float.

(** A floating point value: a finite number, an infinity or NaN.  [Fin q]
    stands for a number of a format when [q] is representable in it; every
    operation below returns such values.  The two zeros are not
    distinguished: nothing embedded here looks at the sign of a zero. *)
Inductive float : Type :=
| Fin (q : Q)
| Inf (negative : bool)
| NaN.

(** A binary format: [prec] bits of precision, exponents below [emax]. *)
Record format : Type := {
  prec : Z;
  emax : Z
}.

(** [torch.float32], the default dtype of torch. *)
Definition binary32 : format := {| prec := 24; emax := 128 |}.

(** Python's [float]. *)
Definition binary64 : format := {| prec := 53; emax := 1024 |}.

(** The exponent of the last bit of the subnormal numbers. *)
Definition emin (f : format) : Z := (3 - emax f - prec f)%Z.

Definition pow2 (e : Z) : Q := Qpower 2 e.

(** [floor(log2 |q|)] for [q] other than zero. *)
Definition ilog2 (q : Q) : Z :=
  let e := (Z.log2 (Z.abs (Qnum q)) - Z.log2 (Zpos (Qden q)))%Z in
  if Qle_bool (pow2 e) (Qabs q) then e else (e - 1)%Z.

(** The integer nearest to [x], the even one of two that are equally near. *)
Definition rne (x : Q) : Z :=
  let f := Qfloor x in
  match Qcompare (x - inject_Z f) (1 # 2) with
  | Lt => f
  | Gt => (f + 1)%Z
  | Eq => if Z.even f then f else (f + 1)%Z
  end.

(** Rounding to the nearest number of the format, ties to even: the
    multiple of the unit in the last place that is nearest to [q], an
    infinity when it reaches [2 ^ emax]. *)
Definition round (f : format) (q : Q) : float :=
  let q := Qred q in
  if Qeq_bool q 0 then Fin 0
  else
    let e := Z.max (ilog2 q - prec f + 1) (emin f) in
    let r := Qred (inject_Z (rne (q / pow2 e)) * pow2 e) in
    if Qle_bool (pow2 (emax f)) (Qabs r) then Inf (negb (Qle_bool 0 q)) else Fin r.

(** The numbers of a format: [prec] significant bits at an exponent not
    below [emin], of magnitude below [2 ^ emax]. *)
Definition representable (f : format) (q : Q) : Prop :=
  exists m e : Z,
    q == inject_Z m * pow2 e
    /\ (Z.abs m < 2 ^ prec f)%Z
    /\ (emin f <= e)%Z
    /\ Qabs q < pow2 (emax f).

Definition negative (q : Q) : bool := negb (Qle_bool 0 q).

(** [a + b]. *)
Definition fadd (f : format) (a b : float) : float :=
  match a, b with
  | NaN, _ | _, NaN => NaN
  | Inf s, Inf s' => if Bool.eqb s s' then Inf s else NaN
  | Inf s, Fin _ | Fin _, Inf s => Inf s
  | Fin x, Fin y => round f (x + y)
  end.

(** [a - b]. *)
Definition fsub (f : format) (a b : float) : float :=
  match a, b with
  | NaN, _ | _, NaN => NaN
  | Inf s, Inf s' => if Bool.eqb s s' then NaN else Inf s
  | Inf s, Fin _ => Inf s
  | Fin _, Inf s => Inf (negb s)
  | Fin x, Fin y => round f (x - y)
  end.

(** [a * b]. *)
Definition fmul (f : format) (a b : float) : float :=
  match a, b with
  | NaN, _ | _, NaN => NaN
  | Inf s, Inf s' => Inf (xorb s s')
  | Inf s, Fin y | Fin y, Inf s =>
      if Qeq_bool y 0 then NaN else Inf (xorb s (negative y))
  | Fin x, Fin y => round f (x * y)
  end.

(** Conversion of a float to the format [f]. *)
Definition cast (f : format) (x : float) : float :=
  match x with
  | Fin q => round f q
  | other => other
  end.

(** Conversion of an integer to the format [f]. *)
Definition of_Z (f : format) (n : Z) : float := round f (inject_Z n).

(** A boolean entry used in arithmetic. *)
Definition b2f (b : bool) : float := if b then Fin 1 else Fin 0.

(** [x == 0]. *)
Definition is_zero (x : float) : bool :=
  match x with
  | Fin q => Qeq_bool q 0
  | _ => false
  end.

(** Python's [x / y] on finite floats: it raises for a zero divisor and
    overflows to an infinity. *)
Definition truediv (x y : Q) : result float :=
  if Qeq_bool y 0 then Raise ZeroDivisionError else Ok (round binary64 (x / y)).

End Float.

(** ** [inferno/core/math.py] *)

Module Math.

Import Float.

(** *** Smoothing *)

(** [def exponential_smoothing(obs, level, *, alpha)], one unit of the
    float32 tensors [obs] and [level], with a Python float for [alpha]:
    [1 - alpha] is computed on Python floats, the products and the sum on
    float32 numbers. *)
Definition exponential_smoothing (obs : float) (level : option float) (alpha : float)
  : float :=
  match level with
  | None => obs
  | Some l =>
      fadd binary32 (fmul binary32 (cast binary32 alpha) obs)
        (fmul binary32 (cast binary32 (fsub binary64 (Fin 1) alpha)) l)
  end.

(** A call of [exponential_smoothing] with the positional arguments [pos]
    and the keyword arguments [kw].  The signature has two positional
    parameters and the keyword-only parameter [alpha] (it follows the bare
    [*]): Python raises [TypeError] when more than two positional arguments
    are given, when one is missing, when [alpha] is not given by keyword,
    or when an unknown keyword is given. *)
Definition call_exponential_smoothing
    (pos : list (option float)) (kw : list (string * float)) : result float :=
  match pos with
  | [Some obs; level] =>
      match kw with
      | [(k, alpha)] =>
          if String.eqb k "alpha"
          then Ok (exponential_smoothing obs level alpha)
          else Raise TypeError
      | _ => Raise TypeError
      end
  | _ => Raise TypeError
  end.

(** [def holt_linear_smoothing(obs, level, trend, *, alpha, beta)].  Both
    inner calls hand the smoothing factor over as a third positional
    argument. *)
Definition holt_linear_smoothing
    (obs : float) (level trend : option float) (alpha beta : float)
  : result (float * option float) :=
  match level with
  | None => Ok (obs, None)
  | Some l =>
      let trend := match trend with None => fsub binary32 obs l | Some t => t end in
      let* s :=
        call_exponential_smoothing [Some obs; Some (fadd binary32 l trend); Some alpha] [] in
      let* b :=
        call_exponential_smoothing [Some (fsub binary32 s l); Some trend; Some beta] [] in
      Ok (s, Some b)
  end.

(** The Holt update the comments of [holt_linear_smoothing] describe
    (level and trend given): the level is smoothed against [level + trend],
    the trend against the change of level. *)
Definition holt_textbook (obs level trend alpha beta : float) : float * float :=
  let smooth (a x l : float) :=
    fadd binary32 (fmul binary32 (cast binary32 a) x)
      (fmul binary32 (cast binary32 (fsub binary64 (Fin 1) a)) l) in
  let s := smooth alpha obs (fadd binary32 level trend) in
  (s, smooth beta (fsub binary32 s level) trend).

(** *** Inter-spike intervals *)

(** A boolean tensor of shape [lead ++ [T]], time last: [trains] lists its
    slices along the last dimension in row-major order of the leading
    dimensions. *)
Record spike_tensor : Type := {
  lead : list nat;
  trains : list (list bool)
}.

(** A float32 tensor of shape [out_lead ++ [out_last]], by rows. *)
Record interval_tensor : Type := {
  out_lead : list nat;
  out_last : nat;
  rows : list (list float)
}.

(** [F.pad(spikes, (1, 0), mode="constant", value=True)]. *)
Definition pad_true (ts : list (list bool)) : list (list bool) :=
  map (cons true) ts.

(** Positions of the true entries of a row, counted from [i]. *)
Fixpoint nonzero_from (i : nat) (row : list bool) : list nat :=
  match row with
  | [] => []
  | b :: r => if b then i :: nonzero_from (S i) r else nonzero_from (S i) r
  end.

(** [torch.nonzero(padded)[..., -1]]: the last coordinate of every true
    entry, the entries taken in row-major order. *)
Definition nonzero_last (padded : list (list bool)) : list nat :=
  concat (map (nonzero_from 0) padded).

(** [torch.nonzero(torch.logical_not(nz)).view(-1).tolist()]. *)
Definition zero_positions (nz : list nat) : list nat :=
  nonzero_from 0 (map (Nat.eqb 0) nz).

(** [torch.tensor_split(x, indices, dim=-1)] on a one-dimensional tensor:
    [x[:i1], x[i1:i2], ..., x[ik:]]. *)
Fixpoint tensor_split_from {A : Type} (prev : nat) (x : list A) (indices : list nat)
  : list (list A) :=
  match indices with
  | [] => [skipn prev x]
  | i :: rest => firstn (i - prev) (skipn prev x) :: tensor_split_from i x rest
  end.

Definition tensor_split {A : Type} (x : list A) (indices : list nat) : list (list A) :=
  tensor_split_from 0 x indices.

Definition max_len {A : Type} (seqs : list (list A)) : nat :=
  fold_right Nat.max 0%nat (map (@length A) seqs).

(** [nn.utils.rnn.pad_sequence(seqs, batch_first=True, padding_value=v)]. *)
Definition pad_sequence (seqs : list (list float)) (padding_value : float)
  : list (list float) :=
  map (fun s => s ++ repeat padding_value (max_len seqs - length s)) seqs.

(** [torch.diff(x, dim=-1)] on one row of a float32 tensor; a row of fewer
    than two entries has no difference. *)
Fixpoint diff (row : list float) : list float :=
  match row with
  | a :: r =>
      match r with
      | b :: _ => fsub binary32 b a :: diff r
      | [] => []
      end
  | [] => []
  end.

Fixpoint chunk {A : Type} (n len : nat) (flat : list A) : list (list A) :=
  match n with
  | O => []
  | S n' => firstn len flat :: chunk n' len (skipn len flat)
  end.

(** [x.view( *shape, -1)] for a tensor with the entries [flat]: the size of
    the last dimension is inferred; torch refuses to infer it when the given
    sizes multiply to zero, and when they do not divide the number of
    entries. *)
Definition view_infer {A : Type} (flat : list A) (shape : list nat)
  : result (nat * list (list A)) :=
  let newsize := numel shape in
  if (newsize =? 0)%nat then Raise RuntimeError
  else if (length flat mod newsize =? 0)%nat then
    let last := (length flat / newsize)%nat in
    Ok (last, chunk newsize last flat)
  else Raise RuntimeError.

(** [(nz - 1) * step_time] for one entry [i] of the integer tensor [nz]:
    the product of an integer tensor and a Python float is a float32 tensor,
    both operands are converted to float32 and the product is rounded. *)
Definition scaled (step_time : float) (i : nat) : float :=
  fmul binary32 (of_Z binary32 (Z.of_nat i - 1)) (cast binary32 step_time).

(** [def isi(spikes, step_time=None, time_first=False)] with [time_first]
    at its default [False], so that neither rearrangement is taken; the
    steps are those of the source, in its order.  [step_time] is a Python
    float or [None]. *)
Definition isi (spikes : spike_tensor) (step_time : option float) : result interval_tensor :=
  let step_time := match step_time with None => Fin 1 | Some s => s end in
  let padded := pad_true (trains spikes) in
  let nz := nonzero_last padded in
  let splits := tl (zero_positions nz) in
  let intervals := tensor_split (map (scaled step_time) nz) splits in
  let intervals := map (skipn 1) (pad_sequence intervals NaN) in
  let intervals := map diff intervals in
  let* v := view_infer (concat intervals) (lead spikes) in
  Ok {| out_lead := lead spikes; out_last := fst v; rows := snd v |}.

(** The train of length [T] whose spikes are exactly at the steps [steps]. *)
Definition train_of (T : nat) (steps : list nat) : list bool :=
  map (fun i => existsb (Nat.eqb i) steps) (seq 0 T).

(** *** Notions the statements about [isi] use *)

(** The steps at which a train spikes. *)
Definition spike_times (train : list bool) : list nat := nonzero_from 0 train.

(** The largest number of spikes amongst the trains, [C] of the docstring. *)
Definition max_spikes (ts : list (list bool)) : nat :=
  max_len (map spike_times ts).

(** The record describes a tensor of shape [lead ++ [T]]. *)
Definition well_shaped (T : nat) (spikes : spike_tensor) : Prop :=
  length (trains spikes) = numel (lead spikes)
  /\ Forall (fun t => length t = T) (trains spikes).

(** What [nonzero_last] lists for one padded train. *)
Definition block (train : list bool) : list nat := 0%nat :: map S (spike_times train).

(** The positions at which consecutive blocks of the given lengths start. *)
Fixpoint starts (off : nat) (lens : list nat) : list nat :=
  match lens with
  | [] => []
  | n :: rest => off :: starts (off + n) rest
  end.

(** The time of the spike at the step [t] as [isi] computes it: the
    float32 product of the step and the step time. *)
Definition time_of (step_time : float) (t : nat) : float :=
  fmul binary32 (of_Z binary32 (Z.of_nat t)) (cast binary32 step_time).

(** The interval between the spikes at the steps [t1] and [t2] as [isi]
    computes it: the float32 difference of their times. *)
Definition interval (step_time : float) (t1 t2 : nat) : float :=
  fsub binary32 (time_of step_time t2) (time_of step_time t1).

(** The spike times of a train followed by the padding of a batch whose
    longest train has [C] spikes. *)
Definition padded_times (step_time : float) (C : nat) (train : list bool) : list float :=
  map (time_of step_time) (spike_times train)
  ++ repeat NaN (C - length (spike_times train)).

(** [float(step_time)], or the dummy step time. *)
Definition step_of (step_time : option float) : float :=
  match step_time with None => Fin 1 | Some s => s end.

(** The Python float written [0.1]. *)
Definition tenth : float := round binary64 (1 # 10).

End Math.


(** ** [inferno/neural/synapses/current.py] *)

Module Synapses.

Import Float.

(** *** The delay line the synapses are built on *)

(** The two interpolation functions the constructors choose between,
    [interp_nearest] and [interp_previous] of the absent
    [inferno.functional]; section 4.1 of the spec describes them. *)
Inductive interp : Type :=
| interp_nearest
| interp_previous.

(** Modelled from the spec: the Delay Line / History Buffer (sections 3 and
    4.2), the code of which ([neural/synapses/mixins.py] and the record
    module under it) is absent.  A ring of [ceil(max_delay / dt) + 1]
    observations of the whole unit group and the step counter; the write of
    a step takes the place of the oldest observation. *)
Record history (A : Type) : Type := {
  slots : list (list A);
  step : nat
}.

Arguments slots {A} h.
Arguments step {A} h.

(** Modelled from the spec: capacity of a Delay Line (section 3). *)
Definition capacity (dt max_delay : Q) : nat :=
  S (Z.to_nat (Qceiling (max_delay / dt))).

(** Modelled from the spec: a Delay Line of [n] units at rest. *)
Definition history_new {A : Type} (cap n : nat) (rest : A) : history A :=
  {| slots := replicate cap (replicate n rest); step := 0 |}.

(** Modelled from the spec: [reset] of a Delay Line, section 4.2 [clear()]:
    every slot takes the resting value, the step counter returns to 0, the
    capacity stays. *)
Definition reset {A : Type} (h : history A) (rest : A) : history A :=
  {| slots := map (map (fun _ => rest)) (slots h); step := 0 |}.

(** Modelled from the spec: [write] of a Delay Line, section 4.2. *)
Definition write {A : Type} (h : history A) (obs : list A) : history A :=
  {| slots := <[(step h mod length (slots h))%nat := obs]> (slots h);
     step := S (step h) |}.

(** Modelled from the spec: the observation written [age] steps before the
    newest one. *)
Definition obs_at {A : Type} (h : history A) (age : nat) : option (list A) :=
  slots h !! ((step h + length (slots h) - 1 - age) mod length (slots h))%nat.

(** Modelled from the spec: the observation of the current step, which the
    getters of the absent mixins return. *)
Definition newest {A : Type} (h : history A) : list A :=
  default [] (obs_at h 0).

(** Modelled from the spec: the value of the unit [u] in the observation
    of the given age. *)
Definition value_at (h : history float) (age u : nat) : float :=
  default (Fin 0) (obs_at h age ≫= (fun obs => obs !! u)).

(** Modelled from the spec: the Interpolation Engine, section 4.1, on the two
    bracketing observations [(value, age)]: [lo] the more recent one (age at
    most the query) and [hi] the older one (age at least the query). *)
Definition interpolate (mode : interp) (tolerance : Q) (lo hi : float * Q) (query_age : Q)
  : float :=
  if Qeq_bool (snd lo) (snd hi) then fst lo
  else
    match mode with
    | interp_previous => fst hi
    | interp_nearest =>
        if Qle_bool (query_age - snd lo) tolerance && Qle_bool (snd hi - query_age) tolerance
        then (if Qle_bool (query_age - snd lo) (snd hi - query_age) then fst lo else fst hi)
        else fadd binary32 (fst lo)
               (fmul binary32 (fsub binary32 (fst hi) (fst lo))
                  (round binary32 ((query_age - snd lo) / (snd hi - snd lo))))
    end.

(** Modelled from the spec: [read_at] of a Delay Line for the unit [u] and
    the delay [d], sections 4.1 and 4.2: a delay outside [0, max_delay] is
    resolved by the overbound policy, a delay inside by interpolation between
    the observations at the ages [floor(d / dt)] and [ceil(d / dt)]. *)
Definition read_unit (mode : interp) (tolerance : Q) (overbound : option Q)
    (dt max_delay : Q) (h : history float) (u : nat) (d : Q) : float :=
  if negb (Qle_bool 0 d) then
    match overbound with Some v => round binary32 v | None => value_at h 0 u end
  else if negb (Qle_bool d max_delay) then
    match overbound with
    | Some v => round binary32 v
    | None => value_at h (length (slots h) - 1) u
    end
  else
    let lo := Z.to_nat (Qfloor (d / dt)) in
    let hi := Z.to_nat (Qceiling (d / dt)) in
    interpolate mode tolerance
      (value_at h lo u, inject_Z (Z.of_nat lo) * dt)
      (value_at h hi u, inject_Z (Z.of_nat hi) * dt) d.

(** Modelled from the spec: [read_at] for a unit group of [n] units, one
    delay per unit; section 4.2, a delay tensor of another shape fails. *)
Definition read_at (mode : interp) (tolerance : Q) (overbound : option Q)
    (dt max_delay : Q) (n : nat) (h : history float) (delay : list Q)
  : result (list float) :=
  if (length delay =? n)%nat
  then Ok (imap (fun u d => read_unit mode tolerance overbound dt max_delay h u d) delay)
  else Raise ShapeMismatchError.

(** *** Construction *)

(** Modelled from the spec: the attributes of [InfernoSynapse]
    ([neural/base.py] is absent); section 4.2, construction fixes the shape
    of the unit group, the step time, the maximum delay and the batch size. *)
Record InfernoSynapse : Type := {
  shape : list nat;
  dt : Q;
  delay : Q;
  batch_size : nat
}.

(** Modelled from the spec: [InfernoSynapse.__init__] ([neural/base.py] is
    absent); sections 4.2 and 7, a non-positive step time and a negative
    maximum delay fail with a [ConfigurationError]. *)
Definition InfernoSynapse_init (shape : list nat) (step_time delay : Q) (batch_size : nat)
  : result InfernoSynapse :=
  if Qle_bool step_time 0 then Raise ConfigurationError
  else if negb (Qle_bool 0 delay) then Raise ConfigurationError
  else Ok {| shape := shape; dt := step_time; delay := delay; batch_size := batch_size |}.

(** Modelled from the spec: the number of units of the group, the number
    of entries of a tensor of shape [batchedshape = (batch_size, *shape)]. *)
Definition units (base : InfernoSynapse) : nat :=
  (batch_size base * numel (shape base))%nat.

(** Modelled from the spec: [argtest.neq(name, value, limit, float)]
    ([inferno/_internal/argtest.py] is absent); sections 4.3 and 7, a charge
    equal to the limit fails with a [ConfigurationError]. *)
Definition argtest_neq (value limit : Q) : result Q :=
  if Qeq_bool value limit then Raise ConfigurationError else Ok value.

(** [str.lower()] on ASCII strings. *)
Definition lower_ascii (c : ascii) : ascii :=
  let n := nat_of_ascii c in
  if (65 <=? n)%nat && (n <=? 90)%nat then ascii_of_nat (n + 32) else c.

Fixpoint lower (s : string) : string :=
  match s with
  | EmptyString => EmptyString
  | String c r => String (lower_ascii c) (lower r)
  end.

Record DeltaCurrent : Type := {
  base : InfernoSynapse;
  spike_q : Q;
  interp_fn : interp;
  tolerance : Q;
  current_overbound : option Q;
  spike_overbound : option bool;
  spike_ : history bool
}.

(** [DeltaCurrent.__init__].  The call of the absent mixin constructor
    stores the interpolation and overbound settings and builds the spike
    history from [torch.zeros( *self.batchedshape, dtype=torch.bool)]. *)
Definition DeltaCurrent_init (shape : list nat) (step_time spike_q delay : Q)
    (interp_mode : string) (interp_tol : Q) (current_overbound : option Q)
    (spike_overbound : option bool) (batch_size : nat) : result DeltaCurrent :=
  let* self := InfernoSynapse_init shape step_time delay batch_size in
  let* spike_q := argtest_neq spike_q 0 in
  let* interp :=
    (let m := lower interp_mode in
     if String.eqb m "nearest" then Ok interp_nearest
     else if String.eqb m "previous" then Ok interp_previous
     else Raise RuntimeError) in
  Ok {| base := self;
        spike_q := spike_q;
        interp_fn := interp;
        tolerance := interp_tol;
        current_overbound := current_overbound;
        spike_overbound := spike_overbound;
        spike_ := history_new (capacity step_time delay) (units self) false |}.

Record DeltaPlusCurrent : Type := {
  pbase : InfernoSynapse;
  pspike_q : Q;
  pinterp_fn : interp;
  ptolerance : Q;
  pcurrent_overbound : option Q;
  pspike_overbound : option bool;
  pcurrent_ : history float;
  pspike_ : history bool
}.

(** [DeltaPlusCurrent.__init__].  The call of the absent mixin constructor
    stores the interpolation and overbound settings and builds the current
    and spike histories from the two zero tensors. *)
Definition DeltaPlusCurrent_init (shape : list nat) (step_time spike_q delay : Q)
    (interp_mode : string) (interp_tol : Q) (current_overbound : option Q)
    (spike_overbound : option bool) (batch_size : nat) : result DeltaPlusCurrent :=
  let* self := InfernoSynapse_init shape step_time delay batch_size in
  let* spike_q := argtest_neq spike_q 0 in
  let* interp :=
    (let m := lower interp_mode in
     if String.eqb m "nearest" then Ok interp_nearest
     else if String.eqb m "previous" then Ok interp_previous
     else Raise RuntimeError) in
  Ok {| pbase := self;
        pspike_q := spike_q;
        pinterp_fn := interp;
        ptolerance := interp_tol;
        pcurrent_overbound := current_overbound;
        pspike_overbound := spike_overbound;
        pcurrent_ := history_new (capacity step_time delay) (units self) (Fin 0);
        pspike_ := history_new (capacity step_time delay) (units self) false |}.

(** The keyword arguments of the call [cls(...)] inside [constructor].  The
    four arguments a connection passes through keep whatever value they were
    given. *)
Record kwargs : Type := {
  kw_shape : pyval;
  kw_step_time : pyval;
  kw_spike_q : Q;
  kw_delay : pyval;
  kw_interp_mode : string;
  kw_interp_tol : Q;
  kw_current_overbound : option Q;
  kw_spike_overbound : option bool;
  kw_batch_size : pyval
}.

(** [SynapseConstructor]: called as
    [constructor(shape, step_time, delay, batch_size)]. *)
Definition SynapseConstructor (S : Type) : Type :=
  pyval -> pyval -> pyval -> pyval -> result S.

(** [partialconstructor] (a classmethod, the same text in both classes). *)
Definition partialconstructor {S : Type} (cls : kwargs -> result S)
    (spike_q : Q) (interp_mode : string) (interp_tol : Q)
    (current_overbound : option Q) (spike_overbound : option bool)
  : SynapseConstructor S :=
  fun shape step_time delay batch_size =>
    cls {| kw_shape := shape;
           kw_step_time := step_time;
           kw_spike_q := spike_q;
           kw_delay := delay;
           kw_interp_mode := interp_mode;
           kw_interp_tol := interp_tol;
           kw_current_overbound := current_overbound;
           kw_spike_overbound := spike_overbound;
           kw_batch_size := batch_size |}.

(** *** Simulation steps *)

(** Modelled from the spec: the setter of a stored tensor ([spike],
    [current]) of the absent mixins; sections 4.2 and 7, the observation of
    a step is written to the Delay Line, a tensor that does not have the
    shape of the unit group fails with a [ShapeMismatchError]. *)
Definition record_obs {A : Type} (n : nat) (h : history A) (obs : list A)
  : result (history A) :=
  if (length obs =? n)%nat then Ok (write h obs) else Raise ShapeMismatchError.

Definition set_spike_ (self : DeltaCurrent) (h : history bool) : DeltaCurrent :=
  {| base := base self;
     spike_q := spike_q self;
     interp_fn := interp_fn self;
     tolerance := tolerance self;
     current_overbound := current_overbound self;
     spike_overbound := spike_overbound self;
     spike_ := h |}.

(** [tensor * k] for a float32 tensor and a Python float [k]: the float is
    converted to float32 and every product is rounded. *)
Definition scalar_mul (entries : list float) (k : float) : list float :=
  map (fun x => fmul binary32 x (cast binary32 k)) entries.

(** [DeltaCurrent._to_current]: [spikes * (self.spike_q / self.dt)], the
    quotient of two Python floats times a boolean tensor. *)
Definition _to_current (self : DeltaCurrent) (spikes : list bool) : result (list float) :=
  let* k := truediv (spike_q self) (dt (base self)) in
  Ok (scalar_mul (map b2f spikes) k).

(** Modelled from the spec: the getter [spike] of the absent mixin, the
    newest observation. *)
Definition spike (self : DeltaCurrent) : list bool := newest (spike_ self).

(** Modelled from the spec: the getter [current] of the absent
    [SpikeDerivedCurrentMixin]; section 4.3, the current is derived from the
    spikes by the method named at construction, [_to_current]. *)
Definition current (self : DeltaCurrent) : result (list float) :=
  _to_current self (spike self).

(** [DeltaCurrent.clear]. *)
Definition clear (self : DeltaCurrent) : DeltaCurrent :=
  set_spike_ self (reset (spike_ self) false).

(** [DeltaCurrent.forward]: the new state and the returned tensor. *)
Definition forward (self : DeltaCurrent) (inputs : list (list bool))
  : result (DeltaCurrent * list float) :=
  match inputs with
  | [] => Raise IndexError
  | input0 :: _ =>
      let* h := record_obs (units (base self)) (spike_ self) input0 in
      let self := set_spike_ self h in
      let* out := current self in
      Ok (self, out)
  end.


(** An input tensor of [DeltaPlusCurrent.forward]: a boolean tensor or a
    float32 tensor. *)
Inductive tensor : Type :=
| BoolT (entries : list bool)
| FloatT (entries : list float).

(** [t.bool()]: an entry is true unless it is zero. *)
Definition to_bool (t : tensor) : list bool :=
  match t with
  | BoolT l => l
  | FloatT l => map (fun x => negb (is_zero x)) l
  end.

(** The entries of a tensor used in float32 arithmetic. *)
Definition to_float (t : tensor) : list float :=
  match t with
  | BoolT l => map b2f l
  | FloatT l => l
  end.

(** Sum of two tensors of the shape of the unit group. *)
Definition tensor_add (a b : list float) : result (list float) :=
  if (length a =? length b)%nat then Ok (zip_with (fadd binary32) a b)
  else Raise ShapeMismatchError.

Fixpoint sum_from (acc : list float) (ts : list (list float)) : result (list float) :=
  match ts with
  | [] => Ok acc
  | t :: rest => let* acc' := tensor_add acc t in sum_from acc' rest
  end.

(** Python's [sum((first, *rest))]: it starts from the integer [0]. *)
Definition py_sum (first : list float) (rest : list (list float)) : result (list float) :=
  sum_from (map (fadd binary32 (Fin 0)) first) rest.

(** [DeltaPlusCurrent.clear]. *)
Definition pclear (self : DeltaPlusCurrent) : DeltaPlusCurrent :=
  {| pbase := pbase self;
     pspike_q := pspike_q self;
     pinterp_fn := pinterp_fn self;
     ptolerance := ptolerance self;
     pcurrent_overbound := pcurrent_overbound self;
     pspike_overbound := pspike_overbound self;
     pcurrent_ := reset (pcurrent_ self) (Fin 0);
     pspike_ := reset (pspike_ self) false |}.

(** [DeltaPlusCurrent.forward]: the new state and the returned tensor. *)
Definition pforward (self : DeltaPlusCurrent) (inputs : list tensor)
  : result (DeltaPlusCurrent * list float) :=
  match inputs with
  | [] => Raise IndexError
  | input0 :: injected =>
      let* hs := record_obs (units (pbase self)) (pspike_ self) (to_bool input0) in
      let* k := truediv (pspike_q self) (dt (pbase self)) in
      let* total := py_sum (scalar_mul (to_float input0) k) (map to_float injected) in
      let* hc := record_obs (units (pbase self)) (pcurrent_ self) total in
      Ok ({| pbase := pbase self;
             pspike_q := pspike_q self;
             pinterp_fn := pinterp_fn self;
             ptolerance := ptolerance self;
             pcurrent_overbound := pcurrent_overbound self;
             pspike_overbound := pspike_overbound self;
             pcurrent_ := hc;
             pspike_ := hs |},
          newest hc)
  end.

(** Modelled from the spec: [current_at] of the absent [SpikeCurrentMixin];
    sections 4.2 and 4.3, a read of the current history. *)
Definition pcurrent_at (self : DeltaPlusCurrent) (delays : list Q) : result (list float) :=
  read_at (pinterp_fn self) (ptolerance self) (pcurrent_overbound self)
    (dt (pbase self)) (delay (pbase self)) (units (pbase self))
    (pcurrent_ self) delays.


(** A synapse in a state the constructor and the steps produce: the ring is
    not empty and every observation has one entry per unit. *)
Definition history_wf {A : Type} (n : nat) (h : history A) : Prop :=
  slots h <> [] /\ Forall (fun obs => length obs = n) (slots h).

Definition at_rest {A : Type} (rest : A -> Prop) (h : history A) : Prop :=
  Forall (Forall rest) (slots h).

End Synapses.

(** ** [inferno/neural/connections/linear.py] *)

Module Connections.

Import Synapses.

(** A shape argument: an integer or a tuple of integers. *)
Inductive shape_arg : Type :=
| ShapeInt (n : Z)
| ShapeTuple (dims : list Z).

(** [(int(shape),)], or [tuple(int(s) for s in shape)] after the
    [TypeError]. *)
Definition convert_shape (a : shape_arg) : list Z :=
  match a with
  | ShapeInt n => [n]
  | ShapeTuple dims => dims
  end.

(** [math.prod]. *)
Definition prod (dims : list Z) : Z := fold_right Z.mul 1%Z dims.

(** [not delay] for [delay : float | None]. *)
Definition py_not (delay : option Q) : bool :=
  match delay with
  | None => true
  | Some d => Qeq_bool d 0
  end.

(** The connection object: what [Connection.__init__] built and the extras
    registered after it. *)
Record linear (C : Type) : Type := {
  connection : C;
  extras : list (string * list Z)
}.

Arguments connection {C} l.
Arguments extras {C} l.

Section Linear.

(** The synapse class and [Connection.__init__] ([neural/base.py] is
    absent): the latter receives the synapse and the shapes of the weight,
    bias and delay parameters (their entries are random or zero).  The
    initializers [weight_init], [bias_init] and [delay_init] are at their
    default [None]. *)
Context {S C : Type}.
Variable Connection_init :
  S -> list Z -> option (list Z) -> option (list Z) -> result C.

(** [DenseLinear.__init__]. *)
Definition DenseLinear_init (in_shape out_shape : shape_arg) (step_time : Q)
    (synapse : SynapseConstructor S) (batch_size : Z) (bias : bool)
    (delay : option Q) : result (linear C) :=
  let in_shape := convert_shape in_shape in
  let out_shape := convert_shape out_shape in
  let input_size := prod in_shape in
  let output_size := prod out_shape in
  if Qle_bool step_time 0 then Raise ValueError
  else if match delay with Some d => Qle_bool d 0 | None => false end
  then Raise ValueError
  else
    let* syn :=
      synapse (PyInt input_size) (PyFloat step_time) (PyInt batch_size)
              (match delay with
               | Some d => if py_not delay then PyNone else PyFloat d
               | None => PyNone
               end) in
    let* conn :=
      Connection_init syn [output_size; input_size]
        (if negb bias then None else Some [output_size; 1%Z])
        (if py_not delay then None else Some [output_size; input_size]) in
    Ok {| connection := conn;
          extras := [("in_shape"%string, in_shape); ("out_shape"%string, out_shape)] |}.

(** [DirectLinear.__init__]. *)
Definition DirectLinear_init (shape : shape_arg) (step_time : Q)
    (synapse : SynapseConstructor S) (batch_size : Z) (bias : bool)
    (delay : option Q) : result (linear C) :=
  let shape := convert_shape shape in
  let size := prod shape in
  if Qle_bool step_time 0 then Raise ValueError
  else if match delay with Some d => Qle_bool d 0 | None => false end
  then Raise ValueError
  else
    let* syn :=
      synapse (PyInt size) (PyFloat step_time) (PyInt batch_size)
              (match delay with
               | Some d => if py_not delay then PyNone else PyFloat d
               | None => PyNone
               end) in
    let* conn :=
      Connection_init syn [size]
        (if negb bias then None else Some [size])
        (if py_not delay then None else Some [size]) in
    Ok {| connection := conn; extras := [("shape"%string, shape)] |}.

End Linear.

(** A class that keeps the keyword arguments it is constructed with, and a
    [Connection.__init__] that keeps the synapse it is given. *)
Definition recording_cls (kw : kwargs) : result kwargs := Ok kw.

Definition keep_synapse {S : Type} (syn : S) (weight : list Z)
    (bias delay : option (list Z)) : result S := Ok syn.

End Connections.

(** ** [inferno/_internal/utils.py] *)

Module Utils.

(** *** [fzip] and [unique] *)

(** [def fzip(seq, *fns, identity=True)]; the generator is represented by
    the list of the tuples it yields, a tuple by the list of its
    components. *)
Definition fzip {T : Type} (seq : list T) (fns : list (T -> T)) (identity : bool)
  : list (list T) :=
  let fns := if identity then (fun x => x) :: fns else fns in
  map (fun e => map (fun fn => fn e) fns) seq.

(** A Python object: its identity [id(obj)] and its value, which decides
    [==] and [hash]. *)
Record object (V : Type) : Type := {
  oid : nat;
  oval : V
}.

Arguments oid {V} o.
Arguments oval {V} o.

(** The key [unique] tests: [id(e)] when [ids], the element itself (its
    value, through [hash] and [==]) otherwise. *)
Definition key_of {V : Type} (ids : bool) (e : object V) : nat + V :=
  if ids then inl (oid e) else inr (oval e).

(** The pairs [(elem, key)] that [fzip(seq, keyfn)] yields in [unique]. *)
Definition pairs_of {V : Type} (ids : bool) (seq : list (object V))
  : list (object V * (nat + V)) :=
  map (fun e => (e, key_of ids e)) seq.

(** The loop of [unique] over these pairs, with the set [found]. *)
Fixpoint unique_loop {V : Type} {EqV : EqDecision V} {CountV : Countable V} (found : gset (nat + V))
    (pairs : list (object V * (nat + V))) : list (object V) :=
  match pairs with
  | [] => []
  | (elem, key) :: rest =>
      if decide (key ∈ found) then unique_loop found rest
      else elem :: unique_loop ({[key]} ∪ found) rest
  end.

(** [def unique(seq, ids=True)]. *)
Definition unique {V : Type} {EqV : EqDecision V} {CountV : Countable V}
    (seq : list (object V)) (ids : bool) : list (object V) :=
  unique_loop ∅ (pairs_of ids seq).

(** *** [regroup] *)

Local Unset Elimination Schemes.

(** An entry of [groups]: an index into [flatseq], or a tuple of entries. *)
Inductive group : Type :=
| GIndex (i : Z)
| GTuple (gs : list group).

(** An entry of the result: an element of [flatseq], or a tuple of entries. *)
Inductive nested (A : Type) : Type :=
| Item (a : A)
| Tuple (items : list (nested A)).

Local Set Elimination Schemes.

Arguments Item {A} a.
Arguments Tuple {A} items.

(** [flatseq[i]] for an integer [i]: negative indices count from the end,
    an index outside [-len, len) raises [IndexError]. *)
Definition getitem {A : Type} (flatseq : list A) (i : Z) : result A :=
  let n := Z.of_nat (length flatseq) in
  let j := if (i <? 0)%Z then (n + i)%Z else i in
  if (j <? 0)%Z then Raise IndexError
  else match nth_error flatseq (Z.to_nat j) with
       | Some a => Ok a
       | None => Raise IndexError
       end.


(** The tuple a generator expression builds: its items are computed from
    left to right and the first exception ends it. *)
Fixpoint collect {A B : Type} (f : A -> result B) (l : list A) : result (list B) :=
  match l with
  | [] => Ok []
  | a :: rest =>
      let* b := f a in
      let* bs := collect f rest in
      Ok (b :: bs)
  end.

(** One item of the tuple [regroup] returns:
    [flatseq[g] if isinstance(g, int) else regroup(flatseq, g)]. *)
Fixpoint regroup_item {A : Type} (flatseq : list A) (g : group) : result (nested A) :=
  match g with
  | GIndex i => let* a := getitem flatseq i in Ok (Item a)
  | GTuple gs =>
      let* items :=
        (fix go (gs : list group) : result (list (nested A)) :=
           match gs with
           | [] => Ok []
           | g' :: rest =>
               let* b := regroup_item flatseq g' in
               let* bs := go rest in
               Ok (b :: bs)
           end) gs in
      Ok (Tuple items)
  end.

(** [def regroup(flatseq, groups)]. *)
Definition regroup {A : Type} (flatseq : list A) (groups : list group)
  : result (list (nested A)) :=
  collect (regroup_item flatseq) groups.

(** The indices of a tuple of groups, from left to right. *)
Fixpoint indices_of (g : group) : list Z :=
  match g with
  | GIndex i => [i]
  | GTuple gs => concat (map indices_of gs)
  end.

(** The elements of a nested tuple, from left to right. *)
Fixpoint leaves {A : Type} (x : nested A) : list A :=
  match x with
  | Item a => [a]
  | Tuple items => concat (map leaves items)
  end.

Local Unset Elimination Schemes.

(** The nesting of a group and of a result with the entries forgotten. *)
Inductive skeleton : Type :=
| SLeaf
| SNode (children : list skeleton).

Local Set Elimination Schemes.

Fixpoint group_skeleton (g : group) : skeleton :=
  match g with
  | GIndex _ => SLeaf
  | GTuple gs => SNode (map group_skeleton gs)
  end.

Fixpoint nested_skeleton {A : Type} (x : nested A) : skeleton :=
  match x with
  | Item _ => SLeaf
  | Tuple items => SNode (map nested_skeleton items)
  end.

Fixpoint nested_map {A B : Type} (f : A -> B) (x : nested A) : nested B :=
  match x with
  | Item a => Item (f a)
  | Tuple items => Tuple (map (nested_map f) items)
  end.

End Utils.

(** ** [inferno/_internal/utils.py]: attribute access by dotted paths *)

Module Attrs.

(** *** Objects *)

(** A Python value: [None], an integer, a string, or a reference to an
    object.  The heap gives every object its instance dictionary; in this
    embedding attributes live in instance dictionaries only, values that are
    not objects have none. *)
Inductive value : Type :=
| VNone
| VInt (z : Z)
| VStr (s : string)
| VRef (l : nat).

Abbreviation heap := (gmap nat (gmap string value)).

Inductive error : Type :=
| AttributeError
| OtherError (e : exn).

Inductive attempt (A : Type) : Type :=
| Done (a : A)
| Except (e : error).

Arguments Done {A} a.
Arguments Except {A} e.

Definition abind {A B : Type} (m : attempt A) (k : A -> attempt B) : attempt B :=
  match m with
  | Done a => k a
  | Except e => Except e
  end.

(** [getattr(obj, name)]. *)
Definition getattr (h : heap) (obj : value) (name : string) : attempt value :=
  match obj with
  | VRef l =>
      match h !! l with
      | Some d =>
          match d !! name with
          | Some v => Done v
          | None => Except AttributeError
          end
      | None => Except AttributeError
      end
  | _ => Except AttributeError
  end.

(** [setattr(obj, name, val)]: the heap after the assignment. *)
Definition setattr (h : heap) (obj : value) (name : string) (val : value) : attempt heap :=
  match obj with
  | VRef l =>
      match h !! l with
      | Some d => Done (<[l := <[name := val]> d]> h)
      | None => Except AttributeError
      end
  | _ => Except AttributeError
  end.

(** *** Dotted paths *)

Definition dot : ascii := "."%char.

(** [attr.split(".")]. *)
Fixpoint split_dot (attr : string) : list string :=
  match attr with
  | EmptyString => [EmptyString]
  | String c rest =>
      if Ascii.eqb c dot then EmptyString :: split_dot rest
      else match split_dot rest with
           | first :: others => String c first :: others
           | [] => [String c EmptyString]
           end
  end.

(** [attr.rpartition(".")] where [attr] holds a dot: what stands before and
    after its last dot. *)
Fixpoint rsplit_dot (attr : string) : option (string * string) :=
  match attr with
  | EmptyString => None
  | String c rest =>
      match rsplit_dot rest with
      | Some (pre, post) => Some (String c pre, post)
      | None => if Ascii.eqb c dot then Some (EmptyString, rest) else None
      end
  end.

(** [pre, _, post = attr.rpartition(".")]. *)
Definition rpartition (attr : string) : string * string :=
  match rsplit_dot attr with
  | Some (pre, post) => (pre, post)
  | None => (EmptyString, attr)
  end.

(** [reduce(getattr, [obj] + names)]. *)
Fixpoint walk (h : heap) (obj : value) (names : list string) : attempt value :=
  match names with
  | [] => Done obj
  | name :: rest =>
      match getattr h obj name with
      | Done v => walk h v rest
      | Except e => Except e
      end
  end.

(** [def rgetattr(obj, attr, *default)]. *)
Definition rgetattr (h : heap) (obj : value) (attr : string) (default : list value)
  : attempt value :=
  match walk h obj (split_dot attr) with
  | Done v => Done v
  | Except AttributeError =>
      match default with
      | d :: _ => Done d
      | [] => Except AttributeError
      end
  | Except e => Except e
  end.

(** The object [rsetattr] assigns to: [rgetattr(obj, pre) if pre else obj]. *)
Definition rsetattr_target (h : heap) (obj : value) (attr : string) : attempt value :=
  match fst (rpartition attr) with
  | EmptyString => Done obj
  | String _ _ as pre => rgetattr h obj pre []
  end.

(** [def rsetattr(obj, attr, val)]: the heap after the assignment. *)
Definition rsetattr (h : heap) (obj : value) (attr : string) (val : value) : attempt heap :=
  abind (rsetattr_target h obj attr)
        (fun target => setattr h target (snd (rpartition attr)) val).

(** The slots (object, attribute name) a walk reads. *)
Fixpoint reads (h : heap) (obj : value) (names : list string) : list (nat * string) :=
  match names with
  | [] => []
  | name :: rest =>
      match obj with
      | VRef l =>
          (l, name) :: match getattr h obj name with
                       | Done v => reads h v rest
                       | Except _ => []
                       end
      | _ => []
      end
  end.

(** The slots [rsetattr] reads to find the object it assigns to. *)
Definition prefix_reads (h : heap) (obj : value) (attr : string) : list (nat * string) :=
  match fst (rpartition attr) with
  | EmptyString => []
  | String _ _ as pre => reads h obj (split_dot pre)
  end.

(** The slot [rsetattr] writes. *)
Definition written_slot (h : heap) (obj : value) (attr : string) : option (nat * string) :=
  match rsetattr_target h obj attr with
  | Done (VRef l) => Some (l, snd (rpartition attr))
  | _ => None
  end.

(** *** [Proxy] *)

Local Unset Elimination Schemes.

(** An accessor a [Proxy] holds: [None], a string, or (after chaining) a
    tuple of accessors. *)
Inductive accessor : Type :=
| AccNone
| AccStr (s : string)
| AccTuple (items : list accessor).

Local Set Elimination Schemes.

(** Truth value of an accessor. *)
Definition truthy (a : accessor) : bool :=
  match a with
  | AccNone => false
  | AccStr EmptyString => false
  | AccStr (String _ _) => true
  | AccTuple [] => false
  | AccTuple (_ :: _) => true
  end.

Record Proxy : Type := {
  inner : value;
  firstacc : accessor;
  otheracc : list accessor
}.

(** [Proxy.__init__(self, inner, firstacc, *otheracc)]. *)
Definition Proxy_init (inner : value) (firstacc : accessor) (otheracc : list accessor)
  : Proxy :=
  {| inner := inner; firstacc := firstacc; otheracc := otheracc |}.

(** [Proxy.__getattr__(self, attr)]: the attribute, or another proxy.  The
    new proxy is built by [Proxy(res, self.otheracc[0], self.otheracc[1:])],
    whose third argument is one tuple. *)
Definition Proxy_getattr (h : heap) (self : Proxy) (attr : string)
  : attempt (value + Proxy) :=
  abind
    (if truthy (firstacc self) then
       match firstacc self with
       | AccStr s => rgetattr h (inner self) (attr +:+ String dot s) []
       | _ => Except (OtherError TypeError)
       end
     else rgetattr h (inner self) attr [])
    (fun res =>
       match otheracc self with
       | [] => Done (inl res)
       | first :: others => Done (inr (Proxy_init res first [AccTuple others]))
       end).

(** What an attribute access returns: a value of the heap, a proxy, or an
    accessor a proxy holds ([None], a string or a tuple). *)
Inductive outcome : Type :=
| Plain (v : value)
| Wrapped (p : Proxy)
| Held (a : accessor).

(** The names of the instance attributes of a proxy, which [__init__]
    assigns. *)
Definition own_attribute (attr : string) : bool :=
  String.eqb attr "inner" || String.eqb attr "firstacc" || String.eqb attr "otheracc".

(** One attribute access [x.attr].  On a proxy Python looks the name up in
    the instance first and calls [__getattr__] only for a name it does not
    find: the three instance attributes are returned as they are, every
    other name goes through [__getattr__].  On any other value the access
    is [getattr].  As for the other objects of this embedding, the
    attributes of the class and of [object] are not represented, and
    [None], strings and tuples have no attributes. *)
Definition access (h : heap) (x : outcome) (attr : string) : attempt outcome :=
  match x with
  | Plain v => abind (getattr h v attr) (fun r => Done (Plain r))
  | Wrapped p =>
      if String.eqb attr "inner" then Done (Plain (inner p))
      else if String.eqb attr "firstacc" then Done (Held (firstacc p))
      else if String.eqb attr "otheracc" then Done (Held (AccTuple (otheracc p)))
      else abind (Proxy_getattr h p attr)
             (fun r => Done (match r with inl v => Plain v | inr q => Wrapped q end))
  | Held _ => Except AttributeError
  end.

(** The chain of accesses [x.a1.a2. ... .an]. *)
Fixpoint access_chain (h : heap) (x : outcome) (attrs : list string) : attempt outcome :=
  match attrs with
  | [] => Done x
  | attr :: rest => abind (access h x attr) (fun r => access_chain h r rest)
  end.

End Attrs.

(** ** [inferno/core/math.py]: [rescale] *)

Module Rescale.

(** [rescale] is embedded on finite data with exact arithmetic; the
    statements about it concern data without entries and constant data,
    where every difference the code computes is exactly zero.  A value that
    may be infinite or undefined; the division of [rescale] is the one
    place that leaves the finite values. *)
Inductive xreal : Type :=
| Finite (q : Q)
| PlusInf
| MinusInf
| NotNumber.

(** [n / d] for finite [n] and [d]. *)
Definition xdiv (n d : Q) : xreal :=
  if Qeq_bool d 0 then
    if Qeq_bool n 0 then NotNumber
    else if Qle_bool 0 n then PlusInf else MinusInf
  else Finite (n / d).

(** [a + x] for a finite [a]. *)
Definition xadd (a : Q) (x : xreal) : xreal :=
  match x with
  | Finite q => Finite (a + q)
  | other => other
  end.

(** [torch.amin(data, dim=None, keepdim=True)] and [torch.amax] on the
    entries of a tensor; torch refuses a tensor without entries. *)
Definition amin (data : list Q) : result Q :=
  match data with
  | [] => Raise RuntimeError
  | x :: rest => Ok (fold_left Qmin rest x)
  end.

Definition amax (data : list Q) : result Q :=
  match data with
  | [] => Raise RuntimeError
  | x :: rest => Ok (fold_left Qmax rest x)
  end.

(** [def rescale(data, resmin, resmax, *, srcmin=None, srcmax=None,
    dim=None)] with numbers (or [None]) for the four bounds and [dim] at its
    default. *)
Definition rescale (data : list Q) (resmin resmax srcmin srcmax : option Q)
  : result (list xreal) :=
  let* srcmin := match srcmin with Some v => Ok v | None => amin data end in
  let* srcmax := match srcmax with Some v => Ok v | None => amax data end in
  let resmin := match resmin with Some v => v | None => srcmin end in
  let resmax := match resmax with Some v => v | None => srcmax end in
  Ok (map (fun x => xadd srcmin (xdiv ((x - srcmin) * (resmax - resmin)) (srcmax - srcmin)))
          data).

End Rescale.

(** ** Iterated smoothing *)

Module Smoothing.

Import Float Math.

(** The level after the observations [obs] have been fed one by one to
    [exponential_smoothing], starting from the state [level] ([None] before
    the first observation). *)
Definition smooth_all (alpha : float) (level : option float) (obs : list float)
  : option float :=
  fold_left (fun level x => Some (exponential_smoothing x level alpha)) obs level.

(** A finite float32 number: rounding leaves it as it is. *)
Definition finite32 (x : float) : Prop :=
  exists q : Q, x = Fin q /\ round binary32 q = Fin q.

End Smoothing.

(** ** Notions the further statements about [isi] use *)

Module Intervals.

Import Float Math.

(** The intervals of a train in whole steps: the differences of its
    consecutive spike times. *)
Fixpoint gaps (times : list nat) : list Z :=
  match times with
  | a :: rest =>
      match rest with
      | b :: _ => (Z.of_nat b - Z.of_nat a)%Z :: gaps rest
      | [] => []
      end
  | [] => []
  end.

(** A whole number of steps as an entry of a float32 tensor. *)
Definition whole (d : Z) : float := Fin (inject_Z d).

(** A row of [n] entries: the gaps of a train as whole numbers, then [NaN]. *)
Definition exact_row (n : nat) (times : list nat) : list float :=
  map whole (gaps times) ++ repeat NaN (n - length (gaps times)).

(** The entry is a whole number of steps between 1 and [hi], or [NaN]. *)
Definition whole_interval (hi : Z) (e : float) : Prop :=
  e = NaN \/ exists d : Z, e = whole d /\ (0 < d <= hi)%Z.

Definition total (ds : list Z) : Z := fold_right Z.add 0%Z ds.

End Intervals.

(** ** Injected currents of [DeltaPlusCurrent] *)

Module Injection.

Import Float.

(** The float32 sum that starts from [start] and adds, one tensor after the
    other in the order of [ts], the entry of the unit [u]. *)
Definition column_sum (start : float) (u : nat) (ts : list (list float)) : float :=
  fold_left (fun acc t => fadd binary32 acc (nth u t (Fin 0))) ts start.

End Injection.

(** ** [inferno/neural/connections/linear.py]: [LateralLinear] *)

Module Lateral.

Import Synapses Connections.

Section Linear.

Context {S C : Type}.
Variable Connection_init :
  S -> list Z -> option (list Z) -> option (list Z) -> result C.

(** [LateralLinear.__init__], with the initializers at their default
    [None]; the mask buffer is a constant of the size. *)
Definition LateralLinear_init (shape : shape_arg) (step_time : Q)
    (synapse : SynapseConstructor S) (batch_size : Z) (bias : bool)
    (delay : option Q) : result (linear C) :=
  let shape := convert_shape shape in
  let size := prod shape in
  if Qle_bool step_time 0 then Raise ValueError
  else if match delay with Some d => Qle_bool d 0 | None => false end
  then Raise ValueError
  else
    let* syn :=
      synapse (PyInt size) (PyFloat step_time) (PyInt batch_size)
              (match delay with
               | Some d => if py_not delay then PyNone else PyFloat d
               | None => PyNone
               end) in
    let* conn :=
      Connection_init syn [size; size]
        (if negb bias then None else Some [size; 1%Z])
        (if py_not delay then None else Some [size; size]) in
    Ok {| connection := conn; extras := [("shape"%string, shape)] |}.

End Linear.

End Lateral.

(** * Properties *)

(** ** Floating point rounding *)

Section FloatFacts.

Import Float.

Lemma pow2_pos (e : Z) : 0 < pow2 e.
Proof. apply Qpower_0_lt. reflexivity. Qed.

Lemma pow2_plus (a b : Z) : pow2 (a + b) == pow2 a * pow2 b.
Proof. apply Qpower_plus. discriminate. Qed.

Lemma pow2_lt (a b : Z) : (a < b)%Z -> pow2 a < pow2 b.
Proof. intros H. apply Qpower_lt_compat_l; [exact H|reflexivity]. Qed.

Lemma pow2_le (a b : Z) : (a <= b)%Z -> pow2 a <= pow2 b.
Proof. intros H. apply Qpower_le_compat_l; [exact H|discriminate]. Qed.

Lemma pow2_lt_inv (a b : Z) : pow2 a < pow2 b -> (a < b)%Z.
Proof. intros H. apply (Qpower_lt_compat_l_inv 2); [exact H|reflexivity]. Qed.

Lemma pow2_Z (n : Z) : (0 <= n)%Z -> pow2 n == inject_Z (2 ^ n).
Proof. intros H. unfold pow2. now rewrite Zpower_Qpower. Qed.

Lemma pow2_minus (a b : Z) : pow2 (a - b) == pow2 a / pow2 b.
Proof. apply Qpower_minus. discriminate. Qed.


Lemma Qabs_num_den (q : Q) :
  Qabs q * inject_Z (Zpos (Qden q)) == inject_Z (Z.abs (Qnum q)).
Proof.
  destruct q as [n d]. unfold Qabs, Qeq, Qmult, inject_Z. cbn. lia.
Qed.

Lemma ilog2_spec (q : Q) :
  ~ q == 0 -> pow2 (ilog2 q) <= Qabs q /\ Qabs q < pow2 (ilog2 q + 1).
Proof.
  intros Hq.
  assert (HN : (0 < Z.abs (Qnum q))%Z).
  { destruct q as [n d]. unfold Qeq in Hq. cbn in *. lia. }
  pose proof (Qabs_num_den q) as Hx.
  pose proof (Qabs_nonneg q) as Hx0.
  pose proof (Z.log2_spec _ HN) as [Ha1 Ha2].
  pose proof (Z.log2_spec (Zpos (Qden q)) (Pos2Z.is_pos _)) as [Hb1 Hb2].
  pose proof (Z.log2_nonneg (Z.abs (Qnum q))) as Ha0.
  pose proof (Z.log2_nonneg (Zpos (Qden q))) as Hb0.
  unfold ilog2.
  set (a := Z.log2 (Z.abs (Qnum q))) in *.
  set (b := Z.log2 (Zpos (Qden q))) in *.
  rewrite Zle_Qle, <- pow2_Z in Ha1, Hb1 by assumption.
  rewrite Zlt_Qlt, <- pow2_Z in Ha2, Hb2 by lia.
  unfold Z.succ in Ha2, Hb2.
  set (x := Qabs q) in *.
  set (Nq := inject_Z (Z.abs (Qnum q))) in *.
  set (Dq := inject_Z (Zpos (Qden q))) in *.
  assert (Hab : pow2 (a - b) * pow2 b == pow2 a).
  { rewrite <- pow2_plus. now replace (a - b + b)%Z with a by lia. }
  assert (Hab1 : pow2 (a - b + 1) * pow2 b == pow2 (a + 1)).
  { rewrite <- pow2_plus. now replace (a - b + 1 + b)%Z with (a + 1)%Z by lia. }
  assert (Hab2 : pow2 (a - b - 1) * pow2 (b + 1) == pow2 a).
  { rewrite <- pow2_plus. now replace (a - b - 1 + (b + 1))%Z with a by lia. }
  pose proof (pow2_pos b) as Pb. pose proof (pow2_pos (b + 1)) as Pb1.
  pose proof (pow2_pos (a - b + 1)) as Pab1. pose proof (pow2_pos (a - b - 1)) as Pabm.
  destruct (Qle_bool (pow2 (a - b)) x) eqn:Htest.
  - apply Qle_bool_iff in Htest. split; [exact Htest|].
    apply Qnot_le_lt. intros Hc.
    assert (pow2 (a - b + 1) * pow2 b <= x * Dq).
    { apply Qle_trans with (pow2 (a - b + 1) * Dq).
      - apply Qmult_le_l; assumption.
      - apply Qmult_le_compat_r; [assumption|]. lra. }
    lra.
  - assert (Hlt : x < pow2 (a - b)).
    { apply Qnot_le_lt. intros Hc. apply Qle_bool_iff in Hc. congruence. }
    replace (a - b - 1 + 1)%Z with (a - b)%Z by lia.
    split; [|exact Hlt].
    apply Qnot_lt_le. intros Hc.
    assert (x * Dq < pow2 (a - b - 1) * pow2 (b + 1)).
    { apply Qle_lt_trans with (x * pow2 (b + 1)).
      - rewrite (Qmult_comm x Dq), (Qmult_comm x (pow2 (b + 1))).
        apply Qmult_le_compat_r; [lra|assumption].
      - apply Qmult_lt_compat_r; assumption. }
    lra.
Qed.

Lemma rne_comp (x y : Q) : x == y -> rne x = rne y.
Proof.
  intros H. unfold rne. rewrite (Qfloor_comp _ _ H).
  assert (Hc : Qcompare (x - inject_Z (Qfloor y)) (1 # 2)
               = Qcompare (y - inject_Z (Qfloor y)) (1 # 2)).
  { apply Qcompare_comp; [now rewrite H|reflexivity]. }
  now rewrite Hc.
Qed.

Lemma rne_Z (k : Z) : rne (inject_Z k) = k.
Proof.
  unfold rne. rewrite Qfloor_Z.
  assert (Hc : Qcompare (inject_Z k - inject_Z k) (1 # 2) = Lt).
  { rewrite <- Qlt_alt. lra. }
  now rewrite Hc.
Qed.

Lemma rne_bound (x : Q) (N : Z) :
  - inject_Z N <= x <= inject_Z N -> (- N <= rne x <= N)%Z.
Proof.
  intros [Hlo Hhi].
  pose proof (Qfloor_le x) as Hf1.
  pose proof (Qlt_floor x) as Hf2.
  assert (HfN : (Qfloor x <= N)%Z).
  { rewrite Zle_Qle. lra. }
  assert (HfmN : (- N <= Qfloor x)%Z).
  { rewrite <- (Qfloor_Z (- N)). apply Qfloor_resp_le.
    rewrite inject_Z_opp. exact Hlo. }
  assert (Hup : 0 < x - inject_Z (Qfloor x) -> (Qfloor x + 1 <= N)%Z).
  { intros Hr. assert (Hlt : (Qfloor x < N)%Z) by (rewrite Zlt_Qlt; lra). lia. }
  unfold rne.
  destruct (Qcompare (x - inject_Z (Qfloor x)) (1 # 2)) eqn:Hc.
  - apply Qeq_alt in Hc. destruct (Z.even (Qfloor x)); [lia|].
    assert (0 < x - inject_Z (Qfloor x)) by lra. specialize (Hup H). lia.
  - lia.
  - apply Qgt_alt in Hc.
    assert (0 < x - inject_Z (Qfloor x)) by lra. specialize (Hup H). lia.
Qed.

Lemma round_comp (f : format) (q q' : Q) : q == q' -> round f q = round f q'.
Proof. intros H. unfold round. now rewrite (Qred_complete _ _ H). Qed.

Lemma round_zero (f : format) (q : Q) : q == 0 -> round f q = Fin 0.
Proof. intros H. rewrite (round_comp f q 0 H). reflexivity. Qed.


Lemma Qabs_inject_Z (m : Z) : Qabs (inject_Z m) == inject_Z (Z.abs m).
Proof. unfold inject_Z. symmetry. apply Zabs_Qabs. Qed.

Lemma Qle_bool_false (a b : Q) : b < a -> Qle_bool a b = false.
Proof.
  intros H. destruct (Qle_bool a b) eqn:E; [|reflexivity].
  apply Qle_bool_iff in E. lra.
Qed.

Lemma round_representable (f : format) (q : Q) :
  representable f q -> round f q = Fin (Qred q).
Proof.
  intros [m [e [Hq [Hm [He Hmax]]]]].
  unfold round.
  pose proof (Qred_correct q) as Hred.
  destruct (Qeq_bool (Qred q) 0) eqn:Hz.
  { apply Qeq_bool_iff in Hz. f_equal.
    change 0 with (Qred 0). apply Qred_complete. now rewrite <- Hred. }
  assert (Hne : ~ Qred q == 0).
  { intros Hc. apply Qeq_bool_iff in Hc. congruence. }
  destruct (ilog2_spec (Qred q) Hne) as [Hlo _].
  set (L := ilog2 (Qred q)) in *.
  assert (Habs : Qabs (Qred q) == inject_Z (Z.abs m) * pow2 e).
  { rewrite Hred, Hq, Qabs_Qmult, Qabs_inject_Z.
    rewrite (Qabs_pos (pow2 e)); [reflexivity|]. apply Qlt_le_weak, pow2_pos. }
  assert (Hp0 : (0 <= prec f)%Z).
  { destruct (Z.le_gt_cases 0 (prec f)) as [H|H]; [exact H|].
    rewrite Z.pow_neg_r in Hm by exact H. lia. }
  assert (HL : (L < prec f + e)%Z).
  { apply pow2_lt_inv. apply Qle_lt_trans with (Qabs (Qred q)); [exact Hlo|].
    rewrite Habs, pow2_plus, (pow2_Z (prec f) Hp0).
    apply Qmult_lt_compat_r; [apply pow2_pos|]. now rewrite <- Zlt_Qlt. }
  set (E := Z.max (L - prec f + 1) (emin f)).
  assert (HE : (E <= e)%Z) by (unfold E; lia).
  assert (Hscaled : Qred q / pow2 E == inject_Z (m * 2 ^ (e - E))).
  { assert (Hd : (0 <= e - E)%Z) by lia.
    rewrite Hred, Hq, inject_Z_mult, <- (pow2_Z _ Hd).
    rewrite pow2_minus. field. pose proof (pow2_pos E). lra. }
  rewrite (rne_comp _ _ Hscaled), rne_Z.
  assert (Hback : inject_Z (m * 2 ^ (e - E)) * pow2 E == q).
  { assert (Hd : (0 <= e - E)%Z) by lia.
    rewrite Hq, inject_Z_mult, <- (pow2_Z _ Hd).
    rewrite pow2_minus. field. pose proof (pow2_pos E). lra. }
  rewrite (Qred_complete _ _ Hback).
  rewrite Qle_bool_false; [reflexivity|].
  now rewrite Hred.
Qed.

Lemma round_idempotent (f : format) (q r : Q) :
  (0 < prec f)%Z -> round f q = Fin r -> round f r = Fin r.
Proof.
  intros Hp. unfold round at 1.
  destruct (Qeq_bool (Qred q) 0) eqn:Hz.
  { intros [= <-]. reflexivity. }
  assert (Hne : ~ Qred q == 0).
  { intros Hc. apply Qeq_bool_iff in Hc. congruence. }
  destruct (ilog2_spec (Qred q) Hne) as [_ Hhi].
  set (L := ilog2 (Qred q)) in *.
  set (E := Z.max (L - prec f + 1) (emin f)).
  set (M := rne (Qred q / pow2 E)).
  destruct (Qle_bool (pow2 (emax f)) (Qabs (Qred (inject_Z M * pow2 E)))) eqn:Hov;
    [discriminate|].
  intros [= <-].
  assert (Hfin : Qabs (Qred (inject_Z M * pow2 E)) < pow2 (emax f)).
  { apply Qnot_le_lt. intros Hc. apply Qle_bool_iff in Hc. congruence. }
  pose proof (pow2_pos E) as PE.
  assert (Hbound : - inject_Z (2 ^ prec f) <= Qred q / pow2 E <= inject_Z (2 ^ prec f)).
  { assert (Hp0 : (0 <= prec f)%Z) by lia.
    rewrite <- (pow2_Z _ Hp0).
    assert (Hq : Qabs (Qred q) < pow2 (prec f) * pow2 E).
    { apply Qlt_le_trans with (pow2 (L + 1)); [exact Hhi|].
      rewrite <- pow2_plus. apply pow2_le. unfold E. lia. }
    assert (Hd : Qabs (Qred q / pow2 E) < pow2 (prec f)).
    { unfold Qdiv. rewrite Qabs_Qmult, Qabs_Qinv, (Qabs_pos (pow2 E)) by lra.
      apply Qlt_shift_div_r; assumption. }
    revert Hd. apply Qabs_case; intros; lra. }
  apply rne_bound in Hbound. fold M in Hbound.
  assert (Hrep : representable f (Qred (inject_Z M * pow2 E))).
  { destruct (Z.eq_dec (Z.abs M) (2 ^ prec f)%Z) as [Heq|Hneq].
    - assert (Hpow : (2 ^ prec f = 2 * 2 ^ (prec f - 1))%Z).
      { rewrite <- Z.pow_succ_r by lia. f_equal. lia. }
      assert (Hpos : (0 < 2 ^ (prec f - 1))%Z) by (apply Z.pow_pos_nonneg; lia).
      assert (Hk : exists k : Z, M = (2 * k)%Z /\ (Z.abs k < 2 ^ prec f)%Z).
      { destruct (Z.abs_spec M) as [[_ Ha]|[_ Ha]]; rewrite Ha in Heq.
        - exists (2 ^ (prec f - 1))%Z. lia.
        - exists (- 2 ^ (prec f - 1))%Z. lia. }
      destruct Hk as [k [HMk Hk]].
      exists k, (E + 1)%Z. split; [|split; [|split]].
      + rewrite Qred_correct, HMk, inject_Z_mult, pow2_plus.
        change (pow2 1) with 2. change (inject_Z 2) with 2. ring.
      + exact Hk.
      + unfold E. lia.
      + exact Hfin.
    - exists M, E. split; [|split; [|split]].
      + apply Qred_correct.
      + lia.
      + unfold E. lia.
      + exact Hfin. }
  rewrite (round_representable f _ Hrep). f_equal. apply Qred_complete, Qred_correct.
Qed.

Lemma Qred_inject_Z (n : Z) : Qred (inject_Z n) = inject_Z n.
Proof.
  unfold inject_Z, Qred.
  pose proof (Z.ggcd_gcd n 1) as Hg.
  pose proof (Z.ggcd_correct_divisors n 1) as Hd.
  destruct (Z.ggcd n 1) as [g [a b]]. cbn [fst snd] in *.
  rewrite Z.gcd_1_r in Hg. subst g. destruct Hd as [Ha Hb].
  assert (a = n) by lia. assert (b = 1%Z) by lia. subst a b. reflexivity.
Qed.

Lemma round_Z32 (n : Z) :
  (Z.abs n < 2 ^ 24)%Z -> round binary32 (inject_Z n) = Fin (inject_Z n).
Proof.
  intros Hn. rewrite round_representable; [now rewrite Qred_inject_Z|].
  exists n, 0%Z. split; [|split; [|split]].
  - change (pow2 0) with 1. ring.
  - exact Hn.
  - vm_compute. discriminate.
  - rewrite Qabs_inject_Z. apply Qlt_trans with (inject_Z (2 ^ 24)).
    + now rewrite <- Zlt_Qlt.
    + vm_compute. reflexivity.
Qed.

Lemma Qle_bool_true (a b : Q) : a <= b -> Qle_bool a b = true.
Proof. intros H. now apply Qle_bool_iff. Qed.

Lemma Qeq_bool_false (a b : Q) : ~ a == b -> Qeq_bool a b = false.
Proof.
  intros H. destruct (Qeq_bool a b) eqn:E; [|reflexivity].
  apply Qeq_bool_iff in E. contradiction.
Qed.

Lemma rne_error (x : Q) :
  x - (1 # 2) <= inject_Z (rne x) <= x + (1 # 2).
Proof.
  pose proof (Qfloor_le x) as Hf1.
  pose proof (Qlt_floor x) as Hf2.
  rewrite inject_Z_plus in Hf2. change (inject_Z 1) with 1 in Hf2.
  unfold rne.
  destruct (Qcompare (x - inject_Z (Qfloor x)) (1 # 2)) eqn:Hc.
  - apply Qeq_alt in Hc.
    destruct (Z.even (Qfloor x)); [|rewrite inject_Z_plus; change (inject_Z 1) with 1];
      split; lra.
  - apply Qlt_alt in Hc. split; lra.
  - apply Qgt_alt in Hc. rewrite inject_Z_plus. change (inject_Z 1) with 1. split; lra.
Qed.

(** Rounding a positive number of the normal range changes it by at most
    the fraction [2 ^ (- prec)] of itself. *)
Lemma round_error (f : format) (q : Q) :
  (0 < prec f)%Z ->
  pow2 (emin f + prec f - 1) <= q ->
  q <= pow2 (emax f - 1) ->
  exists r : Q,
    round f q = Fin r
    /\ q - pow2 (- prec f) * q <= r <= q + pow2 (- prec f) * q.
Proof.
  intros Hp Hlo Hhi.
  pose proof (pow2_pos (emin f + prec f - 1)) as Hpos.
  assert (Hq : 0 < q) by lra.
  unfold round.
  pose proof (Qred_correct q) as Hred.
  assert (Hne : ~ Qred q == 0) by (rewrite Hred; lra).
  rewrite (Qeq_bool_false _ _ Hne).
  destruct (ilog2_spec (Qred q) Hne) as [HL1 HL2].
  set (L := ilog2 (Qred q)) in *.
  rewrite (Qabs_pos (Qred q)) in HL1, HL2 by (rewrite Hred; lra).
  rewrite Hred in HL1, HL2.
  assert (HL : (emin f + prec f - 1 <= L)%Z).
  { assert (H : (emin f + prec f - 1 < L + 1)%Z).
    { apply pow2_lt_inv. lra. }
    lia. }
  replace (Z.max (L - prec f + 1) (emin f)) with (L - prec f + 1)%Z by lia.
  set (E := (L - prec f + 1)%Z).
  pose proof (pow2_pos E) as PE.
  pose proof (rne_error (Qred q / pow2 E)) as [Hm1 Hm2].
  set (M := rne (Qred q / pow2 E)) in *.
  assert (Hscale : Qred q / pow2 E * pow2 E == q).
  { rewrite Hred. field. lra. }
  assert (Hhalf : (1 # 2) * pow2 E <= pow2 (- prec f) * q).
  { assert (HE : pow2 E == 2 * (pow2 (- prec f) * pow2 L)).
    { rewrite <- pow2_plus. change 2 with (pow2 1). rewrite <- pow2_plus.
      unfold E. now replace (1 + (- prec f + L))%Z with (L - prec f + 1)%Z by lia. }
    rewrite HE.
    assert (Hu : 0 < pow2 (- prec f)) by apply pow2_pos.
    assert (pow2 (- prec f) * pow2 L <= pow2 (- prec f) * q).
    { apply Qmult_le_l; assumption. }
    lra. }
  assert (Hr1 : q - pow2 (- prec f) * q <= inject_Z M * pow2 E).
  { assert (H : (Qred q / pow2 E - (1 # 2)) * pow2 E <= inject_Z M * pow2 E).
    { apply Qmult_le_compat_r; lra. }
    lra. }
  assert (Hr2 : inject_Z M * pow2 E <= q + pow2 (- prec f) * q).
  { assert (H : inject_Z M * pow2 E <= (Qred q / pow2 E + (1 # 2)) * pow2 E).
    { apply Qmult_le_compat_r; lra. }
    lra. }
  assert (Hu1 : pow2 (- prec f) < 1).
  { change 1 with (pow2 0). apply pow2_lt. lia. }
  assert (Hu0 : 0 < pow2 (- prec f)) by apply pow2_pos.
  assert (Hup : pow2 (- prec f) * q < q).
  { rewrite <- (Qmult_1_l q) at 2. apply Qmult_lt_compat_r; assumption. }
  rewrite Qle_bool_false.
  - exists (Qred (inject_Z M * pow2 E)). split; [reflexivity|].
    rewrite Qred_correct. split; assumption.
  - rewrite Qred_correct, Qabs_pos by lra.
    assert (Hmax : pow2 (emax f) == 2 * pow2 (emax f - 1)).
    { change 2 with (pow2 1). rewrite <- pow2_plus.
      now replace (1 + (emax f - 1))%Z with (emax f) by lia. }
    rewrite Hmax. lra.
Qed.

(** The rounding at work: the float32 and the Python float nearest to 0.1,
    a tie that goes to the even neighbour, the first integers float32 does
    not hold, the overflow to an infinity and the smallest subnormal
    number. *)
Example round_tenth :
  round binary32 (1 # 10) = Fin (13421773 # 134217728)
  /\ round binary64 (1 # 10) = Fin (3602879701896397 # 36028797018963968).
Proof. split; vm_compute; reflexivity. Qed.

Example round_integers :
  of_Z binary32 16777216 = Fin 16777216
  /\ of_Z binary32 16777217 = Fin 16777216
  /\ of_Z binary32 16777219 = Fin 16777220
  /\ fsub binary32 (of_Z binary32 16777217) (of_Z binary32 16777216) = Fin 0.
Proof. repeat split; vm_compute; reflexivity. Qed.

Example round_limits :
  round binary32 (inject_Z (2 ^ 128 - 2 ^ 103 - 1)) = Fin (inject_Z (2 ^ 128 - 2 ^ 104))
  /\ round binary32 (inject_Z (2 ^ 128 - 2 ^ 103)) = Inf false
  /\ round binary32 (- inject_Z (10 ^ 39)) = Inf true
  /\ round binary32 (1 # 10 ^ 45) = Fin (pow2 (-149))
  /\ round binary32 (1 # 10 ^ 46) = Fin 0.
Proof. repeat split; vm_compute; reflexivity. Qed.

End FloatFacts.

(** ** Smoothing *)

Section SmoothingFacts.

Import Float Math.

Lemma holt_first_observation (obs : float) (trend : option float) (alpha beta : float) :
  holt_linear_smoothing obs None trend alpha beta = Ok (obs, None).
Proof. reflexivity. Qed.

Lemma call_exponential_smoothing_three_positional
    (a b c : option float) (kw : list (string * float)) :
  call_exponential_smoothing [a; b; c] kw = Raise TypeError.
Proof. destruct a; reflexivity. Qed.

(** With the factor bound by keyword the call computes the update of the
    docstring. *)
Lemma call_exponential_smoothing_keyword (obs level alpha : float) :
  call_exponential_smoothing [Some obs; Some level] [("alpha"%string, alpha)]
  = Ok (fadd binary32 (fmul binary32 (cast binary32 alpha) obs)
          (fmul binary32 (cast binary32 (fsub binary64 (Fin 1) alpha)) level)).
Proof. reflexivity. Qed.

(** Had the two inner calls bound the factor by keyword, they would have
    computed the Holt update. *)
Lemma holt_update_by_keyword (obs l t alpha beta : float) :
  (let* s :=
     call_exponential_smoothing [Some obs; Some (fadd binary32 l t)]
       [("alpha"%string, alpha)] in
   let* b :=
     call_exponential_smoothing [Some (fsub binary32 s l); Some t]
       [("alpha"%string, beta)] in
   Ok (s, b))
  = Ok (holt_textbook obs l t alpha beta).
Proof. reflexivity. Qed.

(** C2 (what the code does where the claim promises the Holt update): as
    soon as a level is given, with or without a trend,
    [holt_linear_smoothing] raises [TypeError], because it passes the
    smoothing factor of [exponential_smoothing] as a third positional
    argument although [alpha] is keyword-only. *)
Theorem holt_linear_smoothing_level_raises
    (obs l : float) (trend : option float) (alpha beta : float) :
  holt_linear_smoothing obs (Some l) trend alpha beta = Raise TypeError.
Proof.
  unfold holt_linear_smoothing.
  now rewrite call_exponential_smoothing_three_positional.
Qed.

End SmoothingFacts.

(** ** Inter-spike intervals *)

Section IsiFacts.

Import Float Math Intervals.

Lemma nonzero_from_S (i : nat) (row : list bool) :
  nonzero_from (S i) row = map S (nonzero_from i row).
Proof.
  revert i. induction row as [|b r IH]; intros i; simpl; [reflexivity|].
  destruct b; simpl; now rewrite IH.
Qed.

Lemma nonzero_last_pad_true (ts : list (list bool)) :
  nonzero_last (pad_true ts) = concat (map block ts).
Proof.
  unfold nonzero_last, pad_true, block, spike_times.
  rewrite map_map. f_equal. apply map_ext. intros t. simpl.
  now rewrite nonzero_from_S.
Qed.

Lemma nonzero_from_positive (i : nat) (l rest : list nat) :
  nonzero_from i (map (Nat.eqb 0) (map S l ++ rest))
  = nonzero_from (i + length l) (map (Nat.eqb 0) rest).
Proof.
  revert i. induction l as [|x l IH]; intros i; simpl.
  - now rewrite Nat.add_0_r.
  - rewrite IH. f_equal. lia.
Qed.

Lemma zero_positions_blocks (off : nat) (ts : list (list bool)) :
  nonzero_from off (map (Nat.eqb 0) (concat (map block ts)))
  = starts off (map (@length nat) (map block ts)).
Proof.
  revert off. induction ts as [|t ts IH]; intros off; [reflexivity|].
  cbn [map concat starts]. unfold block at 1. cbn [app map Nat.eqb nonzero_from].
  rewrite nonzero_from_positive, IH. do 2 f_equal.
  unfold block. cbn [length]. rewrite length_map. lia.
Qed.

Lemma tensor_split_from_blocks {A : Type} (pre b : list A) (bs : list (list A)) :
  tensor_split_from (length pre) (pre ++ b ++ concat bs)
    (starts (length pre + length b) (map (@length A) bs))
  = b :: bs.
Proof.
  revert pre b. induction bs as [|b' bs IH]; intros pre b.
  - cbn [map starts tensor_split_from concat].
    rewrite app_nil_r, skipn_app, Nat.sub_diag, skipn_all, skipn_O. reflexivity.
  - cbn [map starts tensor_split_from concat].
    f_equal.
    + rewrite skipn_app, Nat.sub_diag, skipn_all. cbn [app skipn].
      replace (length pre + length b - length pre)%nat with (length b) by lia.
      rewrite skipn_O, firstn_app, Nat.sub_diag, firstn_all. cbn [firstn]. now rewrite app_nil_r.
    + specialize (IH (pre ++ b) b').
      rewrite length_app in IH. rewrite <- app_assoc in IH. exact IH.
Qed.

Lemma tensor_split_blocks {A : Type} (f : nat -> A) (t : list bool) (ts : list (list bool)) :
  tensor_split (map f (concat (map block (t :: ts))))
    (tl (zero_positions (concat (map block (t :: ts)))))
  = map (map f) (map block (t :: ts)).
Proof.
  unfold tensor_split, zero_positions. rewrite zero_positions_blocks.
  cbn [map starts tl concat].
  rewrite map_app, concat_map.
  pose proof (tensor_split_from_blocks [] (map f (block t)) (map (map f) (map block ts))) as H.
  cbn [length app Nat.add] in H.
  rewrite length_map in H.
  replace (map (@length A) (map (map f) (map block ts)))
    with (map (@length nat) (map block ts)) in H.
  - exact H.
  - rewrite !map_map. apply map_ext. intros. now rewrite length_map.
Qed.

Lemma scaled_block (st : float) (t : list bool) :
  map (scaled st) (block t) = scaled st 0 :: map (time_of st) (spike_times t).
Proof.
  unfold block. cbn [map]. f_equal. rewrite map_map. apply map_ext.
  intros x. unfold scaled, time_of. do 2 f_equal. lia.
Qed.

Lemma max_len_le {A : Type} (seqs : list (list A)) (s : list A) :
  In s seqs -> (length s <= max_len seqs)%nat.
Proof.
  unfold max_len. induction seqs as [|x seqs IH]; intros Hin; [destruct Hin|].
  cbn [map fold_right]. destruct Hin as [->|Hin]; [lia|]. specialize (IH Hin). lia.
Qed.

Lemma max_len_scaled_blocks {A : Type} (f : nat -> A) (ts : list (list bool)) :
  ts <> [] ->
  max_len (map (map f) (map block ts)) = S (max_spikes ts).
Proof.
  unfold max_spikes, max_len.
  induction ts as [|x ts IH]; intros Hne; [congruence|].
  cbn [map fold_right]. rewrite length_map. unfold block at 1. cbn [length].
  rewrite length_map. destruct ts as [|y ts].
  - cbn [map fold_right]. lia.
  - rewrite IH by congruence. lia.
Qed.

Lemma padded_rows (st : float) (ts : list (list bool)) :
  ts <> [] ->
  map (skipn 1) (pad_sequence (map (map (scaled st)) (map block ts)) NaN)
  = map (padded_times st (max_spikes ts)) ts.
Proof.
  intros Hne. unfold pad_sequence.
  rewrite max_len_scaled_blocks by assumption.
  rewrite !map_map. apply map_ext. intros t.
  rewrite scaled_block. cbn [length app skipn]. rewrite length_map.
  reflexivity.
Qed.

Lemma length_diff (row : list float) : length (diff row) = (length row - 1)%nat.
Proof.
  induction row as [|a r IH]; [reflexivity|].
  destruct r as [|b r]; [reflexivity|].
  cbn [diff length] in *. rewrite IH. lia.
Qed.

Lemma length_padded_times (st : float) (ts : list (list bool)) (t : list bool) :
  In t ts -> length (padded_times st (max_spikes ts) t) = max_spikes ts.
Proof.
  intros Hin. unfold padded_times. rewrite length_app, length_map, repeat_length.
  assert (length (spike_times t) <= max_spikes ts)%nat.
  { unfold max_spikes. apply max_len_le. now apply in_map. }
  lia.
Qed.

Lemma chunk_concat {A : Type} (len : nat) (rs : list (list A)) :
  Forall (fun r => length r = len) rs ->
  chunk (length rs) len (concat rs) = rs.
Proof.
  induction 1 as [|r rs Hr _ IH]; [reflexivity|].
  cbn [length chunk concat].
  rewrite firstn_app, skipn_app, <- Hr, Nat.sub_diag, firstn_all, skipn_all.
  cbn [firstn app]. rewrite app_nil_r, skipn_O. f_equal.
  rewrite Hr. exact IH.
Qed.

Lemma length_concat_uniform {A : Type} (len : nat) (rs : list (list A)) :
  Forall (fun r => length r = len) rs ->
  length (concat rs) = (len * length rs)%nat.
Proof.
  induction 1 as [|r rs Hr _ IH]; cbn [concat length]; [lia|].
  rewrite length_app, IH, Hr. lia.
Qed.

Lemma view_infer_rows {A : Type} (len : nat) (rs : list (list A)) (shape : list nat) :
  rs <> [] ->
  length rs = numel shape ->
  Forall (fun r => length r = len) rs ->
  view_infer (concat rs) shape = Ok (len, rs).
Proof.
  intros Hne Hn Hlen. unfold view_infer.
  rewrite <- Hn, (length_concat_uniform len) by assumption.
  assert (Hpos : length rs <> 0%nat) by (destruct rs; [congruence|discriminate]).
  destruct (Nat.eqb_spec (length rs) 0); [contradiction|].
  rewrite Nat.Div0.mod_mul, Nat.div_mul by assumption. cbn [Nat.eqb].
  now rewrite chunk_concat.
Qed.

(** The result of [isi] on a tensor that holds at least one train. *)
Lemma isi_rows (ld : list nat) (ts : list (list bool)) (step_time : option float) :
  ts <> [] ->
  length ts = numel ld ->
  isi {| lead := ld; trains := ts |} step_time
  = Ok {| out_lead := ld;
          out_last := max_spikes ts - 1;
          rows := map (fun t => diff (padded_times (step_of step_time) (max_spikes ts) t)) ts |}.
Proof.
  intros Hne Hn. unfold isi. cbn [trains lead].
  rewrite nonzero_last_pad_true.
  destruct ts as [|t ts]; [congruence|].
  rewrite tensor_split_blocks.
  fold (step_of step_time).
  rewrite padded_rows by assumption.
  rewrite map_map.
  rewrite (view_infer_rows (max_spikes (t :: ts) - 1)).
  - reflexivity.
  - discriminate.
  - now rewrite length_map.
  - apply List.Forall_forall. intros r Hr. apply in_map_iff in Hr as [x [<- Hx]].
    rewrite length_diff, length_padded_times by assumption. reflexivity.
Qed.

Lemma nonzero_from_app (i : nat) (l1 l2 : list bool) :
  nonzero_from i (l1 ++ l2) = nonzero_from i l1 ++ nonzero_from (i + length l1) l2.
Proof.
  revert i. induction l1 as [|b l1 IH]; intros i; cbn [app nonzero_from length].
  - now rewrite Nat.add_0_r.
  - rewrite IH. replace (S i + length l1)%nat with (i + S (length l1))%nat by lia.
    now destruct b.
Qed.

Lemma nonzero_from_none (i : nat) (l : list bool) :
  Forall (fun b => b = false) l -> nonzero_from i l = [].
Proof.
  intros H. revert i. induction H as [|b l -> _ IH]; intros i; [reflexivity|].
  cbn [nonzero_from]. apply IH.
Qed.

(** [spike_times] lists exactly the steps at which the train is true. *)
Lemma In_nonzero_from (i k : nat) (l : list bool) :
  In k (nonzero_from i l) <-> (i <= k)%nat /\ nth_error l (k - i) = Some true.
Proof.
  revert i. induction l as [|b l IH]; intros i; cbn [nonzero_from].
  - split; [intros []|]. intros [_ H]. destruct (k - i)%nat; discriminate.
  - assert (Hrec : In k (nonzero_from (S i) l)
                   <-> (i < k)%nat /\ nth_error l (k - S i) = Some true).
    { rewrite IH. reflexivity. }
    destruct (Nat.eq_dec k i) as [->|Hne].
    + rewrite Nat.sub_diag. cbn [nth_error].
      destruct b; cbn [In]; rewrite ?Hrec; split; intros H.
      * split; [lia|reflexivity].
      * now left.
      * destruct H; lia.
      * destruct H; discriminate.
    + assert (Hk : (i < k)%nat -> (k - i = S (k - S i))%nat) by lia.
      destruct b; cbn [In]; rewrite ?Hrec; split; intros H.
      * destruct H as [H|[H1 H2]]; [congruence|].
        split; [lia|]. rewrite Hk by assumption. exact H2.
      * right. destruct H as [H1 H2]. assert (i < k)%nat by lia.
        split; [assumption|]. rewrite Hk in H2 by assumption. exact H2.
      * destruct H as [H1 H2]. split; [lia|]. rewrite Hk by assumption. exact H2.
      * destruct H as [H1 H2]. assert (i < k)%nat by lia.
        split; [assumption|]. rewrite Hk in H2 by assumption. exact H2.
Qed.

Lemma spike_times_spec (train : list bool) (k : nat) :
  In k (spike_times train) <-> nth_error train k = Some true.
Proof.
  unfold spike_times. rewrite In_nonzero_from, Nat.sub_0_r.
  split; [tauto|]. intros H. split; [lia|exact H].
Qed.

Lemma spike_times_2_5_9 (T : nat) :
  (10 <= T)%nat -> spike_times (train_of T [2; 5; 9]%nat) = [2; 5; 9]%nat.
Proof.
  intros HT. unfold spike_times, train_of.
  replace T with (10 + (T - 10))%nat by lia.
  rewrite seq_app, map_app, nonzero_from_app.
  rewrite (nonzero_from_none _ (map _ (seq (0 + 10) (T - 10)))); [reflexivity|].
  apply List.Forall_forall. intros b Hb.
  apply in_map_iff in Hb as [i [<- Hi]]. apply in_seq in Hi.
  cbn [existsb].
  destruct (Nat.eqb_spec i 2); [lia|].
  destruct (Nat.eqb_spec i 5); [lia|].
  destruct (Nat.eqb_spec i 9); [lia|]. reflexivity.
Qed.

Lemma max_spikes_single (t : list bool) : max_spikes [t] = length (spike_times t).
Proof. unfold max_spikes, max_len. cbn [map fold_right]. lia. Qed.

Lemma diff_lookup (row : list float) (j : nat) :
  nth_error (diff row) j
  = match nth_error row j, nth_error row (S j) with
    | Some a, Some b => Some (fsub binary32 b a)
    | _, _ => None
    end.
Proof.
  revert j. induction row as [|a r IH]; intros j.
  - destruct j; reflexivity.
  - destruct r as [|b r].
    + destruct j as [|[|j]]; reflexivity.
    + destruct j as [|j].
      * reflexivity.
      * change (diff (a :: b :: r)) with (fsub binary32 b a :: diff (b :: r)).
        cbn [nth_error]. rewrite IH. reflexivity.
Qed.

Lemma padded_times_numeric (st : float) (C : nat) (t : list bool) (j tj : nat) :
  nth_error (spike_times t) j = Some tj ->
  nth_error (padded_times st C t) j = Some (time_of st tj).
Proof.
  intros H. unfold padded_times.
  rewrite nth_error_app1.
  - now rewrite nth_error_map, H.
  - rewrite length_map. apply nth_error_Some. congruence.
Qed.

Lemma padded_times_nan (st : float) (C : nat) (t : list bool) (j : nat) :
  (length (spike_times t) <= j)%nat -> (j < C)%nat ->
  nth_error (padded_times st C t) j = Some NaN.
Proof.
  intros H1 H2. unfold padded_times.
  rewrite nth_error_app2 by (rewrite length_map; exact H1).
  rewrite length_map. apply nth_error_repeat. lia.
Qed.

(** Where no train holds two spikes [isi] returns, for a tensor with at least
    one train, a tensor whose last dimension is empty. *)
Lemma isi_no_intervals (ld : list nat) (ts : list (list bool)) (step_time : option float) :
  ts <> [] ->
  length ts = numel ld ->
  Forall (fun t => (length (spike_times t) <= 1)%nat) ts ->
  isi {| lead := ld; trains := ts |} step_time
  = Ok {| out_lead := ld; out_last := 0; rows := map (fun _ => []) ts |}.
Proof.
  intros Hne Hn Hfew. rewrite isi_rows by assumption.
  assert (HC : (max_spikes ts <= 1)%nat).
  { unfold max_spikes, max_len. clear Hne Hn.
    induction Hfew as [|t ts Ht _ IH]; cbn [map fold_right]; lia. }
  replace (max_spikes ts - 1)%nat with 0%nat by lia.
  do 2 f_equal. apply map_ext_in. intros t Ht.
  pose proof (length_diff (padded_times (step_of step_time) (max_spikes ts) t)) as Hl.
  rewrite length_padded_times in Hl by assumption.
  destruct (diff _); [reflexivity|]. cbn [length] in Hl. lia.
Qed.

Lemma isi_2_5_9 (T : nat) (step_time : option float) :
  (10 <= T)%nat ->
  isi {| lead := []; trains := [train_of T [2; 5; 9]%nat] |} step_time
  = Ok {| out_lead := [];
          out_last := 2;
          rows := [[interval (step_of step_time) 2 5; interval (step_of step_time) 5 9]] |}.
Proof.
  intros HT. rewrite isi_rows by (discriminate || reflexivity).
  rewrite max_spikes_single. cbn [map]. unfold padded_times.
  rewrite spike_times_2_5_9 by assumption. reflexivity.
Qed.

Lemma representable_comp (f : format) (q q' : Q) :
  q == q' -> representable f q -> representable f q'.
Proof.
  intros H [m [e [Hq [Hm [He Hmax]]]]]. exists m, e.
  split; [now rewrite <- H|]. split; [exact Hm|]. split; [exact He|].
  now rewrite <- H.
Qed.

Lemma representable_Z32 (n : Z) :
  (Z.abs n < 2 ^ 24)%Z -> representable binary32 (inject_Z n).
Proof.
  intros Hn. exists n, 0%Z. split; [|split; [|split]].
  - change (pow2 0) with 1. ring.
  - exact Hn.
  - vm_compute. discriminate.
  - rewrite Qabs_inject_Z. apply Qlt_trans with (inject_Z (2 ^ 24)).
    + now rewrite <- Zlt_Qlt.
    + vm_compute. reflexivity.
Qed.

(** The time of a spike is exact when the step number, the step time and
    their product are float32 numbers. *)
Lemma time_of_exact (s : Q) (t : nat) :
  (Z.of_nat t < 2 ^ 24)%Z ->
  representable binary32 s ->
  representable binary32 (inject_Z (Z.of_nat t) * s) ->
  time_of (Fin s) t = Fin (Qred (inject_Z (Z.of_nat t) * s)).
Proof.
  intros Ht Hs Hts. unfold time_of, of_Z, cast.
  rewrite round_Z32 by lia. rewrite (round_representable _ _ Hs).
  cbn [fmul].
  rewrite (round_comp binary32 _ (inject_Z (Z.of_nat t) * s))
    by (now rewrite Qred_correct).
  now apply round_representable.
Qed.

Lemma interval_exact (s : Q) (t1 t2 : nat) :
  (Z.of_nat t1 < 2 ^ 24)%Z -> (Z.of_nat t2 < 2 ^ 24)%Z ->
  representable binary32 s ->
  representable binary32 (inject_Z (Z.of_nat t1) * s) ->
  representable binary32 (inject_Z (Z.of_nat t2) * s) ->
  representable binary32 (inject_Z (Z.of_nat t2 - Z.of_nat t1) * s) ->
  interval (Fin s) t1 t2 = Fin (Qred (inject_Z (Z.of_nat t2 - Z.of_nat t1) * s)).
Proof.
  intros H1 H2 Hs Hs1 Hs2 Hd. unfold interval.
  rewrite !time_of_exact by assumption. cbn [fsub].
  rewrite (round_comp binary32 _ (inject_Z (Z.of_nat t2 - Z.of_nat t1) * s)).
  - now apply round_representable.
  - rewrite !Qred_correct. unfold Z.sub. rewrite inject_Z_plus, inject_Z_opp. ring.
Qed.

(** Without a step time the interval between two spikes of a train of at
    most [2 ^ 24] steps is the whole number of steps between them. *)
Lemma interval_whole (t1 t2 : nat) :
  (Z.of_nat t1 < 2 ^ 24)%Z -> (Z.of_nat t2 < 2 ^ 24)%Z ->
  interval (Fin 1) t1 t2 = whole (Z.of_nat t2 - Z.of_nat t1).
Proof.
  intros H1 H2.
  assert (Hone : representable binary32 1) by (apply (representable_Z32 1); reflexivity).
  assert (Hrep : forall n : Z, (Z.abs n < 2 ^ 24)%Z -> representable binary32 (inject_Z n * 1)).
  { intros n Hn. apply (representable_comp _ (inject_Z n)); [ring|].
    now apply representable_Z32. }
  rewrite interval_exact; try assumption; try (apply Hrep; lia).
  unfold whole. f_equal.
  rewrite <- (Qred_inject_Z (Z.of_nat t2 - Z.of_nat t1)) at 2.
  apply Qred_complete. ring.
Qed.

(** With a step time between [2 ^ -100] and [2 ^ 100] the intervals between
    the spikes at the steps 2, 5 and 9 are near 3 and 4 step times: the
    three products and the two differences are each rounded once. *)
Lemma interval_near (step : float) (s : Q) :
  cast binary32 step = Fin s ->
  pow2 (-100) <= s <= pow2 100 ->
  exists a b : Q,
    interval step 2 5 = Fin a
    /\ interval step 5 9 = Fin b
    /\ 3 * s - (11 # 16777216) * s <= a <= 3 * s + (11 # 16777216) * s
    /\ 4 * s - (19 # 16777216) * s <= b <= 4 * s + (19 # 16777216) * s.
Proof.
  intros Hs [Hlo Hhi].
  assert (Hmin : pow2 (-126) <= pow2 (-100)) by (apply pow2_le; lia).
  assert (Hmax : 16 * pow2 100 <= pow2 127).
  { change 16 with (pow2 4). rewrite <- pow2_plus. apply pow2_le. lia. }
  pose proof (pow2_pos (-126)) as Hpos.
  assert (Herr : forall q : Q, pow2 (-126) <= q -> q <= pow2 127 ->
            exists r : Q, round binary32 q = Fin r
                          /\ q - (1 # 16777216) * q <= r <= q + (1 # 16777216) * q).
  { intros q H1 H2. apply (round_error binary32 q); [reflexivity|exact H1|exact H2]. }
  unfold interval, time_of. rewrite Hs.
  change (of_Z binary32 (Z.of_nat 2)) with (Fin 2).
  change (of_Z binary32 (Z.of_nat 5)) with (Fin 5).
  change (of_Z binary32 (Z.of_nat 9)) with (Fin 9).
  cbn [fmul].
  destruct (Herr (2 * s)) as [t2 [H2 B2]]; [lra|lra|].
  destruct (Herr (5 * s)) as [t5 [H5 B5]]; [lra|lra|].
  destruct (Herr (9 * s)) as [t9 [H9 B9]]; [lra|lra|].
  rewrite H2, H5, H9. cbn [fsub].
  destruct (Herr (t5 - t2)) as [a [Ha Ba]]; [lra|lra|].
  destruct (Herr (t9 - t5)) as [b [Hb Bb]]; [lra|lra|].
  exists a, b. split; [exact Ha|]. split; [exact Hb|]. split; split; lra.
Qed.

(** C4 (amended): a train with spikes exactly at the steps 2, 5 and 9 yields
    the intervals 3 and 4 when no step time is given.  When a step time [s]
    is given, the two intervals are the float32 differences of the float32
    products [5 * s], [2 * s] and [9 * s], [5 * s]; they are [3 * s] and
    [4 * s] when [s], these products and [3 * s], [4 * s] are float32
    numbers, and for every [s] between [2 ^ -100] and [2 ^ 100] they differ
    from [3 * s] and [4 * s] by at most 11 and 19 parts in [2 ^ 24] of [s].
    In a batch (at least one train), the row of every train holds
    the intervals between its consecutive spikes in order, computed in this
    way, and [NaN] at every further position up to the common length, which
    is one less than the largest number of spikes of a train; without a step
    time the interval between two spikes of a train of at most [2 ^ 24]
    steps is the whole number of steps between them. *)
Theorem isi_intervals :
  (forall T : nat, (10 <= T)%nat ->
     isi {| lead := []; trains := [train_of T [2; 5; 9]%nat] |} None
     = Ok {| out_lead := []; out_last := 2; rows := [[Fin 3; Fin 4]] |})
  /\ (forall (T : nat) (s : float), (10 <= T)%nat ->
        isi {| lead := []; trains := [train_of T [2; 5; 9]%nat] |} (Some s)
        = Ok {| out_lead := []; out_last := 2;
                rows := [[interval s 2 5; interval s 5 9]] |})
  /\ (forall s : Q,
        representable binary32 s ->
        representable binary32 (2 * s) ->
        representable binary32 (5 * s) ->
        representable binary32 (9 * s) ->
        representable binary32 (3 * s) ->
        representable binary32 (4 * s) ->
        interval (Fin s) 2 5 = Fin (Qred (3 * s))
        /\ interval (Fin s) 5 9 = Fin (Qred (4 * s)))
  /\ (forall (s : float) (q : Q),
        cast binary32 s = Fin q ->
        pow2 (-100) <= q <= pow2 100 ->
        exists a b : Q,
          interval s 2 5 = Fin a
          /\ interval s 5 9 = Fin b
          /\ 3 * q - (11 # 16777216) * q <= a <= 3 * q + (11 # 16777216) * q
          /\ 4 * q - (19 # 16777216) * q <= b <= 4 * q + (19 # 16777216) * q)
  /\ (forall (T : nat) (ld : list nat) (ts : list (list bool)) (st : option float),
        ts <> [] ->
        well_shaped T {| lead := ld; trains := ts |} ->
        exists out : interval_tensor,
          isi {| lead := ld; trains := ts |} st = Ok out
          /\ out_lead out = ld
          /\ out_last out = (max_spikes ts - 1)%nat
          /\ length (rows out) = length ts
          /\ forall (i : nat) (t : list bool),
               nth_error ts i = Some t ->
               exists row : list float,
                 nth_error (rows out) i = Some row
                 /\ length row = (max_spikes ts - 1)%nat
                 /\ (forall j t1 t2 : nat,
                       nth_error (spike_times t) j = Some t1 ->
                       nth_error (spike_times t) (S j) = Some t2 ->
                       nth_error row j = Some (interval (step_of st) t1 t2))
                 /\ (forall j : nat,
                       (length (spike_times t) <= S j)%nat ->
                       (S j < max_spikes ts)%nat ->
                       nth_error row j = Some NaN))
  /\ (forall t1 t2 : nat,
        (Z.of_nat t1 < 2 ^ 24)%Z -> (Z.of_nat t2 < 2 ^ 24)%Z ->
        interval (step_of None) t1 t2 = Fin (inject_Z (Z.of_nat t2 - Z.of_nat t1))).
Proof.
  split; [|split; [|split; [|split; [|split]]]].
  - intros T HT. rewrite isi_2_5_9 by assumption. reflexivity.
  - intros T s HT. now rewrite isi_2_5_9 by assumption.
  - intros s Hs H2 H5 H9 H3 H4.
    split.
    + rewrite (interval_exact s 2 5); try assumption; reflexivity.
    + rewrite (interval_exact s 5 9); try assumption; reflexivity.
  - intros s q Hs Hq. now apply interval_near.
  - intros T ld ts st Hne [Hn _]. cbn [lead trains] in Hn.
    eexists. split; [apply isi_rows; assumption|]. cbn [out_lead out_last rows].
    split; [reflexivity|]. split; [reflexivity|]. split; [apply length_map|].
    intros i t Hi. eexists. split; [rewrite nth_error_map, Hi; reflexivity|].
    assert (Hin : In t ts) by (eapply nth_error_In; eassumption).
    split; [rewrite length_diff, length_padded_times by assumption; reflexivity|].
    split.
    + intros j t1 t2 H1 H2. rewrite diff_lookup.
      rewrite (padded_times_numeric _ _ _ _ _ H1), (padded_times_numeric _ _ _ _ _ H2).
      reflexivity.
    + intros j H1 H2. rewrite diff_lookup.
      rewrite (padded_times_nan _ _ _ (S j)) by assumption.
      destruct (nth_error (padded_times (step_of st) (max_spikes ts) t) j) as [a|] eqn:Hj.
      * destruct a; reflexivity.
      * apply nth_error_None in Hj.
        rewrite length_padded_times in Hj by assumption. lia.
  - intros t1 t2 H1 H2. now apply interval_whole.
Qed.

Lemma isi_intervals_witness :
  (10 <= 12)%nat
  /\ representable binary32 (1 # 2)
  /\ [train_of 12 [2; 5; 9]%nat; train_of 12 [4]%nat] <> []
  /\ well_shaped 12 {| lead := [2%nat];
                       trains := [train_of 12 [2; 5; 9]%nat; train_of 12 [4]%nat] |}
  /\ isi {| lead := []; trains := [train_of 12 [2; 5; 9]%nat] |} None
     = Ok {| out_lead := []; out_last := 2; rows := [[Fin 3; Fin 4]] |}
  /\ isi {| lead := []; trains := [train_of 12 [2; 5; 9]%nat] |} (Some tenth)
     = Ok {| out_lead := []; out_last := 2;
             rows := [[Fin (5033165 # 16777216); Fin (6710887 # 16777216)]] |}
  /\ interval (Fin (1 # 2)) 2 5 = Fin (3 # 2)
  /\ interval (Fin (1 # 2)) 5 9 = Fin 2
  /\ cast binary32 tenth = Fin (13421773 # 134217728)
  /\ pow2 (-100) <= 13421773 # 134217728 <= pow2 100
  /\ (exists a b : Q,
        interval tenth 2 5 = Fin a
        /\ interval tenth 5 9 = Fin b
        /\ 3 * (13421773 # 134217728) - (11 # 16777216) * (13421773 # 134217728) <= a
           <= 3 * (13421773 # 134217728) + (11 # 16777216) * (13421773 # 134217728)
        /\ 4 * (13421773 # 134217728) - (19 # 16777216) * (13421773 # 134217728) <= b
           <= 4 * (13421773 # 134217728) + (19 # 16777216) * (13421773 # 134217728))
  /\ (exists out : interval_tensor,
        isi {| lead := [2%nat];
               trains := [train_of 12 [2; 5; 9]%nat; train_of 12 [4]%nat] |} None = Ok out
        /\ out_last out = 2%nat
        /\ rows out = [[Fin 3; Fin 4]; [NaN; NaN]])
  /\ interval (step_of None) 2 9 = Fin 7.
Proof.
  assert (H10 : (10 <= 12)%nat) by (repeat constructor).
  assert (Hne : [train_of 12 [2; 5; 9]%nat; train_of 12 [4]%nat] <> []) by discriminate.
  assert (Hws : well_shaped 12 {| lead := [2%nat];
                  trains := [train_of 12 [2; 5; 9]%nat; train_of 12 [4]%nat] |})
    by (split; [reflexivity|repeat constructor]).
  assert (Hrep : forall m : Z, (Z.abs m < 2 ^ 24)%Z -> representable binary32 (m # 2)).
  { intros m Hm. exists m, (-1)%Z. split; [|split; [|split]].
    - unfold Qeq, inject_Z, pow2. cbn. lia.
    - exact Hm.
    - vm_compute. discriminate.
    - apply Qle_lt_trans with (inject_Z (Z.abs m)).
      + rewrite <- Zabs_Qabs. unfold Qle, inject_Z. cbn. lia.
      + apply Qlt_trans with (inject_Z (2 ^ 24)).
        * now rewrite <- Zlt_Qlt.
        * vm_compute. reflexivity. }
  assert (Hhalf : forall n m : Z, (n * 1 = m)%Z -> (Z.abs m < 2 ^ 24)%Z ->
                    representable binary32 (inject_Z n * (1 # 2))).
  { intros n m <- Hm. apply (representable_comp _ (n * 1 # 2)).
    - unfold Qeq, inject_Z, Qmult. cbn. lia.
    - now apply Hrep. }
  assert (Hcast : cast binary32 tenth = Fin (13421773 # 134217728))
    by (vm_compute; reflexivity).
  assert (Hrange : pow2 (-100) <= 13421773 # 134217728 <= pow2 100)
    by (split; vm_compute; discriminate).
  destruct isi_intervals as [H1 [H2 [H3 [Hnear [H4 H5]]]]].
  split; [exact H10|]. split; [apply (Hrep 1%Z); reflexivity|].
  split; [exact Hne|]. split; [exact Hws|].
  split; [exact (H1 12%nat H10)|].
  split; [rewrite (H2 12%nat tenth H10); vm_compute; reflexivity|].
  destruct (H3 (1 # 2)) as [Ha Hb];
    try (apply (Hrep 1%Z); reflexivity);
    try (eapply Hhalf; [reflexivity|reflexivity]).
  split; [exact Ha|]. split; [exact Hb|].
  split; [exact Hcast|]. split; [exact Hrange|].
  split; [exact (Hnear tenth _ Hcast Hrange)|].
  split.
  - destruct (H4 12%nat [2%nat] _ None Hne Hws) as [out [Ho [_ [Hl _]]]].
    exists out. split; [exact Ho|]. split; [exact Hl|].
    assert (Hv : isi {| lead := [2%nat];
                        trains := [train_of 12 [2; 5; 9]%nat; train_of 12 [4]%nat] |} None
                 = Ok {| out_lead := [2%nat]; out_last := 2;
                         rows := [[Fin 3; Fin 4]; [NaN; NaN]] |})
      by (vm_compute; reflexivity).
    rewrite Hv in Ho. now injection Ho as <-.
  - apply (H5 2%nat 9%nat); reflexivity.
Defined.

(** C4 as stated fails for a step time that float32 does not hold: at the
    step time [0.1] the second interval of the train with spikes at 2, 5
    and 9 is [0.4000000357...], which is neither 4 times [0.1] (as a real
    number, as a Python float or as a float32 number) nor the float32
    number nearest to it. *)
Lemma isi_step_time_claim_counterexample :
  exists a b t : Q,
    tenth = Fin t
    /\ isi {| lead := []; trains := [train_of 12 [2; 5; 9]%nat] |} (Some tenth)
       = Ok {| out_lead := []; out_last := 2; rows := [[Fin a; Fin b]] |}
    /\ ~ a == 3 * (1 # 10)
    /\ ~ b == 4 * (1 # 10)
    /\ ~ b == 4 * t
    /\ cast binary32 tenth <> Fin b
    /\ fmul binary32 (Fin 4) (cast binary32 tenth) <> Fin b
    /\ round binary32 (4 * (1 # 10)) <> Fin b
    /\ round binary32 (4 * t) <> Fin b.
Proof.
  exists (5033165 # 16777216), (6710887 # 16777216),
         (3602879701896397 # 36028797018963968).
  split; [vm_compute; reflexivity|].
  split; [vm_compute; reflexivity|].
  repeat split; vm_compute; discriminate.
Qed.

(** C10 (where the code departs from the claim): for a tensor one of whose
    leading dimensions is zero, so that it holds no train at all, the final
    [view] cannot infer the last dimension and [isi] raises. *)
Theorem isi_no_train_raises (ld : list nat) (ts : list (list bool)) (step_time : option float) :
  numel ld = 0%nat ->
  isi {| lead := ld; trains := ts |} step_time = Raise RuntimeError.
Proof.
  intros H. unfold isi, view_infer. cbn [lead]. rewrite H. reflexivity.
Qed.

Lemma isi_no_train_raises_witness :
  well_shaped 3 {| lead := [0%nat]; trains := [] |}
  /\ isi {| lead := [0%nat]; trains := [] |} None = Raise RuntimeError.
Proof.
  split.
  - split; [reflexivity|constructor].
  - apply (isi_no_train_raises [0%nat] [] None). reflexivity.
Defined.

End IsiFacts.

(** ** Delta synapses *)

Section SynapseFacts.

Import Float Synapses.

Lemma reset_at_rest {A : Type} (h : history A) (rest : A) :
  at_rest (eq rest) (reset h rest).
Proof.
  unfold at_rest, reset. cbn [slots].
  apply List.Forall_forall. intros obs Hobs.
  apply in_map_iff in Hobs as [o [<- _]].
  apply List.Forall_forall. intros x Hx.
  apply in_map_iff in Hx as [y [<- _]]. reflexivity.
Qed.


Lemma capacity_slots {A : Type} (h : history A) :
  slots h <> [] -> (0 < length (slots h))%nat.
Proof. destruct (slots h); [congruence|cbn [length]; lia]. Qed.

Lemma newest_write {A : Type} (h : history A) (obs : list A) :
  slots h <> [] -> newest (write h obs) = obs.
Proof.
  intros Hne. apply capacity_slots in Hne.
  unfold newest, obs_at, write. cbn [slots step].
  rewrite length_insert.
  replace (S (step h) + length (slots h) - 1 - 0)%nat
    with (step h + 1 * length (slots h))%nat by lia.
  rewrite Nat.Div0.mod_add.
  rewrite list_lookup_insert_eq; [reflexivity|].
  apply Nat.mod_upper_bound. lia.
Qed.


Lemma write_wf {A : Type} (n : nat) (h : history A) (obs : list A) :
  history_wf n h -> length obs = n -> history_wf n (write h obs).
Proof.
  intros [Hne Hlen] Hobs. unfold history_wf, write. cbn [slots]. split.
  - intros Heq. apply (f_equal (@length _)) in Heq.
    rewrite length_insert in Heq. apply capacity_slots in Hne.
    cbn [length] in Heq. lia.
  - now apply Forall_insert.
Qed.

Lemma map_const_replicate {A B : Type} (b : B) (l : list A) :
  map (fun _ => b) l = replicate (length l) b.
Proof. induction l as [|a l IH]; [reflexivity|]. cbn [map length replicate]. now rewrite IH. Qed.

Lemma reset_slots {A : Type} (h : history A) (rest : A) :
  slots (reset h rest) = map (fun obs => replicate (length obs) rest) (slots h).
Proof.
  unfold reset. cbn [slots]. apply map_ext. intros obs. apply map_const_replicate.
Qed.


(** C8: [clear()] keeps the number of stored observations and the number
    of entries of each of them and sets every stored spike to [False] (and,
    for [DeltaPlusCurrent], every stored current to [0.0]), with the step
    counter back at 0, and changes neither [spike_q] nor the maximum delay
    nor any other attribute of the synapse. *)
Theorem clear_resets_histories_only :
  (forall self : DeltaCurrent,
     slots (spike_ (clear self))
     = map (fun obs => replicate (length obs) false) (slots (spike_ self))
     /\ at_rest (eq false) (spike_ (clear self))
     /\ step (spike_ (clear self)) = 0%nat
     /\ length (slots (spike_ (clear self))) = length (slots (spike_ self))
     /\ spike_q (clear self) = spike_q self
     /\ delay (base (clear self)) = delay (base self)
     /\ base (clear self) = base self
     /\ interp_fn (clear self) = interp_fn self
     /\ tolerance (clear self) = tolerance self
     /\ current_overbound (clear self) = current_overbound self
     /\ spike_overbound (clear self) = spike_overbound self)
  /\ (forall self : DeltaPlusCurrent,
        slots (pspike_ (pclear self))
        = map (fun obs => replicate (length obs) false) (slots (pspike_ self))
        /\ slots (pcurrent_ (pclear self))
           = map (fun obs => replicate (length obs) (Fin 0)) (slots (pcurrent_ self))
        /\ at_rest (eq false) (pspike_ (pclear self))
        /\ at_rest (eq (Fin 0)) (pcurrent_ (pclear self))
        /\ step (pspike_ (pclear self)) = 0%nat
        /\ step (pcurrent_ (pclear self)) = 0%nat
        /\ length (slots (pspike_ (pclear self))) = length (slots (pspike_ self))
        /\ length (slots (pcurrent_ (pclear self))) = length (slots (pcurrent_ self))
        /\ pspike_q (pclear self) = pspike_q self
        /\ delay (pbase (pclear self)) = delay (pbase self)
        /\ pbase (pclear self) = pbase self
        /\ pinterp_fn (pclear self) = pinterp_fn self
        /\ ptolerance (pclear self) = ptolerance self
        /\ pcurrent_overbound (pclear self) = pcurrent_overbound self
        /\ pspike_overbound (pclear self) = pspike_overbound self).
Proof.
  split; intros self.
  - unfold clear, set_spike_. cbn [spike_ spike_q base interp_fn tolerance
      current_overbound spike_overbound].
    split; [apply reset_slots|].
    repeat split; try reflexivity.
    + apply reset_at_rest.
    + unfold reset. cbn [slots]. apply length_map.
  - unfold pclear. cbn [pspike_ pcurrent_ pspike_q pbase pinterp_fn ptolerance
      pcurrent_overbound pspike_overbound].
    split; [apply reset_slots|]. split; [apply reset_slots|].
    repeat split; try reflexivity.
    + apply reset_at_rest.
    + apply reset_at_rest.
    + unfold reset. cbn [slots]. apply length_map.
    + unfold reset. cbn [slots]. apply length_map.
Qed.

(** [clear()] on a synapse that holds three observations of two units. *)
Example clear_three_observations :
  let self :=
    {| base := {| shape := [2%nat]; dt := 1; delay := 2; batch_size := 1 |};
       spike_q := 1;
       interp_fn := interp_previous;
       tolerance := 0;
       current_overbound := Some 0;
       spike_overbound := Some false;
       spike_ := {| slots := [[true; false]; [true; true]; [false; true]]; step := 5 |} |} in
  slots (spike_ (clear self)) = [[false; false]; [false; false]; [false; false]]
  /\ step (spike_ (clear self)) = 0%nat.
Proof. split; reflexivity. Qed.

Lemma record_obs_ok {A : Type} (n : nat) (h : history A) (obs : list A) :
  length obs = n -> record_obs n h obs = Ok (write h obs).
Proof. intros H. unfold record_obs. now rewrite H, Nat.eqb_refl. Qed.




Lemma length_to_bool (t : tensor) : length (to_bool t) = length (to_float t).
Proof. destruct t; cbn [to_bool to_float]; now rewrite !length_map. Qed.







Lemma lookup_map {A B : Type} (f : A -> B) (l : list A) (i : nat) :
  map f l !! i = f <$> (l !! i).
Proof. exact (list_lookup_fmap f l i). Qed.




Lemma InfernoSynapse_init_ok (sh : list nat) (T D : Q) (batch : nat) :
  0 < T -> 0 <= D ->
  InfernoSynapse_init sh T D batch
  = Ok {| shape := sh; dt := T; delay := D; batch_size := batch |}.
Proof.
  intros HT HD. unfold InfernoSynapse_init.
  now rewrite Qle_bool_false, Qle_bool_true by assumption.
Qed.

Lemma InfernoSynapse_init_error (sh : list nat) (T D : Q) (batch : nat) :
  is_ok (InfernoSynapse_init sh T D batch) = false ->
  InfernoSynapse_init sh T D batch = Raise ConfigurationError.
Proof.
  unfold InfernoSynapse_init.
  destruct (Qle_bool T 0); [reflexivity|].
  destruct (Qle_bool 0 D); [discriminate|reflexivity].
Qed.


Lemma forward_returns_to_current (self : DeltaCurrent) (inp : list bool)
    (others : list (list bool)) :
  history_wf (units (base self)) (spike_ self) ->
  length inp = units (base self) ->
  forward self (inp :: others)
  = let* k := truediv (spike_q self) (dt (base self)) in
    Ok (set_spike_ self (write (spike_ self) inp),
        map (fun s => fmul binary32 (b2f s) (cast binary32 k)) inp).
Proof.
  intros [Hne _] Hlen. unfold forward.
  rewrite record_obs_ok by assumption. cbn [rbind].
  unfold current, spike, _to_current. cbn [set_spike_ spike_ spike_q base].
  rewrite newest_write by assumption.
  destruct (truediv (spike_q self) (dt (base self))) as [k|e]; [|reflexivity].
  cbn [rbind]. unfold scalar_mul. now rewrite map_map.
Qed.

Lemma history_new_wf {A : Type} (c n : nat) (rest : A) :
  history_wf n (history_new (S c) n rest).
Proof.
  unfold history_wf, history_new. cbn [slots]. split; [discriminate|].
  apply Forall_replicate. apply length_replicate.
Qed.




(** The constructor builds a well-formed history, and steps keep it so. *)
Lemma DeltaCurrent_init_wf (sh : list nat) (T q D : Q) (mode : string) (tol : Q)
    (co : option Q) (so : option bool) (batch : nat) (s : DeltaCurrent) :
  DeltaCurrent_init sh T q D mode tol co so batch = Ok s ->
  history_wf (units (base s)) (spike_ s).
Proof.
  unfold DeltaCurrent_init.
  destruct (InfernoSynapse_init sh T D batch) as [self|]; [|discriminate].
  cbn [rbind]. destruct (argtest_neq q 0); [|discriminate]. cbn [rbind].
  destruct (String.eqb (lower mode) "nearest");
    [|destruct (String.eqb (lower mode) "previous"); [|discriminate]];
    cbn [rbind]; intros [= <-]; cbn [base spike_]; apply history_new_wf.
Qed.

Lemma forward_wf (self self' : DeltaCurrent) (inputs : list (list bool)) (out : list float) :
  history_wf (units (base self)) (spike_ self) ->
  forward self inputs = Ok (self', out) ->
  history_wf (units (base self')) (spike_ self').
Proof.
  intros Hwf. unfold forward. destruct inputs as [|inp others]; [discriminate|].
  unfold record_obs. destruct (Nat.eqb_spec (length inp) (units (base self))); [|discriminate].
  cbn [rbind]. destruct (current _); [|discriminate].
  cbn [rbind]. intros [= <- _]. cbn [set_spike_ base spike_].
  now apply write_wf.
Qed.



Lemma argtest_neq_zero (q : Q) : q == 0 -> argtest_neq q 0 = Raise ConfigurationError.
Proof.
  intros H. unfold argtest_neq. apply Qeq_bool_iff in H. now rewrite H.
Qed.

Lemma argtest_neq_nonzero (q : Q) : ~ q == 0 -> argtest_neq q 0 = Ok q.
Proof. intros H. unfold argtest_neq. now rewrite Qeq_bool_false. Qed.

(** C7: a charge [spike_q] equal to zero makes the construction of a
    [DeltaCurrent] and of a [DeltaPlusCurrent] fail with a
    [ConfigurationError], whatever the other arguments are; a charge
    different from zero passes the test, and the synapse is built with it
    when the other arguments are valid. *)
Theorem zero_spike_q_rejected :
  (forall (sh : list nat) (T q D : Q) (mode : string) (tol : Q) (co : option Q)
          (so : option bool) (batch : nat),
     q == 0 ->
     DeltaCurrent_init sh T q D mode tol co so batch = Raise ConfigurationError
     /\ DeltaPlusCurrent_init sh T q D mode tol co so batch = Raise ConfigurationError)
  /\ (forall q : Q, ~ q == 0 -> argtest_neq q 0 = Ok q)
  /\ (forall (sh : list nat) (T q D : Q) (mode : string) (tol : Q) (co : option Q)
             (so : option bool) (batch : nat),
        ~ q == 0 ->
        0 < T -> 0 <= D ->
        lower mode = "nearest"%string \/ lower mode = "previous"%string ->
        exists (s : DeltaCurrent) (p : DeltaPlusCurrent),
          DeltaCurrent_init sh T q D mode tol co so batch = Ok s
          /\ spike_q s = q
          /\ DeltaPlusCurrent_init sh T q D mode tol co so batch = Ok p
          /\ pspike_q p = q).
Proof.
  split; [|split].
  - intros sh T q D mode tol co so batch Hq.
    unfold DeltaCurrent_init, DeltaPlusCurrent_init.
    destruct (InfernoSynapse_init sh T D batch) as [self|e] eqn:Hinit.
    + cbn [rbind]. rewrite argtest_neq_zero by assumption. split; reflexivity.
    + rewrite InfernoSynapse_init_error in Hinit by (now rewrite Hinit).
      injection Hinit as <-. split; reflexivity.
  - exact argtest_neq_nonzero.
  - intros sh T q D mode tol co so batch Hq HT HD Hmode.
    unfold DeltaCurrent_init, DeltaPlusCurrent_init.
    rewrite InfernoSynapse_init_ok by assumption. cbn [rbind].
    rewrite argtest_neq_nonzero by assumption. cbn [rbind].
    destruct Hmode as [-> | ->]; cbn [String.eqb]; cbv beta iota; cbn [rbind];
      eexists _, _; repeat split; reflexivity.
Qed.

(** C5 (amended): an [interp_mode] whose lower-case form is neither
    ['nearest'] nor ['previous'] makes the construction of a [DeltaCurrent]
    and of a [DeltaPlusCurrent] fail; the exception is a [RuntimeError] when
    the step time, the delay and the charge pass their own tests, which come
    first. *)
Theorem unknown_interp_mode_rejected
    (sh : list nat) (T q D : Q) (mode : string) (tol : Q) (co : option Q)
    (so : option bool) (batch : nat) :
  lower mode <> "nearest"%string ->
  lower mode <> "previous"%string ->
  is_ok (DeltaCurrent_init sh T q D mode tol co so batch) = false
  /\ is_ok (DeltaPlusCurrent_init sh T q D mode tol co so batch) = false
  /\ (0 < T -> 0 <= D -> ~ q == 0 ->
      DeltaCurrent_init sh T q D mode tol co so batch = Raise RuntimeError
      /\ DeltaPlusCurrent_init sh T q D mode tol co so batch = Raise RuntimeError).
Proof.
  intros Hn Hp.
  apply String.eqb_neq in Hn, Hp.
  unfold DeltaCurrent_init, DeltaPlusCurrent_init.
  split; [|split].
  - destruct (InfernoSynapse_init sh T D batch); [|reflexivity]. cbn [rbind].
    destruct (argtest_neq q 0); [|reflexivity]. cbn [rbind].
    now rewrite Hn, Hp.
  - destruct (InfernoSynapse_init sh T D batch); [|reflexivity]. cbn [rbind].
    destruct (argtest_neq q 0); [|reflexivity]. cbn [rbind].
    now rewrite Hn, Hp.
  - intros HT HD Hq.
    rewrite InfernoSynapse_init_ok by assumption. cbn [rbind].
    rewrite argtest_neq_nonzero by assumption. cbn [rbind].
    rewrite Hn, Hp. split; reflexivity.
Qed.

Lemma unknown_interp_mode_rejected_witness :
  lower "linear" <> "nearest"%string
  /\ lower "linear" <> "previous"%string
  /\ is_ok (DeltaCurrent_init [2%nat] 1 1 0 "linear" 0 (Some 0) (Some false) 1) = false
  /\ DeltaPlusCurrent_init [2%nat] 1 1 0 "linear" 0 (Some 0) (Some false) 1
     = Raise RuntimeError.
Proof.
  assert (H1 : lower "linear" <> "nearest"%string) by discriminate.
  assert (H2 : lower "linear" <> "previous"%string) by discriminate.
  split; [exact H1|]. split; [exact H2|].
  destruct (unknown_interp_mode_rejected [2%nat] 1 1 0 "linear" 0 (Some 0) (Some false) 1 H1 H2)
    as [Hc [_ Hr]].
  split; [exact Hc|].
  apply Hr; [reflexivity|discriminate|discriminate].
Defined.

(** C5 as stated fails: for ['linear'] the exception is a [RuntimeError],
    not a [ConfigurationError], and ['Nearest'], which is not the string
    ['nearest'], is accepted. *)
Lemma interp_mode_claim_counterexample :
  DeltaCurrent_init [2%nat] 1 1 0 "linear" 0 (Some 0) (Some false) 1
    <> Raise ConfigurationError
  /\ DeltaPlusCurrent_init [2%nat] 1 1 0 "linear" 0 (Some 0) (Some false) 1
       <> Raise ConfigurationError
  /\ DeltaCurrent_init [2%nat] 1 1 0 "linear" 0 (Some 0) (Some false) 1
       = Raise RuntimeError
  /\ "Nearest"%string <> "nearest"%string
  /\ is_ok (DeltaCurrent_init [2%nat] 1 1 0 "Nearest" 0 (Some 0) (Some false) 1) = true.
Proof.
  repeat split; try discriminate; reflexivity.
Qed.




Lemma zero_spike_q_rejected_witness :
  0 == 0
  /\ DeltaCurrent_init [2%nat] 1 0 0 "previous" 0 (Some 0) (Some false) 1
     = Raise ConfigurationError
  /\ ~ 1 == 0
  /\ argtest_neq 1 0 = Ok 1.
Proof.
  assert (H0 : 0 == 0) by reflexivity.
  assert (H1 : ~ 1 == 0) by discriminate.
  destruct zero_spike_q_rejected as [Hz [Hn _]].
  split; [exact H0|].
  split; [exact (proj1 (Hz [2%nat] 1 0 0 "previous"%string 0 (Some 0) (Some false) 1%nat H0))|].
  split; [exact H1|exact (Hn 1 H1)].
Defined.

End SynapseFacts.

(** ** Linear connections *)

Section ConnectionFacts.

Import Synapses Connections.

(** C3 (what the code does where the claim promises the configured values):
    [DenseLinear.__init__] calls the synapse constructor with the batch size
    in the place of [delay] and the delay in the place of [batch_size].  A
    class that records its keyword arguments receives [delay = int(batch_size)]
    and [batch_size = float(delay)] (or [None] without a delay). *)
Theorem DenseLinear_synapse_arguments
    (in_shape out_shape : shape_arg) (T q : Q) (mode : string) (tol : Q)
    (co : option Q) (so : option bool) (B : Z) (bias : bool) (D : Q) :
  0 < T -> 0 < D ->
  exists conn : linear kwargs,
    DenseLinear_init keep_synapse in_shape out_shape T
      (partialconstructor recording_cls q mode tol co so) B bias (Some D) = Ok conn
    /\ kw_shape (connection conn) = PyInt (prod (convert_shape in_shape))
    /\ kw_step_time (connection conn) = PyFloat T
    /\ kw_delay (connection conn) = PyInt B
    /\ kw_batch_size (connection conn) = PyFloat D.
Proof.
  intros HT HD. unfold DenseLinear_init.
  rewrite (Qle_bool_false T 0), (Qle_bool_false D 0) by assumption.
  unfold py_not. rewrite Qeq_bool_false by lra.
  cbn [partialconstructor recording_cls keep_synapse rbind negb].
  eexists. split; [reflexivity|]. cbn [connection kw_shape kw_step_time kw_delay kw_batch_size].
  repeat split.
Qed.

Lemma DenseLinear_synapse_arguments_witness :
  0 < 1 /\ 0 < 2
  /\ exists conn : linear kwargs,
       DenseLinear_init keep_synapse (ShapeInt 4) (ShapeInt 2) 1
         (partialconstructor recording_cls 1 "previous" 0 (Some 0) (Some false))
         3 false (Some 2) = Ok conn
       /\ kw_delay (connection conn) = PyInt 3
       /\ kw_batch_size (connection conn) = PyFloat 2.
Proof.
  assert (H1 : 0 < 1) by reflexivity.
  assert (H2 : 0 < 2) by reflexivity.
  split; [exact H1|]. split; [exact H2|].
  destruct (DenseLinear_synapse_arguments (ShapeInt 4) (ShapeInt 2) 1 1 "previous" 0
              (Some 0) (Some false) 3 false 2 H1 H2) as [conn [Hc [_ [_ [Hd Hb]]]]].
  exists conn. split; [exact Hc|]. split; [exact Hd|exact Hb].
Defined.

(** C6 (amended): the constructors of [DenseLinear] and [DirectLinear] raise
    a [ValueError] for a step time that is not positive and, the step time
    being positive, for a delay that is given and not positive, zero
    included; with a positive step time and a delay that is absent or
    positive both tests pass, and the construction succeeds when the synapse
    constructor and [Connection.__init__] do. *)
Theorem connection_argument_checks
    {S C : Type}
    (Connection_init : S -> list Z -> option (list Z) -> option (list Z) -> result C)
    (synapse : SynapseConstructor S) :
  (forall (in_shape out_shape : shape_arg) (T : Q) (B : Z) (bias : bool) (delay : option Q),
     T <= 0 ->
     DenseLinear_init Connection_init in_shape out_shape T synapse B bias delay
       = Raise ValueError
     /\ DirectLinear_init Connection_init in_shape T synapse B bias delay
          = Raise ValueError)
  /\ (forall (in_shape out_shape : shape_arg) (T : Q) (B : Z) (bias : bool) (d : Q),
        0 < T -> d <= 0 ->
        DenseLinear_init Connection_init in_shape out_shape T synapse B bias (Some d)
          = Raise ValueError
        /\ DirectLinear_init Connection_init in_shape T synapse B bias (Some d)
             = Raise ValueError)
  /\ (forall (in_shape out_shape : shape_arg) (T : Q) (B : Z) (bias : bool) (delay : option Q),
        0 < T ->
        match delay with Some d => 0 < d | None => True end ->
        (forall a b c d, is_ok (synapse a b c d) = true) ->
        (forall s w b d, is_ok (Connection_init s w b d) = true) ->
        is_ok (DenseLinear_init Connection_init in_shape out_shape T synapse B bias delay)
          = true
        /\ is_ok (DirectLinear_init Connection_init in_shape T synapse B bias delay)
             = true).
Proof.
  split; [|split].
  - intros in_shape out_shape T B bias delay HT.
    unfold DenseLinear_init, DirectLinear_init.
    rewrite Qle_bool_true by assumption. split; reflexivity.
  - intros in_shape out_shape T B bias d HT Hd.
    unfold DenseLinear_init, DirectLinear_init.
    rewrite (Qle_bool_false T 0) by assumption.
    rewrite (Qle_bool_true d 0) by assumption. split; reflexivity.
  - intros in_shape out_shape T B bias delay HT Hd Hsyn Hconn.
    unfold DenseLinear_init, DirectLinear_init.
    rewrite (Qle_bool_false T 0) by assumption.
    assert (Hchk : match delay with Some d => Qle_bool d 0 | None => false end = false).
    { destruct delay as [d|]; [now apply Qle_bool_false|reflexivity]. }
    rewrite Hchk.
    split.
    + match goal with |- context [synapse ?a ?b ?c ?d] =>
        pose proof (Hsyn a b c d) as Hs; destruct (synapse a b c d) as [syn|]; [|discriminate]
      end.
      cbn [rbind].
      match goal with |- context [Connection_init ?a ?b ?c ?d] =>
        pose proof (Hconn a b c d) as Hk;
        destruct (Connection_init a b c d); [|discriminate]
      end.
      reflexivity.
    + match goal with |- context [synapse ?a ?b ?c ?d] =>
        pose proof (Hsyn a b c d) as Hs; destruct (synapse a b c d) as [syn|]; [|discriminate]
      end.
      cbn [rbind].
      match goal with |- context [Connection_init ?a ?b ?c ?d] =>
        pose proof (Hconn a b c d) as Hk;
        destruct (Connection_init a b c d); [|discriminate]
      end.
      reflexivity.
Qed.

Lemma connection_argument_checks_witness :
  0 <= 0
  /\ DenseLinear_init keep_synapse (ShapeInt 4) (ShapeInt 2) 0
       (partialconstructor recording_cls 1 "previous" 0 (Some 0) (Some false))
       1 false None = Raise ValueError
  /\ 0 < 1
  /\ DirectLinear_init keep_synapse (ShapeInt 4) 1
       (partialconstructor recording_cls 1 "previous" 0 (Some 0) (Some false))
       1 false (Some 0) = Raise ValueError
  /\ is_ok (DenseLinear_init keep_synapse (ShapeInt 4) (ShapeInt 2) 1
              (partialconstructor recording_cls 1 "previous" 0 (Some 0) (Some false))
              1 false (Some 2)) = true.
Proof.
  assert (H0 : 0 <= 0) by discriminate.
  assert (H1 : 0 < 1) by reflexivity.
  assert (H2 : 0 < 2) by reflexivity.
  destruct (connection_argument_checks (S := kwargs) keep_synapse
              (partialconstructor recording_cls 1 "previous" 0 (Some 0) (Some false)))
    as [Ha [Hb Hc]].
  split; [exact H0|].
  split; [exact (proj1 (Ha (ShapeInt 4) (ShapeInt 2) 0 1%Z false None H0))|].
  split; [exact H1|].
  split; [exact (proj2 (Hb (ShapeInt 4) (ShapeInt 2) 1 1%Z false 0 H1 H0))|].
  refine (proj1 (Hc (ShapeInt 4) (ShapeInt 2) 1 1%Z false (Some 2) H1 H2 _ _)).
  - intros a b c d. reflexivity.
  - intros s w b d. reflexivity.
Defined.

(** C6 as stated fails: a delay of zero is rejected, and the exception of
    the two tests is a [ValueError], not a [ConfigurationError]. *)
Lemma zero_delay_claim_counterexample :
  is_ok (DenseLinear_init keep_synapse (ShapeInt 4) (ShapeInt 2) 1
           (partialconstructor recording_cls 1 "previous" 0 (Some 0) (Some false))
           1 false (Some 0)) = false
  /\ is_ok (DirectLinear_init keep_synapse (ShapeInt 4) 1
              (partialconstructor recording_cls 1 "previous" 0 (Some 0) (Some false))
              1 false (Some 0)) = false
  /\ DenseLinear_init keep_synapse (ShapeInt 4) (ShapeInt 2) 0
       (partialconstructor recording_cls 1 "previous" 0 (Some 0) (Some false))
       1 false None <> Raise ConfigurationError
  /\ DenseLinear_init keep_synapse (ShapeInt 4) (ShapeInt 2) 1
       (partialconstructor recording_cls 1 "previous" 0 (Some 0) (Some false))
       1 false (Some (-1)) <> Raise ConfigurationError.
Proof.
  repeat split; try discriminate; reflexivity.
Qed.

End ConnectionFacts.

(** ** Iteration helpers of [inferno/_internal/utils.py] *)

Section UtilsFacts.

Import Utils.

(** X1: [fzip] yields one tuple per element of the sequence, in its order;
    with [identity] the tuple of an element starts with the element itself
    and holds after it the result of every function, in the order of the
    functions; without [identity] it holds the results only. *)
Theorem fzip_components {T : Type} (seq : list T) (fns : list (T -> T)) (identity : bool) :
  length (fzip seq fns identity) = length seq
  /\ (forall (i : nat) (e : T),
        nth_error seq i = Some e ->
        exists tuple : list T,
          nth_error (fzip seq fns identity) i = Some tuple
          /\ length tuple = ((if identity then 1 else 0) + length fns)%nat
          /\ (identity = true -> nth_error tuple 0 = Some e)
          /\ (forall (j : nat) (fn : T -> T),
                nth_error fns j = Some fn ->
                nth_error tuple ((if identity then 1 else 0) + j) = Some (fn e))).
Proof.
  unfold fzip. split; [apply length_map|].
  intros i e He. eexists. split; [rewrite nth_error_map, He; reflexivity|].
  destruct identity; cbn [map length nth_error Nat.add]; rewrite length_map.
  - split; [reflexivity|]. split; [reflexivity|].
    intros j fn Hfn. now rewrite nth_error_map, Hfn.
  - split; [reflexivity|]. split; [discriminate|].
    intros j fn Hfn. now rewrite nth_error_map, Hfn.
Qed.

Lemma fzip_components_witness :
  nth_error [3; 4]%nat 1 = Some 4%nat
  /\ nth_error [S; Nat.double] 1 = Some Nat.double
  /\ exists tuple : list nat,
       nth_error (fzip [3; 4]%nat [S; Nat.double] true) 1 = Some tuple
       /\ length tuple = 3%nat
       /\ nth_error tuple 0 = Some 4%nat
       /\ nth_error tuple 2 = Some 8%nat.
Proof.
  split; [reflexivity|]. split; [reflexivity|].
  destruct (proj2 (fzip_components [3; 4]%nat [S; Nat.double] true) 1%nat 4%nat eq_refl)
    as [tuple [Ht [Hl [H0 Hj]]]].
  exists tuple. split; [exact Ht|]. split; [exact Hl|].
  split; [exact (H0 eq_refl)|exact (Hj 1%nat Nat.double eq_refl)].
Defined.

Section Unique.

Context {V : Type} {EqV : EqDecision V} {CountV : Countable V}.

Implicit Types (seq : list (object V)) (found : gset (nat + V)).

Lemma unique_loop_cons (ids : bool) found (e : object V) seq :
  unique_loop found (pairs_of ids (e :: seq))
  = if decide (key_of ids e ∈ found) then unique_loop found (pairs_of ids seq)
    else e :: unique_loop ({[key_of ids e]} ∪ found) (pairs_of ids seq).
Proof. reflexivity. Qed.

Lemma unique_loop_sublist (ids : bool) found seq :
  sublist (unique_loop found (pairs_of ids seq)) seq.
Proof.
  revert found. induction seq as [|e seq IH]; intros found; [constructor|].
  rewrite unique_loop_cons. destruct (decide _).
  - apply sublist_cons. apply IH.
  - apply sublist_skip. apply IH.
Qed.

Lemma unique_loop_keys_fresh (ids : bool) found seq (e : object V) :
  e ∈ unique_loop found (pairs_of ids seq) -> key_of ids e ∉ found.
Proof.
  revert found. induction seq as [|x seq IH]; intros found; [intros Hin; inversion Hin|].
  rewrite unique_loop_cons. destruct (decide _) as [Hx|Hx].
  - apply IH.
  - intros Hin. apply elem_of_cons in Hin as [->|Hin]; [exact Hx|].
    apply IH in Hin. set_solver.
Qed.

Lemma unique_loop_NoDup (ids : bool) found seq :
  NoDup (map (key_of ids) (unique_loop found (pairs_of ids seq))).
Proof.
  revert found. induction seq as [|x seq IH]; intros found; [constructor|].
  rewrite unique_loop_cons. destruct (decide _) as [Hx|Hx]; [apply IH|].
  cbn [map]. constructor; [|apply IH].
  intros Hin. change (map (key_of ids) ?l) with (key_of ids <$> l) in Hin.
  apply list_elem_of_fmap in Hin as [e [He Hin]].
  apply unique_loop_keys_fresh in Hin. rewrite <- He in Hin. set_solver.
Qed.

Lemma unique_loop_covers (ids : bool) found seq (e : object V) :
  e ∈ seq ->
  key_of ids e ∈ found
  \/ exists e', e' ∈ unique_loop found (pairs_of ids seq) /\ key_of ids e' = key_of ids e.
Proof.
  revert found. induction seq as [|x seq IH]; intros found Hin; [inversion Hin|].
  rewrite unique_loop_cons. apply elem_of_cons in Hin as [->|Hin].
  - destruct (decide _) as [Hx|Hx]; [now left|].
    right. exists x. split; [apply list_elem_of_here|reflexivity].
  - destruct (decide _) as [Hx|Hx].
    + now apply IH.
    + destruct (IH ({[key_of ids x]} ∪ found) Hin) as [Hk|[e' [He' Hk]]].
      * apply elem_of_union in Hk as [Hk|Hk]; [|now left].
        apply elem_of_singleton in Hk. right. exists x.
        split; [apply list_elem_of_here|now symmetry].
      * right. exists e'. split; [now apply list_elem_of_further|exact Hk].
Qed.

Lemma union_absorb_key (k : nat + V) (F G : gset (nat + V)) :
  k ∈ F -> F ∪ ({[k]} ∪ G) = F ∪ G.
Proof.
  intros Hk. apply set_eq. intros x.
  rewrite !elem_of_union, elem_of_singleton. split; [|tauto].
  intros [Hx|[->|Hx]]; tauto.
Qed.

Lemma union_swap_key (k : nat + V) (F G : gset (nat + V)) :
  {[k]} ∪ (F ∪ G) = F ∪ ({[k]} ∪ G).
Proof.
  apply set_eq. intros x. rewrite !elem_of_union, elem_of_singleton. tauto.
Qed.

Lemma unique_loop_filter (ids : bool) (F G : gset (nat + V)) seq :
  unique_loop (F ∪ G) (pairs_of ids seq)
  = filter (fun e => key_of ids e ∉ F) (unique_loop G (pairs_of ids seq)).
Proof.
  revert G. induction seq as [|x seq IH]; intros G; [reflexivity|].
  rewrite !unique_loop_cons.
  destruct (decide (key_of ids x ∈ G)) as [HG|HG].
  - rewrite decide_True by (apply elem_of_union; now right). apply IH.
  - destruct (decide (key_of ids x ∈ F)) as [HF|HF].
    + rewrite decide_True by (apply elem_of_union; now left).
      rewrite filter_cons_False by (intros Hn; now apply Hn).
      rewrite <- IH. f_equal. symmetry. now apply union_absorb_key.
    + rewrite decide_False by (rewrite elem_of_union; tauto).
      rewrite filter_cons_True by assumption.
      rewrite <- IH. do 2 f_equal. apply union_swap_key.
Qed.

Lemma unique_loop_app (ids : bool) found seq1 seq2 :
  unique_loop found (pairs_of ids (seq1 ++ seq2))
  = unique_loop found (pairs_of ids seq1)
    ++ unique_loop (list_to_set (map (key_of ids) seq1) ∪ found) (pairs_of ids seq2).
Proof.
  revert found. induction seq1 as [|x seq1 IH]; intros found.
  - cbn [app map list_to_set pairs_of unique_loop]. f_equal.
    symmetry. apply (left_id_L ∅ (∪)).
  - cbn [app]. rewrite !unique_loop_cons.
    destruct (decide _) as [Hx|Hx].
    + rewrite IH. f_equal. f_equal. cbn [map list_to_set].
      apply set_eq. intros k. rewrite !elem_of_union, elem_of_singleton.
      split; [tauto|]. intros [[->|Hk]|Hk]; tauto.
    + cbn [app]. rewrite IH. f_equal. f_equal. f_equal. cbn [map list_to_set].
      apply set_eq. intros k. rewrite !elem_of_union, elem_of_singleton. tauto.
Qed.

Lemma unique_loop_fresh_id (ids : bool) found seq :
  NoDup (map (key_of ids) seq) ->
  (forall e, e ∈ seq -> key_of ids e ∉ found) ->
  unique_loop found (pairs_of ids seq) = seq.
Proof.
  revert found. induction seq as [|x seq IH]; intros found Hnd Hfresh; [reflexivity|].
  rewrite unique_loop_cons. cbn [map] in Hnd. apply NoDup_cons in Hnd as [Hx Hnd].
  rewrite decide_False by (apply Hfresh, list_elem_of_here).
  f_equal. apply IH; [exact Hnd|].
  intros e He. apply not_elem_of_union. split.
  - intros Hk. apply elem_of_singleton in Hk. apply Hx.
    rewrite <- Hk. change (map (key_of ids) seq) with (key_of ids <$> seq).
    apply list_elem_of_fmap. exists e. split; [reflexivity|exact He].
  - apply Hfresh. now apply list_elem_of_further.
Qed.

(** X2: [unique] keeps, in the order of the sequence, elements whose keys
    (identities with [ids], values without) are pairwise different, and
    every element of the sequence has its key among them. *)
Theorem unique_one_per_key (seq : list (object V)) (ids : bool) :
  NoDup (map (key_of ids) (unique seq ids))
  /\ sublist (unique seq ids) seq
  /\ (forall e : object V,
        e ∈ seq ->
        exists e' : object V, e' ∈ unique seq ids /\ key_of ids e' = key_of ids e).
Proof.
  unfold unique. split; [apply unique_loop_NoDup|]. split; [apply unique_loop_sublist|].
  intros e He. destruct (unique_loop_covers ids ∅ seq e He) as [Hk|Hk]; [|exact Hk].
  now apply elem_of_empty in Hk.
Qed.

(** X3: [unique] of a concatenation is [unique] of the first part followed
    by those elements of [unique] of the second part whose key does not
    occur in the first part: of several elements with one key the first is
    the one kept. *)
Theorem unique_app (seq1 seq2 : list (object V)) (ids : bool) :
  unique (seq1 ++ seq2) ids
  = unique seq1 ids
    ++ filter (fun e => key_of ids e ∉ map (key_of ids) seq1) (unique seq2 ids).
Proof.
  unfold unique. rewrite unique_loop_app. f_equal.
  rewrite (right_id_L ∅ (∪)).
  rewrite <- (right_id_L ∅ (∪) (list_to_set (map (key_of ids) seq1))).
  rewrite unique_loop_filter.
  apply list_filter_iff. intros e. now rewrite elem_of_list_to_set.
Qed.

(** X4: a sequence whose keys are pairwise different is returned unchanged,
    so that [unique] applied to its own result changes nothing. *)
Theorem unique_fixpoint (seq : list (object V)) (ids : bool) :
  (NoDup (map (key_of ids) seq) -> unique seq ids = seq)
  /\ unique (unique seq ids) ids = unique seq ids.
Proof.
  assert (Hid : forall l : list (object V),
            NoDup (map (key_of ids) l) -> unique l ids = l).
  { intros l Hnd. unfold unique. apply unique_loop_fresh_id; [exact Hnd|].
    intros e _. apply not_elem_of_empty. }
  split; [apply Hid|]. apply Hid. apply unique_loop_NoDup.
Qed.

End Unique.

Lemma unique_one_per_key_witness :
  let a := {| oid := 1; oval := 7%nat |} in
  let b := {| oid := 2; oval := 7%nat |} in
  a ∈ [a; b; a]
  /\ exists e' : object nat, e' ∈ unique [a; b; a] true /\ key_of true e' = key_of true a.
Proof.
  intros a b.
  assert (Ha : a ∈ [a; b; a]) by apply list_elem_of_here.
  split; [exact Ha|].
  exact (proj2 (proj2 (unique_one_per_key [a; b; a] true)) a Ha).
Defined.

Lemma unique_fixpoint_witness :
  let a := {| oid := 1; oval := 7%nat |} in
  let b := {| oid := 2; oval := 7%nat |} in
  NoDup (map (key_of true) [a; b]) /\ unique [a; b] true = [a; b].
Proof.
  intros a b.
  assert (Hnd : NoDup (map (key_of true) [a; b])).
  { cbn. repeat constructor.
    - intros Hin. apply elem_of_cons in Hin as [Hin|Hin]; [discriminate|inversion Hin].
    - intros Hin. inversion Hin. }
  split; [exact Hnd|].
  exact (proj1 (unique_fixpoint [a; b] true) Hnd).
Defined.

End UtilsFacts.

(** ** [regroup] *)

Section RegroupFacts.

Import Utils.

Lemma group_induction (P : group -> Prop) :
  (forall i : Z, P (GIndex i)) ->
  (forall gs : list group, Forall P gs -> P (GTuple gs)) ->
  forall g : group, P g.
Proof.
  intros HI HT. fix IH 1. intros [i|gs]; [apply HI|].
  apply HT. induction gs as [|g gs IHgs]; constructor; [apply IH|exact IHgs].
Qed.

Lemma regroup_item_tuple {A : Type} (flatseq : list A) (gs : list group) :
  regroup_item flatseq (GTuple gs)
  = let* items := collect (regroup_item flatseq) gs in Ok (Tuple items).
Proof.
  cbn [regroup_item]. f_equal.
  induction gs as [|g gs IH]; [reflexivity|].
  cbn [collect]. now rewrite IH.
Qed.

Lemma collect_app {A B : Type} (f : A -> result B) (l1 l2 : list A) :
  collect f (l1 ++ l2)
  = let* b1 := collect f l1 in let* b2 := collect f l2 in Ok (b1 ++ b2).
Proof.
  induction l1 as [|a l1 IH]; cbn [app collect rbind].
  - destruct (collect f l2); reflexivity.
  - destruct (f a) as [b|e]; cbn [rbind]; [|reflexivity].
    rewrite IH. destruct (collect f l1) as [b1|e]; cbn [rbind]; [|reflexivity].
    destruct (collect f l2); reflexivity.
Qed.

Lemma collect_cons_ok {A B : Type} (f : A -> result B) (a : A) (l : list A) (r : list B) :
  collect f (a :: l) = Ok r ->
  exists (b : B) (bs : list B), f a = Ok b /\ collect f l = Ok bs /\ r = b :: bs.
Proof.
  cbn [collect]. destruct (f a) as [b|e]; cbn [rbind]; [|discriminate].
  destruct (collect f l) as [bs|e]; cbn [rbind]; [|discriminate].
  intros [= <-]. now exists b, bs.
Qed.





Lemma regroup_item_shape_leaves {A : Type} (flatseq : list A) (g : group) :
  forall x : nested A,
    regroup_item flatseq g = Ok x ->
    nested_skeleton x = group_skeleton g
    /\ collect (getitem flatseq) (indices_of g) = Ok (leaves x).
Proof.
  induction g as [i|gs IH] using group_induction; intros x.
  - cbn [regroup_item]. destruct (getitem flatseq i) as [a|e] eqn:E; cbn [rbind]; [|discriminate].
    intros [= <-]. cbn [nested_skeleton group_skeleton indices_of leaves collect].
    rewrite E. split; reflexivity.
  - rewrite regroup_item_tuple.
    destruct (collect (regroup_item flatseq) gs) as [items|e] eqn:E; cbn [rbind]; [|discriminate].
    intros [= <-]. cbn [nested_skeleton group_skeleton indices_of leaves].
    revert items E. induction IH as [|g gs Hg _ IHgs]; intros items E.
    + cbn [collect] in E. injection E as <-. split; reflexivity.
    + apply collect_cons_ok in E as [b [bs [Hb [Hbs ->]]]].
      destruct (Hg b Hb) as [Hs Hl]. destruct (IHgs bs Hbs) as [Hss Hls].
      cbn [map concat]. split.
      * injection Hss as Hss. now rewrite Hs, Hss.
      * rewrite collect_app, Hl, Hls. reflexivity.
Qed.

(** X5: the tuple [regroup] returns has the nesting of [groups], and its
    elements read from left to right are the elements of [flatseq] at the
    indices of [groups] read from left to right. *)
Theorem regroup_shape_and_leaves {A : Type} (flatseq : list A) (groups : list group)
    (r : list (nested A)) :
  regroup flatseq groups = Ok r ->
  map nested_skeleton r = map group_skeleton groups
  /\ collect (getitem flatseq) (concat (map indices_of groups))
     = Ok (concat (map leaves r)).
Proof.
  unfold regroup. intros Hr.
  assert (Ht : regroup_item flatseq (GTuple groups) = Ok (Tuple r)).
  { rewrite regroup_item_tuple, Hr. reflexivity. }
  apply regroup_item_shape_leaves in Ht as [Hs Hl].
  cbn [nested_skeleton group_skeleton indices_of leaves] in Hs, Hl.
  injection Hs as Hs. split; assumption.
Qed.

Lemma regroup_shape_and_leaves_witness :
  regroup [10; 20; 30]%nat [GTuple [GIndex 2; GIndex (-3)]; GIndex 1]
  = Ok [Tuple [Item 30; Item 10]; Item 20]%nat
  /\ map nested_skeleton [Tuple [Item 30; Item 10]; Item 20]%nat
     = map group_skeleton [GTuple [GIndex 2; GIndex (-3)]; GIndex 1]
  /\ collect (getitem [10; 20; 30]%nat)
       (concat (map indices_of [GTuple [GIndex 2; GIndex (-3)]; GIndex 1]))
     = Ok (concat (map leaves [Tuple [Item 30; Item 10]; Item 20]%nat)).
Proof.
  assert (H : regroup [10; 20; 30]%nat [GTuple [GIndex 2; GIndex (-3)]; GIndex 1]
              = Ok [Tuple [Item 30; Item 10]; Item 20]%nat) by reflexivity.
  split; [exact H|].
  exact (regroup_shape_and_leaves _ _ _ H).
Defined.





Lemma getitem_map {A B : Type} (f : A -> B) (flatseq : list A) (i : Z) :
  getitem (map f flatseq) i
  = match getitem flatseq i with Ok a => Ok (f a) | Raise e => Raise e end.
Proof.
  unfold getitem. cbv zeta. rewrite length_map.
  destruct (_ <? 0)%Z; [reflexivity|].
  rewrite nth_error_map. destruct (nth_error flatseq _); reflexivity.
Qed.

Lemma regroup_item_map {A B : Type} (f : A -> B) (flatseq : list A) (g : group) :
  regroup_item (map f flatseq) g
  = match regroup_item flatseq g with
    | Ok x => Ok (nested_map f x)
    | Raise e => Raise e
    end.
Proof.
  induction g as [i|gs IH] using group_induction.
  - cbn [regroup_item]. rewrite getitem_map.
    destruct (getitem flatseq i); reflexivity.
  - rewrite !regroup_item_tuple.
    assert (Hc : collect (regroup_item (map f flatseq)) gs
                 = match collect (regroup_item flatseq) gs with
                   | Ok r => Ok (map (nested_map f) r)
                   | Raise e => Raise e
                   end).
    { induction IH as [|g gs Hg _ IHgs]; [reflexivity|].
      cbn [collect]. rewrite Hg, IHgs.
      destruct (regroup_item flatseq g); cbn [rbind]; [|reflexivity].
      destruct (collect (regroup_item flatseq) gs); reflexivity. }
    rewrite Hc. destruct (collect (regroup_item flatseq) gs); reflexivity.
Qed.

(** X7: [regroup] commutes with a change of the elements: regrouping
    [f(x)] for every [x] of [flatseq] gives the regrouped [flatseq] with [f]
    applied to every element, and fails exactly when that one does. *)
Theorem regroup_map {A B : Type} (f : A -> B) (flatseq : list A) (groups : list group) :
  regroup (map f flatseq) groups
  = match regroup flatseq groups with
    | Ok r => Ok (map (nested_map f) r)
    | Raise e => Raise e
    end.
Proof.
  pose proof (regroup_item_map f flatseq (GTuple groups)) as H.
  rewrite !regroup_item_tuple in H. unfold regroup.
  destruct (collect (regroup_item (map f flatseq)) groups);
    destruct (collect (regroup_item flatseq) groups); cbn [rbind nested_map] in H;
    congruence.
Qed.

Lemma getitem_middle {A : Type} (pre rest : list A) (a : A) :
  getitem (pre ++ a :: rest) (Z.of_nat (length pre)) = Ok a
  /\ getitem (pre ++ a :: rest)
       (Z.of_nat (length pre) - Z.of_nat (length (pre ++ a :: rest))) = Ok a.
Proof.
  assert (Hn : nth_error (pre ++ a :: rest) (length pre) = Some a).
  { rewrite nth_error_app2 by lia. now rewrite Nat.sub_diag. }
  unfold getitem. cbv zeta. rewrite length_app. cbn [length]. split.
  - destruct (Z.ltb_spec (Z.of_nat (length pre)) 0); [lia|].
    destruct (Z.ltb_spec (Z.of_nat (length pre)) 0); [lia|].
    now rewrite Nat2Z.id, Hn.
  - destruct (Z.ltb_spec (Z.of_nat (length pre)
                          - Z.of_nat (length pre + S (length rest))) 0); [|lia].
    replace (Z.of_nat (length pre + S (length rest))
             + (Z.of_nat (length pre) - Z.of_nat (length pre + S (length rest))))%Z
      with (Z.of_nat (length pre)) by lia.
    destruct (Z.ltb_spec (Z.of_nat (length pre)) 0); [lia|].
    now rewrite Nat2Z.id, Hn.
Qed.

Lemma regroup_range {A : Type} (shift : Z) (pre rest : list A) :
  shift = 0%Z \/ shift = Z.of_nat (length (pre ++ rest)) ->
  collect (regroup_item (pre ++ rest))
    (map (fun k => GIndex (Z.of_nat k - shift)) (seq (length pre) (length rest)))
  = Ok (map Item rest).
Proof.
  revert pre. induction rest as [|a rest IH]; intros pre Hshift; [reflexivity|].
  cbn [length seq map collect regroup_item].
  destruct (getitem_middle pre rest a) as [H0 Hn].
  assert (Hget : getitem (pre ++ a :: rest) (Z.of_nat (length pre) - shift) = Ok a).
  { destruct Hshift as [-> | ->]; [now rewrite Z.sub_0_r|exact Hn]. }
  rewrite Hget. cbn [rbind].
  specialize (IH (pre ++ [a])).
  assert (Hlen : length (pre ++ [a]) = S (length pre))
    by (rewrite length_app; cbn [length]; lia).
  rewrite <- app_assoc in IH. cbn [app] in IH. rewrite Hlen in IH.
  rewrite IH by exact Hshift. reflexivity.
Qed.

(** X8: regrouping by the indices [0, ..., len - 1], and just as well by
    the negative indices [-len, ..., -1], returns the elements of [flatseq]
    in their order. *)
Theorem regroup_all_indices {A : Type} (flatseq : list A) :
  regroup flatseq (map (fun k => GIndex (Z.of_nat k)) (seq 0 (length flatseq)))
  = Ok (map Item flatseq)
  /\ regroup flatseq
       (map (fun k => GIndex (Z.of_nat k - Z.of_nat (length flatseq)))
            (seq 0 (length flatseq)))
     = Ok (map Item flatseq).
Proof.
  unfold regroup. split.
  - rewrite <- (regroup_range 0 [] flatseq) by (now left).
    cbn [app length]. f_equal. apply map_ext. intros k. now rewrite Z.sub_0_r.
  - now rewrite <- (regroup_range (Z.of_nat (length flatseq)) [] flatseq) by (now right).
Qed.

End RegroupFacts.

(** ** Attribute access by dotted paths *)

Section AttrFacts.

Import Attrs.

Lemma split_dot_not_nil (attr : string) : split_dot attr <> [].
Proof.
  induction attr as [|c rest IH]; cbn [split_dot]; [discriminate|].
  destruct (Ascii.eqb c dot); [discriminate|].
  destruct (split_dot rest); discriminate.
Qed.

Lemma append_nil_l (s : string) : EmptyString +:+ s = s.
Proof. reflexivity. Qed.

Lemma append_cons (c : ascii) (r s : string) : String c r +:+ s = String c (r +:+ s).
Proof. reflexivity. Qed.

Lemma split_dot_app (a b : string) :
  split_dot (a +:+ String dot b) = split_dot a ++ split_dot b.
Proof.
  induction a as [|c rest IH].
  - rewrite append_nil_l. cbn [split_dot]. rewrite Ascii.eqb_refl. reflexivity.
  - rewrite append_cons. cbn [split_dot].
    destruct (Ascii.eqb c dot); [now rewrite IH|].
    rewrite IH. pose proof (split_dot_not_nil rest) as Hne.
    destruct (split_dot rest); [congruence|reflexivity].
Qed.

Lemma rsplit_dot_none (attr : string) :
  rsplit_dot attr = None -> split_dot attr = [attr].
Proof.
  induction attr as [|c rest IH]; cbn [rsplit_dot split_dot]; [reflexivity|].
  destruct (rsplit_dot rest) as [[pre post]|]; [discriminate|].
  destruct (Ascii.eqb c dot); [discriminate|].
  intros _. now rewrite IH.
Qed.

Lemma rsplit_dot_some (attr pre post : string) :
  rsplit_dot attr = Some (pre, post) ->
  attr = pre +:+ String dot post /\ split_dot post = [post].
Proof.
  revert pre. induction attr as [|c rest IH]; intros pre; cbn [rsplit_dot]; [discriminate|].
  destruct (rsplit_dot rest) as [[pre' post']|] eqn:E.
  - intros [= <- <-]. destruct (IH pre' eq_refl) as [-> Hp]. split; [reflexivity|exact Hp].
  - destruct (Ascii.eqb_spec c dot) as [->|]; [|discriminate].
    intros [= <- <-]. split; [reflexivity|]. now apply rsplit_dot_none.
Qed.

Lemma split_dot_rpartition (attr : string) :
  match rsplit_dot attr with
  | Some _ => split_dot attr
              = split_dot (fst (rpartition attr)) ++ [snd (rpartition attr)]
  | None => rpartition attr = (EmptyString, attr) /\ split_dot attr = [attr]
  end.
Proof.
  unfold rpartition. destruct (rsplit_dot attr) as [[pre post]|] eqn:E; cbn [fst snd].
  - apply rsplit_dot_some in E as [-> Hp]. now rewrite split_dot_app, Hp.
  - split; [reflexivity|now apply rsplit_dot_none].
Qed.

Lemma walk_app (h : heap) (obj : value) (n1 n2 : list string) :
  walk h obj (n1 ++ n2) = abind (walk h obj n1) (fun v => walk h v n2).
Proof.
  revert obj. induction n1 as [|name n1 IH]; intros obj; [reflexivity|].
  cbn [app walk]. destruct (getattr h obj name); [apply IH|reflexivity].
Qed.

Lemma rgetattr_nil (h : heap) (obj : value) (attr : string) :
  rgetattr h obj attr [] = walk h obj (split_dot attr).
Proof.
  unfold rgetattr. destruct (walk h obj (split_dot attr)) as [v|[|e]]; reflexivity.
Qed.

Lemma getattr_frame (h : heap) (l : nat) (d : gmap string value) (name : string)
    (val : value) (l0 : nat) (n : string) :
  h !! l = Some d ->
  (l0, n) <> (l, name) ->
  getattr (<[l := <[name := val]> d]> h) (VRef l0) n = getattr h (VRef l0) n.
Proof.
  intros Hd Hne. unfold getattr.
  destruct (decide (l0 = l)) as [->|Hl].
  - rewrite lookup_insert_eq, Hd.
    rewrite lookup_insert_ne by congruence. reflexivity.
  - rewrite lookup_insert_ne by congruence. reflexivity.
Qed.

Lemma walk_frame (h : heap) (l : nat) (d : gmap string value) (name : string)
    (val : value) (obj : value) (names : list string) :
  h !! l = Some d ->
  (l, name) ∉ reads h obj names ->
  walk (<[l := <[name := val]> d]> h) obj names = walk h obj names.
Proof.
  intros Hd. revert obj. induction names as [|n names IH]; intros obj Hr; [reflexivity|].
  cbn [walk]. destruct obj as [| | |l0]; try reflexivity.
  cbn [reads] in Hr. apply not_elem_of_cons in Hr as [Hne Hr].
  rewrite (getattr_frame h l d name val l0 n Hd) by congruence.
  destruct (getattr h (VRef l0) n); [now apply IH|reflexivity].
Qed.

Lemma setattr_done (h h' : heap) (target : value) (name : string) (val : value) :
  setattr h target name val = Done h' ->
  exists (l : nat) (d : gmap string value),
    target = VRef l /\ h !! l = Some d /\ h' = <[l := <[name := val]> d]> h.
Proof.
  unfold setattr. destruct target as [| | |l]; try discriminate.
  destruct (h !! l) as [d|] eqn:Hd; [|discriminate].
  intros [= <-]. now exists l, d.
Qed.

Lemma rsetattr_done (h h' : heap) (obj : value) (attr : string) (val : value) :
  rsetattr h obj attr val = Done h' ->
  exists (l : nat) (d : gmap string value),
    rsetattr_target h obj attr = Done (VRef l)
    /\ written_slot h obj attr = Some (l, snd (rpartition attr))
    /\ h !! l = Some d
    /\ h' = <[l := <[snd (rpartition attr) := val]> d]> h.
Proof.
  unfold rsetattr, written_slot.
  destruct (rsetattr_target h obj attr) as [target|e]; cbn [abind]; [|discriminate].
  intros Hs. apply setattr_done in Hs as [l [d [-> [Hd ->]]]].
  now exists l, d.
Qed.

Lemma getattr_written (h : heap) (l : nat) (d : gmap string value) (name : string)
    (val : value) :
  getattr (<[l := <[name := val]> d]> h) (VRef l) name = Done val.
Proof. unfold getattr. now rewrite !lookup_insert_eq. Qed.

(** X9: after [rsetattr(obj, attr, val)] has returned, [rgetattr(obj, attr)]
    returns [val], provided [attr] does not start with a dot and the
    assigned slot is not one of the slots read on the way to the object
    assigned to. *)
Theorem rsetattr_then_rgetattr (h h' : heap) (obj : value) (attr : string)
    (val : value) (default : list value) :
  (forall rest : string, attr <> String dot rest) ->
  rsetattr h obj attr val = Done h' ->
  (forall slot : nat * string,
     written_slot h obj attr = Some slot -> slot ∉ prefix_reads h obj attr) ->
  rgetattr h' obj attr default = Done val.
Proof.
  intros Hdot Hset Hfresh.
  apply rsetattr_done in Hset as [l [d [Ht [Hw [Hd ->]]]]].
  specialize (Hfresh _ Hw).
  assert (Hwalk : walk (<[l := <[snd (rpartition attr) := val]> d]> h) obj (split_dot attr)
                  = Done val).
  { pose proof (split_dot_rpartition attr) as Hsp.
    unfold rsetattr_target, prefix_reads in *.
    destruct (rsplit_dot attr) as [[pre post]|] eqn:E.
    - assert (Hp : rpartition attr = (pre, post)) by (unfold rpartition; now rewrite E).
      rewrite Hp in *. cbn [fst snd] in *.
      destruct pre as [|c pre].
      + apply rsplit_dot_some in E as [-> _]. now destruct (Hdot post).
      + rewrite Hsp, walk_app. rewrite rgetattr_nil in Ht.
        rewrite (walk_frame h l d post val obj _ Hd Hfresh), Ht. cbn [abind walk].
        now rewrite getattr_written.
    - destruct Hsp as [Hp Hs]. rewrite Hp in *. cbn [fst snd] in *.
      injection Ht as ->. rewrite Hs. cbn [walk]. now rewrite getattr_written. }
  unfold rgetattr. now rewrite Hwalk.
Qed.

(** The condition on the slots is needed: where [obj.a] is [obj] itself,
    [rsetattr(obj, "a.a", 5)] overwrites the attribute it has just followed,
    and [rgetattr(obj, "a.a")] then raises. *)
Lemma rsetattr_aliasing_example :
  let h : heap := {[ 1%nat := {[ "a"%string := VRef 1 ]} ]} in
  exists h' : heap,
    rsetattr h (VRef 1) "a.a" (VInt 5) = Done h'
    /\ rgetattr h' (VRef 1) "a.a" [] = Except AttributeError
    /\ rgetattr h' (VRef 1) "a" [] = Done (VInt 5).
Proof.
  intros h. eexists. split; [vm_compute; reflexivity|].
  split; vm_compute; reflexivity.
Qed.

Lemma rsetattr_then_rgetattr_witness :
  let h : heap := {[ 1%nat := {[ "a"%string := VRef 2 ]}; 2%nat := ∅ ]} in
  exists h' : heap,
    rsetattr h (VRef 1) "a.b" (VInt 5) = Done h'
    /\ rgetattr h' (VRef 1) "a.b" [] = Done (VInt 5).
Proof.
  intros h.
  assert (Hset : exists h', rsetattr h (VRef 1) "a.b" (VInt 5) = Done h')
    by (eexists; vm_compute; reflexivity).
  destruct Hset as [h' Hset]. exists h'. split; [exact Hset|].
  apply (rsetattr_then_rgetattr h h' (VRef 1) "a.b" (VInt 5) []).
  - intros rest. discriminate.
  - exact Hset.
  - intros slot Hw. vm_compute in Hw. injection Hw as <-.
    vm_compute. intros Hin.
    apply elem_of_cons in Hin as [Hin|Hin]; [discriminate|inversion Hin].
Defined.

(** X10: [rsetattr] changes one slot of one object: the heap keeps its
    objects, and every [rgetattr], from any object and along any path, that
    does not read the assigned slot returns what it returned before. *)
Theorem rsetattr_frame (h h' : heap) (obj : value) (attr : string) (val : value)
    (slot : nat * string) (obj' : value) (attr' : string) (default : list value) :
  rsetattr h obj attr val = Done h' ->
  written_slot h obj attr = Some slot ->
  slot ∉ reads h obj' (split_dot attr') ->
  dom h' = dom h
  /\ rgetattr h' obj' attr' default = rgetattr h obj' attr' default.
Proof.
  intros Hset Hw Hfresh.
  apply rsetattr_done in Hset as [l [d [_ [Hw' [Hd ->]]]]].
  rewrite Hw in Hw'. injection Hw' as ->. split.
  - rewrite dom_insert_L. apply elem_of_dom_2 in Hd.
    apply set_eq. intros x. rewrite elem_of_union, elem_of_singleton.
    split; [intros [->|Hx]; assumption|tauto].
  - unfold rgetattr. now rewrite (walk_frame h l d _ val obj' _ Hd Hfresh).
Qed.

Lemma rsetattr_frame_witness :
  let h : heap := {[ 1%nat := {[ "a"%string := VRef 2; "c"%string := VInt 7 ]};
                     2%nat := ∅ ]} in
  exists h' : heap,
    rsetattr h (VRef 1) "a.b" (VInt 5) = Done h'
    /\ written_slot h (VRef 1) "a.b" = Some (2%nat, "b"%string)
    /\ dom h' = dom h
    /\ rgetattr h' (VRef 1) "c" [] = rgetattr h (VRef 1) "c" [].
Proof.
  intros h.
  assert (Hset : exists h', rsetattr h (VRef 1) "a.b" (VInt 5) = Done h')
    by (eexists; vm_compute; reflexivity).
  destruct Hset as [h' Hset]. exists h'. split; [exact Hset|].
  assert (Hw : written_slot h (VRef 1) "a.b" = Some (2%nat, "b"%string))
    by (vm_compute; reflexivity).
  split; [exact Hw|].
  apply (rsetattr_frame h h' (VRef 1) "a.b" (VInt 5) _ (VRef 1) "c" [] Hset Hw).
  vm_compute. intros Hin.
  apply elem_of_cons in Hin as [Hin|Hin]; [discriminate|inversion Hin].
Defined.

(** X11: with a default, [rgetattr] never raises: it returns what the path
    leads to, or the first default when an attribute on the path is
    missing; further defaults are ignored. *)
Theorem rgetattr_default (h : heap) (obj : value) (attr : string) (d : value)
    (others : list value) :
  rgetattr h obj attr (d :: others)
  = match rgetattr h obj attr [] with
    | Done v => Done v
    | Except _ => Done d
    end
  /\ rgetattr h obj attr (d :: others) = rgetattr h obj attr [d].
Proof.
  rewrite rgetattr_nil. unfold rgetattr.
  assert (Herr : forall (names : list string) (v : value) (e : error),
            walk h v names = Except e -> e = AttributeError).
  { induction names as [|n names IH]; intros v e; cbn [walk]; [discriminate|].
    destruct (getattr h v n) as [v'|e'] eqn:E; [apply IH|].
    intros [= <-]. unfold getattr in E.
    destruct v as [| | |l]; try (now injection E as <-).
    destruct (h !! l) as [dict|]; [|now injection E as <-].
    destruct (dict !! n); [discriminate|now injection E as <-]. }
  destruct (walk h obj (split_dot attr)) as [v|e] eqn:E; [split; reflexivity|].
  rewrite (Herr _ _ _ E). split; reflexivity.
Qed.

(** X12: a dotted path is followed piece by piece: [rgetattr] along
    [a + "." + b] is [rgetattr] along [a] followed by [rgetattr] along [b]
    from the object found. *)
Theorem rgetattr_concat (h : heap) (obj : value) (a b : string) :
  rgetattr h obj (a +:+ String dot b) []
  = abind (rgetattr h obj a []) (fun v => rgetattr h v b []).
Proof.
  rewrite !rgetattr_nil, split_dot_app, walk_app.
  destruct (walk h obj (split_dot a)); cbn [abind]; [now rewrite rgetattr_nil|reflexivity].
Qed.

(** X13: a dot at the very start of a path that holds no other dot is
    dropped by [rsetattr], which then assigns on [obj] itself, but not by
    [rgetattr], which first follows the attribute with the empty name. *)
Theorem leading_dot_asymmetry (h : heap) (obj : value) (name : string) (val : value) :
  rsplit_dot name = None ->
  rsetattr h obj (String dot name) val = setattr h obj name val
  /\ rgetattr h obj (String dot name) []
     = abind (getattr h obj EmptyString) (fun v => getattr h v name).
Proof.
  intros Hn. split.
  - unfold rsetattr, rsetattr_target, rpartition. cbn [rsplit_dot].
    rewrite Hn, Ascii.eqb_refl. reflexivity.
  - rewrite rgetattr_nil. cbn [split_dot]. rewrite Ascii.eqb_refl.
    rewrite (rsplit_dot_none name Hn). cbn [walk abind].
    destruct (getattr h obj EmptyString) as [v|]; cbn [abind]; [|reflexivity].
    destruct (getattr h v name); reflexivity.
Qed.

Lemma leading_dot_asymmetry_witness :
  let h : heap := {[ 1%nat := ∅ ]} in
  rsplit_dot "x" = None
  /\ rsetattr h (VRef 1) ".x" (VInt 5) = setattr h (VRef 1) "x" (VInt 5)
  /\ rgetattr h (VRef 1) ".x" []
     = abind (getattr h (VRef 1) EmptyString) (fun v => getattr h v "x").
Proof.
  intros h. split; [reflexivity|].
  exact (leading_dot_asymmetry h (VRef 1) "x" (VInt 5) eq_refl).
Defined.

(** X14: a proxy without further accessors hands out the attribute of the
    wrapped object followed by its accessor: [Proxy(inner, acc).attr] is
    [inner.attr.acc], and [inner.attr] when the accessor is [None] or
    empty. *)
Theorem Proxy_single_accessor (h : heap) (obj : value) (attr : string) :
  (forall (c : ascii) (acc : string),
     Proxy_getattr h (Proxy_init obj (AccStr (String c acc)) []) attr
     = abind (rgetattr h obj attr [])
         (fun v => abind (rgetattr h v (String c acc) []) (fun r => Done (inl r))))
  /\ Proxy_getattr h (Proxy_init obj AccNone []) attr
     = abind (rgetattr h obj attr []) (fun r => Done (inl r))
  /\ Proxy_getattr h (Proxy_init obj (AccStr EmptyString) []) attr
     = abind (rgetattr h obj attr []) (fun r => Done (inl r)).
Proof.
  split; [|split; reflexivity].
  intros c acc. unfold Proxy_getattr, Proxy_init. cbn [firstacc otheracc inner truthy].
  rewrite rgetattr_concat.
  destruct (rgetattr h obj attr []); reflexivity.
Qed.

Lemma access_getattr (h : heap) (p : Proxy) (attr : string) :
  own_attribute attr = false ->
  access h (Wrapped p) attr
  = abind (Proxy_getattr h p attr)
      (fun r => Done (match r with inl v => Plain v | inr q => Wrapped q end)).
Proof.
  unfold own_attribute, access. intros H.
  apply orb_false_iff in H as [H H3]. apply orb_false_iff in H as [H1 H2].
  now rewrite H1, H2, H3.
Qed.

Lemma access_chain_keeps_proxy (h : heap) (attrs : list string) :
  forall (p : Proxy) (r : outcome),
    otheracc p <> [] ->
    Forall (fun a => own_attribute a = false) attrs ->
    access_chain h (Wrapped p) attrs = Done r ->
    exists q : Proxy, r = Wrapped q /\ otheracc q <> [].
Proof.
  induction attrs as [|attr attrs IH]; intros p r Hp Hattrs.
  - cbn [access_chain]. intros [= <-]. now exists p.
  - apply Forall_cons_1 in Hattrs as [Hattr Hattrs].
    cbn [access_chain]. rewrite (access_getattr h p attr Hattr). unfold Proxy_getattr.
    destruct (if truthy (firstacc p) then _ else _) as [res|e]; cbn [abind]; [|discriminate].
    destruct (otheracc p) as [|first others]; [congruence|]. cbn [abind].
    apply IH; [discriminate|exact Hattrs].
Qed.

(** X15: a proxy built with further accessors hands out an attribute of the
    wrapped object through no name but its own: [inner] is the wrapped
    object itself, and along any chain of accesses by other names than
    [inner], [firstacc] and [otheracc], each access that returns returns
    another proxy, which again holds further accessors. *)
Theorem Proxy_chain_never_unwraps (h : heap) (obj : value) (firstacc : accessor)
    (second : accessor) (others : list accessor) :
  access h (Wrapped (Proxy_init obj firstacc (second :: others))) "inner" = Done (Plain obj)
  /\ forall (attrs : list string) (r : outcome),
       Forall (fun a => own_attribute a = false) attrs ->
       access_chain h (Wrapped (Proxy_init obj firstacc (second :: others))) attrs = Done r ->
       exists q : Proxy, r = Wrapped q /\ otheracc q <> [].
Proof.
  split; [reflexivity|].
  intros attrs r. apply access_chain_keeps_proxy. discriminate.
Qed.

Lemma Proxy_chain_never_unwraps_witness :
  let h : heap := {[ 1%nat := {[ "w"%string := VRef 2 ]};
                     2%nat := {[ "a"%string := VRef 3 ]};
                     3%nat := {[ "x"%string := VRef 4 ]};
                     4%nat := {[ "b"%string := VInt 9 ]} ]} in
  Forall (fun a => own_attribute a = false) ["w"; "x"]%string
  /\ access h (Wrapped (Proxy_init (VRef 1) (AccStr "a") [AccStr "b"])) "inner"
     = Done (Plain (VRef 1))
  /\ exists q : Proxy,
       access_chain h (Wrapped (Proxy_init (VRef 1) (AccStr "a") [AccStr "b"]))
         ["w"; "x"]%string
       = Done (Wrapped q)
       /\ otheracc q <> [].
Proof.
  intros h.
  assert (Hn : Forall (fun a => own_attribute a = false) ["w"; "x"]%string)
    by (repeat constructor).
  assert (Hc : exists r, access_chain h
                 (Wrapped (Proxy_init (VRef 1) (AccStr "a") [AccStr "b"])) ["w"; "x"]%string
               = Done r) by (eexists; vm_compute; reflexivity).
  destruct Hc as [r Hc].
  destruct (Proxy_chain_never_unwraps h (VRef 1) (AccStr "a") (AccStr "b") [])
    as [Hinner Hchain].
  split; [exact Hn|]. split; [exact Hinner|].
  destruct (Hchain ["w"; "x"]%string r Hn Hc) as [q [-> Hq]].
  exists q. split; [exact Hc|exact Hq].
Defined.

End AttrFacts.

(** ** [rescale] *)

Section RescaleFacts.

Import Rescale.

Lemma fold_min_spec (rest : list Q) (x : Q) :
  fold_left Qmin rest x <= x
  /\ Forall (fun y => fold_left Qmin rest x <= y) rest
  /\ Exists (fun y => y == fold_left Qmin rest x) (x :: rest).
Proof.
  revert x. induction rest as [|y rest IH]; intros x; cbn [fold_left].
  - split; [apply Qle_refl|]. split; [constructor|]. left. reflexivity.
  - destruct (IH (Qmin x y)) as [H1 [H2 H3]].
    pose proof (Q.le_min_l x y) as Hl. pose proof (Q.le_min_r x y) as Hr.
    split; [lra|]. split; [constructor; [lra|exact H2]|].
    apply Exists_cons in H3 as [H3|H3].
    + destruct (Q.min_dec x y) as [Hm|Hm].
      * left. rewrite <- H3. now symmetry.
      * right. left. rewrite <- H3. now symmetry.
    + right. right. exact H3.
Qed.

Lemma fold_max_spec (rest : list Q) (x : Q) :
  x <= fold_left Qmax rest x
  /\ Forall (fun y => y <= fold_left Qmax rest x) rest
  /\ Exists (fun y => y == fold_left Qmax rest x) (x :: rest).
Proof.
  revert x. induction rest as [|y rest IH]; intros x; cbn [fold_left].
  - split; [apply Qle_refl|]. split; [constructor|]. left. reflexivity.
  - destruct (IH (Qmax x y)) as [H1 [H2 H3]].
    pose proof (Q.le_max_l x y) as Hl. pose proof (Q.le_max_r x y) as Hr.
    split; [lra|]. split; [constructor; [lra|exact H2]|].
    apply Exists_cons in H3 as [H3|H3].
    + destruct (Q.max_dec x y) as [Hm|Hm].
      * left. rewrite <- H3. now symmetry.
      * right. left. rewrite <- H3. now symmetry.
    + right. right. exact H3.
Qed.

Lemma amin_spec (data : list Q) (lo : Q) :
  amin data = Ok lo ->
  Forall (fun x => lo <= x) data /\ Exists (fun x => x == lo) data.
Proof.
  destruct data as [|x rest]; [discriminate|]. cbn [amin]. intros [= <-].
  destruct (fold_min_spec rest x) as [H1 [H2 H3]].
  split; [constructor; assumption|exact H3].
Qed.

Lemma amax_spec (data : list Q) (hi : Q) :
  amax data = Ok hi ->
  Forall (fun x => x <= hi) data /\ Exists (fun x => x == hi) data.
Proof.
  destruct data as [|x rest]; [discriminate|]. cbn [amax]. intros [= <-].
  destruct (fold_max_spec rest x) as [H1 [H2 H3]].
  split; [constructor; assumption|exact H3].
Qed.

(** X18: data without entries makes [rescale] raise as soon as a source
    bound has to be computed, and constant data with computed source bounds
    gives the undefined value at every entry, whatever the target bounds. *)
Theorem rescale_degenerate :
  (forall resmin resmax srcmax : option Q,
     rescale [] resmin resmax None srcmax = Raise RuntimeError)
  /\ (forall (resmin resmax : option Q) (srcmin : Q),
        rescale [] resmin resmax (Some srcmin) None = Raise RuntimeError)
  /\ (forall (data : list Q) (resmin resmax : option Q) (c c' : Q),
        amin data = Ok c ->
        amax data = Ok c' ->
        c == c' ->
        rescale data resmin resmax None None = Ok (map (fun _ => NotNumber) data)).
Proof.
  split; [reflexivity|]. split; [reflexivity|].
  intros data resmin resmax c c' Hlo Hhi Hc. unfold rescale. rewrite Hlo, Hhi.
  cbn [rbind]. f_equal. apply map_ext_in. intros x Hx.
  destruct (amin_spec data c Hlo) as [Hge _].
  destruct (amax_spec data c' Hhi) as [Hle _].
  rewrite List.Forall_forall in Hge, Hle.
  specialize (Hge x Hx). specialize (Hle x Hx).
  assert (Hx0 : x - c == 0) by lra.
  unfold xdiv.
  assert (Hd : Qeq_bool (c' - c) 0 = true) by (apply Qeq_bool_iff; lra).
  assert (Hn : forall w : Q, Qeq_bool ((x - c) * w) 0 = true).
  { intros w. apply Qeq_bool_iff. rewrite Hx0. ring. }
  rewrite Hd, Hn. reflexivity.
Qed.

Lemma rescale_degenerate_witness :
  amin [2; 2] = Ok 2
  /\ amax [2; 2] = Ok 2
  /\ 2 == 2
  /\ rescale [2; 2] (Some 0) (Some 1) None None = Ok [NotNumber; NotNumber].
Proof.
  assert (H1 : amin [2; 2] = Ok 2) by reflexivity.
  assert (H2 : amax [2; 2] = Ok 2) by reflexivity.
  assert (H3 : 2 == 2) by reflexivity.
  split; [exact H1|]. split; [exact H2|]. split; [exact H3|].
  destruct rescale_degenerate as [_ [_ H]].
  exact (H [2; 2] (Some 0) (Some 1) 2 2 H1 H2 H3).
Defined.

End RescaleFacts.

(** ** Iterated exponential smoothing *)

Section SmoothingMore.

Import Float Math Smoothing.

Lemma smoothing_factor_one (x l : float) :
  finite32 x -> finite32 l -> exponential_smoothing x (Some l) (Fin 1) = x.
Proof.
  intros [q [-> Hq]] [ql [-> _]]. cbn [exponential_smoothing].
  change (cast binary32 (Fin 1)) with (Fin 1).
  change (cast binary32 (fsub binary64 (Fin 1) (Fin 1))) with (Fin 0).
  cbn [fmul]. rewrite (round_comp binary32 (1 * q) q) by ring.
  rewrite (round_zero binary32 (0 * ql)) by ring.
  rewrite Hq. cbn [fadd]. rewrite (round_comp binary32 (q + 0) q) by ring. exact Hq.
Qed.

Lemma smoothing_factor_zero (x l : float) :
  finite32 x -> finite32 l -> exponential_smoothing x (Some l) (Fin 0) = l.
Proof.
  intros [q [-> _]] [ql [-> Hl]]. cbn [exponential_smoothing].
  change (cast binary32 (Fin 0)) with (Fin 0).
  change (cast binary32 (fsub binary64 (Fin 1) (Fin 0))) with (Fin 1).
  cbn [fmul]. rewrite (round_zero binary32 (0 * q)) by ring.
  rewrite (round_comp binary32 (1 * ql) ql) by ring.
  rewrite Hl. cbn [fadd]. rewrite (round_comp binary32 (0 + ql) ql) by ring. exact Hl.
Qed.

Lemma smooth_all_one (obs : list float) :
  forall level : option float,
    match level with Some l => finite32 l | None => True end ->
    Forall finite32 obs ->
    smooth_all (Fin 1) level obs = fold_left (fun _ x => Some x) obs level.
Proof.
  induction obs as [|x obs IH]; intros level Hl Hobs; [reflexivity|].
  apply Forall_cons_1 in Hobs as [Hx Hobs].
  cbn [smooth_all fold_left].
  assert (Hstep : exponential_smoothing x level (Fin 1) = x).
  { destruct level as [l|]; [now apply smoothing_factor_one|reflexivity]. }
  rewrite Hstep. now apply IH.
Qed.

Lemma smooth_all_zero (obs : list float) (l : float) :
  finite32 l -> Forall finite32 obs -> smooth_all (Fin 0) (Some l) obs = Some l.
Proof.
  intros Hl Hobs. induction Hobs as [|x obs Hx _ IH]; [reflexivity|].
  cbn [smooth_all fold_left]. rewrite smoothing_factor_zero by assumption. exact IH.
Qed.

(** X20: the two extreme factors on finite float32 observations, from the
    state [None]: with the factor 1.0 the level is the last observation,
    with the factor 0.0 it is the first observation for ever; nothing is
    rounded in either case. *)
Theorem smoothing_extremes :
  (forall (obs : list float) (x : float),
     Forall finite32 (obs ++ [x]) ->
     smooth_all (Fin 1) None (obs ++ [x]) = Some x)
  /\ (forall (obs : list float) (x : float),
        Forall finite32 (x :: obs) ->
        smooth_all (Fin 0) None (x :: obs) = Some x).
Proof.
  split.
  - intros obs x Hall. rewrite smooth_all_one by (exact I || exact Hall).
    now rewrite fold_left_app.
  - intros obs x Hall. apply Forall_cons_1 in Hall as [Hx Hobs].
    cbn [smooth_all fold_left exponential_smoothing]. now apply smooth_all_zero.
Qed.

Lemma smoothing_extremes_witness :
  Forall finite32 ([Fin 4; Fin (1 # 4)] ++ [Fin (5 # 2)])
  /\ smooth_all (Fin 1) None ([Fin 4; Fin (1 # 4)] ++ [Fin (5 # 2)]) = Some (Fin (5 # 2))
  /\ Forall finite32 (Fin 4 :: [Fin (1 # 4); Fin (5 # 2)])
  /\ smooth_all (Fin 0) None (Fin 4 :: [Fin (1 # 4); Fin (5 # 2)]) = Some (Fin 4).
Proof.
  assert (H4 : finite32 (Fin 4)) by (exists 4; split; reflexivity).
  assert (Hq : finite32 (Fin (1 # 4))) by (exists (1 # 4); split; reflexivity).
  assert (Hh : finite32 (Fin (5 # 2))) by (exists (5 # 2); split; reflexivity).
  assert (H1 : Forall finite32 ([Fin 4; Fin (1 # 4)] ++ [Fin (5 # 2)]))
    by (repeat constructor; assumption).
  assert (H0 : Forall finite32 (Fin 4 :: [Fin (1 # 4); Fin (5 # 2)]))
    by (repeat constructor; assumption).
  destruct smoothing_extremes as [Hone Hzero].
  split; [exact H1|]. split; [exact (Hone _ _ H1)|].
  split; [exact H0|exact (Hzero _ _ H0)].
Defined.

(** With a factor in between, rounding shows: fed the observation 3.0 at
    the level 3.0 with the factor 0.1, the level becomes 2.9999998. *)
Example smoothing_rounds :
  exponential_smoothing (Fin 3) (Some (Fin 3)) tenth = Fin (12582911 # 4194304).
Proof. vm_compute. reflexivity. Qed.

End SmoothingMore.

(** ** More on inter-spike intervals *)

Section IntervalFacts.

Import Float Math Intervals.

Lemma nonzero_from_bounds (i : nat) (row : list bool) :
  Forall (fun k => (i <= k < i + length row)%nat) (nonzero_from i row).
Proof.
  revert i. induction row as [|b row IH]; intros i; cbn [nonzero_from length].
  - constructor.
  - assert (Hb : Forall (fun k => (i <= k < i + S (length row))%nat)
                   (nonzero_from (S i) row)).
    { eapply Forall_impl; [exact (IH (S i))|]. cbn beta. intros k Hk. lia. }
    destruct b; [|exact Hb]. constructor; [lia|exact Hb].
Qed.

Lemma nonzero_from_consecutive (i : nat) (row : list bool) (j a b : nat) :
  nth_error (nonzero_from i row) j = Some a ->
  nth_error (nonzero_from i row) (S j) = Some b ->
  (a < b)%nat.
Proof.
  revert i j. induction row as [|x row IH]; intros i j; cbn [nonzero_from].
  - destruct j; discriminate.
  - destruct x; [|apply IH].
    destruct j as [|j]; cbn [nth_error]; [|apply IH].
    intros [= <-] Hb. change (nth_error (nonzero_from (S i) row) 0 = Some b) in Hb.
    apply nth_error_In in Hb.
    pose proof (nonzero_from_bounds (S i) row) as Hbd.
    rewrite List.Forall_forall in Hbd. specialize (Hbd b Hb). cbn beta in Hbd. lia.
Qed.

Lemma diff_after_number (x : float) (m : nat) :
  diff (x :: repeat NaN m) = repeat NaN m.
Proof.
  revert x. induction m as [|m IH]; intros x; [reflexivity|].
  cbn [repeat]. change (diff (x :: NaN :: repeat NaN m))
    with (fsub binary32 NaN x :: diff (NaN :: repeat NaN m)).
  rewrite IH. destruct x; reflexivity.
Qed.

Lemma diff_times_exact (t : nat) (times : list nat) (m : nat) :
  Forall (fun t' => (Z.of_nat t' < 2 ^ 24)%Z) (t :: times) ->
  diff (map (time_of (Fin 1)) (t :: times) ++ repeat NaN m)
  = map whole (gaps (t :: times)) ++ repeat NaN m.
Proof.
  revert t. induction times as [|t' rest IH]; intros t Hb.
  - cbn [map app gaps]. apply diff_after_number.
  - apply Forall_cons_1 in Hb as [Ht Hb].
    pose proof (Forall_inv Hb) as Ht'. cbn beta in Ht'.
    change (map (time_of (Fin 1)) (t :: t' :: rest) ++ repeat NaN m)
      with (time_of (Fin 1) t :: (map (time_of (Fin 1)) (t' :: rest) ++ repeat NaN m)).
    change (diff (time_of (Fin 1) t :: (map (time_of (Fin 1)) (t' :: rest) ++ repeat NaN m)))
      with (interval (Fin 1) t t'
            :: diff (map (time_of (Fin 1)) (t' :: rest) ++ repeat NaN m)).
    rewrite (IH t' Hb), interval_whole by assumption. reflexivity.
Qed.

Lemma length_gaps (times : list nat) : length (gaps times) = (length times - 1)%nat.
Proof.
  induction times as [|a rest IH]; [reflexivity|].
  destruct rest as [|b rest]; [reflexivity|].
  change (gaps (a :: b :: rest)) with ((Z.of_nat b - Z.of_nat a)%Z :: gaps (b :: rest)).
  cbn [length] in *. rewrite IH. lia.
Qed.

Lemma diff_padded_exact (C : nat) (t : list bool) :
  Forall (fun t' => (Z.of_nat t' < 2 ^ 24)%Z) (spike_times t) ->
  (length (spike_times t) <= C)%nat ->
  diff (padded_times (Fin 1) C t) = exact_row (C - 1) (spike_times t).
Proof.
  intros Hb HC. unfold padded_times, exact_row. rewrite length_gaps.
  destruct (spike_times t) as [|a rest] eqn:Htimes.
  - cbn [map app length gaps]. rewrite !Nat.sub_0_r.
    destruct C as [|C]; [reflexivity|].
    cbn [repeat]. rewrite diff_after_number. f_equal. lia.
  - rewrite diff_times_exact by assumption. do 2 f_equal. cbn [length] in *. lia.
Qed.

(** Without a step time and for trains of at most [2 ^ 24] steps the rows
    [isi] returns hold the gaps between the spikes as whole numbers. *)
Lemma isi_rows_exact (T : nat) (ld : list nat) (ts : list (list bool)) :
  ts <> [] ->
  well_shaped T {| lead := ld; trains := ts |} ->
  (Z.of_nat T <= 2 ^ 24)%Z ->
  isi {| lead := ld; trains := ts |} None
  = Ok {| out_lead := ld;
          out_last := max_spikes ts - 1;
          rows := map (fun t => exact_row (max_spikes ts - 1) (spike_times t)) ts |}.
Proof.
  intros Hne [Hn HT] Hsmall. cbn [lead trains] in Hn, HT.
  rewrite isi_rows by assumption. cbn [step_of]. do 2 f_equal.
  apply map_ext_in. intros t Ht. apply diff_padded_exact.
  - pose proof (nonzero_from_bounds 0 t) as Hb. fold (spike_times t) in Hb.
    rewrite List.Forall_forall in HT. rewrite (HT t Ht) in Hb.
    eapply Forall_impl; [exact Hb|]. cbn beta. intros k Hk. lia.
  - unfold max_spikes. apply max_len_le. now apply in_map.
Qed.

Lemma gaps_lookup (times : list nat) (j : nat) (d : Z) :
  nth_error (gaps times) j = Some d ->
  exists a b : nat,
    nth_error times j = Some a /\ nth_error times (S j) = Some b
    /\ d = (Z.of_nat b - Z.of_nat a)%Z.
Proof.
  revert j. induction times as [|a rest IH]; intros j; [destruct j; discriminate|].
  destruct rest as [|b rest]; [destruct j; discriminate|].
  change (gaps (a :: b :: rest)) with ((Z.of_nat b - Z.of_nat a)%Z :: gaps (b :: rest)).
  destruct j as [|j]; cbn [nth_error].
  - intros [= <-]. exists a, b. repeat split.
  - intros H. apply IH in H. exact H.
Qed.

(** X21: without a step time and for trains of at most [2 ^ 24] steps,
    every interval [isi] returns is a whole number of steps, at least 1 and
    at most [T - 1], [T] being the length of the trains; the other entries
    are [NaN]. *)
Theorem isi_intervals_bounded (T : nat) (ld : list nat) (ts : list (list bool))
    (out : interval_tensor) :
  ts <> [] ->
  well_shaped T {| lead := ld; trains := ts |} ->
  (Z.of_nat T <= 2 ^ 24)%Z ->
  isi {| lead := ld; trains := ts |} None = Ok out ->
  Forall (Forall (whole_interval (Z.of_nat T - 1))) (rows out).
Proof.
  intros Hne Hws Hsmall Hisi.
  rewrite (isi_rows_exact T) in Hisi by assumption. injection Hisi as <-. cbn [rows].
  destruct Hws as [_ HT]. cbn [trains] in HT.
  apply List.Forall_forall. intros row Hrow.
  apply in_map_iff in Hrow as [t [<- Ht]].
  unfold exact_row. apply Forall_app. split.
  - apply List.Forall_forall. intros e He. apply in_map_iff in He as [d [<- Hd]].
    right. exists d. split; [reflexivity|].
    apply In_nth_error in Hd as [j Hj].
    apply gaps_lookup in Hj as [a [b [Ha [Hb ->]]]].
    pose proof (nonzero_from_consecutive 0 t j a b Ha Hb) as Hlt.
    pose proof (nonzero_from_bounds 0 t) as Hbound. fold (spike_times t) in Hbound.
    rewrite List.Forall_forall in Hbound, HT.
    pose proof (Hbound b (nth_error_In _ _ Hb)) as Hb1.
    pose proof (HT t Ht) as HlenT. cbn beta in Hb1. lia.
  - apply List.Forall_forall. intros e He. apply repeat_spec in He. now left.
Qed.

Lemma isi_intervals_bounded_witness :
  [train_of 12 [2; 5; 9]%nat; train_of 12 [4]%nat] <> []
  /\ well_shaped 12 {| lead := [2%nat];
                       trains := [train_of 12 [2; 5; 9]%nat; train_of 12 [4]%nat] |}
  /\ (Z.of_nat 12 <= 2 ^ 24)%Z
  /\ isi {| lead := [2%nat];
            trains := [train_of 12 [2; 5; 9]%nat; train_of 12 [4]%nat] |} None
     = Ok {| out_lead := [2%nat]; out_last := 2;
             rows := [[whole 3; whole 4]; [NaN; NaN]] |}
  /\ Forall (Forall (whole_interval (Z.of_nat 12 - 1))) [[whole 3; whole 4]; [NaN; NaN]].
Proof.
  assert (Hne : [train_of 12 [2; 5; 9]%nat; train_of 12 [4]%nat] <> []) by discriminate.
  assert (Hws : well_shaped 12 {| lead := [2%nat];
                  trains := [train_of 12 [2; 5; 9]%nat; train_of 12 [4]%nat] |})
    by (split; [reflexivity|repeat constructor]).
  assert (Hsmall : (Z.of_nat 12 <= 2 ^ 24)%Z) by discriminate.
  assert (Hisi : isi {| lead := [2%nat];
                        trains := [train_of 12 [2; 5; 9]%nat; train_of 12 [4]%nat] |} None
                 = Ok {| out_lead := [2%nat]; out_last := 2;
                         rows := [[whole 3; whole 4]; [NaN; NaN]] |})
    by (vm_compute; reflexivity).
  split; [exact Hne|]. split; [exact Hws|]. split; [exact Hsmall|]. split; [exact Hisi|].
  exact (isi_intervals_bounded 12 [2%nat] _ _ Hne Hws Hsmall Hisi).
Defined.

Lemma last_cons_default (l : list nat) (a d1 d2 : nat) :
  List.last (a :: l) d1 = List.last (a :: l) d2.
Proof.
  revert a. induction l as [|b l IH]; intros a; [reflexivity|].
  change (List.last (a :: b :: l) d1) with (List.last (b :: l) d1).
  change (List.last (a :: b :: l) d2) with (List.last (b :: l) d2).
  apply IH.
Qed.

Lemma last_cons_shift (l : list nat) (a d : nat) :
  List.last (a :: l) d = List.last l a.
Proof.
  destruct l as [|b l]; [reflexivity|].
  change (List.last (a :: b :: l) d) with (List.last (b :: l) d).
  apply last_cons_default.
Qed.

Lemma total_gaps (first : nat) (rest : list nat) :
  total (gaps (first :: rest))
  = (Z.of_nat (List.last rest first) - Z.of_nat first)%Z.
Proof.
  revert first. induction rest as [|t' rest IH]; intros first.
  - cbn [gaps total fold_right List.last]. lia.
  - change (gaps (first :: t' :: rest))
      with ((Z.of_nat t' - Z.of_nat first)%Z :: gaps (t' :: rest)).
    unfold total in *. cbn [fold_right]. rewrite IH.
    rewrite (last_cons_shift rest t' first). lia.
Qed.

(** X22: without a step time and for trains of at most [2 ^ 24] steps, the
    row of a train that spikes holds whole numbers followed by [NaN] only,
    and the whole numbers add up to the number of steps from its first to
    its last spike. *)
Theorem isi_intervals_telescope (T : nat) (ld : list nat) (ts : list (list bool))
    (out : interval_tensor) (i : nat) (t : list bool)
    (first : nat) (rest : list nat) :
  ts <> [] ->
  well_shaped T {| lead := ld; trains := ts |} ->
  (Z.of_nat T <= 2 ^ 24)%Z ->
  isi {| lead := ld; trains := ts |} None = Ok out ->
  nth_error ts i = Some t ->
  spike_times t = first :: rest ->
  exists (ds : list Z) (m : nat),
    nth_error (rows out) i = Some (map whole ds ++ repeat NaN m)
    /\ length ds = length rest
    /\ total ds = (Z.of_nat (List.last rest first) - Z.of_nat first)%Z.
Proof.
  intros Hne Hws Hsmall Hisi Hi Htimes.
  rewrite (isi_rows_exact T) in Hisi by assumption. injection Hisi as <-. cbn [rows].
  eexists _, _. split; [rewrite nth_error_map, Hi; reflexivity|].
  rewrite Htimes. split; [|apply total_gaps].
  rewrite length_gaps. cbn [length]. lia.
Qed.

Lemma isi_intervals_telescope_witness :
  [train_of 12 [2; 5; 9]%nat] <> []
  /\ well_shaped 12 {| lead := []; trains := [train_of 12 [2; 5; 9]%nat] |}
  /\ (Z.of_nat 12 <= 2 ^ 24)%Z
  /\ spike_times (train_of 12 [2; 5; 9]%nat) = [2; 5; 9]%nat
  /\ exists (out : interval_tensor) (ds : list Z) (m : nat),
       isi {| lead := []; trains := [train_of 12 [2; 5; 9]%nat] |} None = Ok out
       /\ nth_error (rows out) 0 = Some (map whole ds ++ repeat NaN m)
       /\ length ds = 2%nat
       /\ total ds = (Z.of_nat 9 - Z.of_nat 2)%Z.
Proof.
  assert (Hne : [train_of 12 [2; 5; 9]%nat] <> []) by discriminate.
  assert (Hws : well_shaped 12 {| lead := []; trains := [train_of 12 [2; 5; 9]%nat] |})
    by (split; [reflexivity|repeat constructor]).
  assert (Hsmall : (Z.of_nat 12 <= 2 ^ 24)%Z) by discriminate.
  assert (Hsp : spike_times (train_of 12 [2; 5; 9]%nat) = [2; 5; 9]%nat) by reflexivity.
  assert (Hisi : isi {| lead := []; trains := [train_of 12 [2; 5; 9]%nat] |} None
                 = Ok {| out_lead := []; out_last := 2; rows := [[Fin 3; Fin 4]] |})
    by (vm_compute; reflexivity).
  split; [exact Hne|]. split; [exact Hws|]. split; [exact Hsmall|]. split; [exact Hsp|].
  destruct (isi_intervals_telescope 12 [] _ _ 0 _ 2 [5; 9]%nat Hne Hws Hsmall Hisi
              eq_refl Hsp) as [ds [m [Hrow [Hlen Hsum]]]].
  eexists _, ds, m. split; [exact Hisi|]. split; [exact Hrow|]. split; [exact Hlen|exact Hsum].
Defined.

Lemma isi_depends_on_spike_times (ld : list nat) (ts1 ts2 : list (list bool))
    (st : option float) :
  map spike_times ts1 = map spike_times ts2 ->
  isi {| lead := ld; trains := ts1 |} st = isi {| lead := ld; trains := ts2 |} st.
Proof.
  intros H. unfold isi. cbn [trains lead]. rewrite !nonzero_last_pad_true.
  assert (Hb : map block ts1 = map block ts2).
  { unfold block.
    rewrite <- (map_map spike_times (fun times => 0%nat :: map S times) ts1).
    rewrite <- (map_map spike_times (fun times => 0%nat :: map S times) ts2).
    now rewrite H. }
  now rewrite Hb.
Qed.

Lemma spike_times_trailing (t : list bool) (k : nat) :
  spike_times (t ++ repeat false k) = spike_times t.
Proof.
  unfold spike_times. rewrite nonzero_from_app.
  rewrite (nonzero_from_none _ (repeat false k)); [apply app_nil_r|].
  apply List.Forall_forall. intros b Hb. now apply repeat_spec in Hb.
Qed.

(** X23: silent steps at the end of the trains do not change the result of
    [isi]: the intervals and the shape of the result are the same for the
    trains and for the trains extended by any number of steps without
    spike. *)
Theorem isi_trailing_silence (ld : list nat) (ts : list (list bool)) (st : option float)
    (k : nat) :
  isi {| lead := ld; trains := map (fun t => t ++ repeat false k) ts |} st
  = isi {| lead := ld; trains := ts |} st.
Proof.
  apply isi_depends_on_spike_times. rewrite map_map. apply map_ext.
  intros t. apply spike_times_trailing.
Qed.

Lemma nonzero_from_plus (k : nat) (row : list bool) :
  nonzero_from k row = map (Nat.add k) (nonzero_from 0 row).
Proof.
  induction k as [|k IH].
  - cbn [Nat.add]. symmetry. rewrite <- (map_id (nonzero_from 0 row)) at 2.
    apply map_ext. reflexivity.
  - rewrite nonzero_from_S, IH, map_map. apply map_ext. reflexivity.
Qed.

Lemma spike_times_leading (t : list bool) (k : nat) :
  spike_times (repeat false k ++ t) = map (Nat.add k) (spike_times t).
Proof.
  unfold spike_times. rewrite nonzero_from_app, repeat_length.
  rewrite (nonzero_from_none _ (repeat false k)).
  - cbn [app Nat.add]. apply nonzero_from_plus.
  - apply List.Forall_forall. intros b Hb. now apply repeat_spec in Hb.
Qed.

Lemma gaps_shifted (k : nat) (times : list nat) :
  gaps (map (Nat.add k) times) = gaps times.
Proof.
  induction times as [|a rest IH]; [reflexivity|].
  destruct rest as [|b rest]; [reflexivity|].
  change (gaps (map (Nat.add k) (a :: b :: rest)))
    with ((Z.of_nat (k + b) - Z.of_nat (k + a))%Z :: gaps (map (Nat.add k) (b :: rest))).
  change (gaps (a :: b :: rest)) with ((Z.of_nat b - Z.of_nat a)%Z :: gaps (b :: rest)).
  rewrite IH. f_equal. lia.
Qed.

(** X24: without a step time, silent steps in front of the trains do not
    change the result of [isi], as long as the delayed trains have at most
    [2 ^ 24] steps. *)
Theorem isi_leading_silence (T : nat) (ld : list nat) (ts : list (list bool)) (k : nat) :
  ts <> [] ->
  well_shaped T {| lead := ld; trains := ts |} ->
  (Z.of_nat (k + T) <= 2 ^ 24)%Z ->
  isi {| lead := ld; trains := map (fun t => repeat false k ++ t) ts |} None
  = isi {| lead := ld; trains := ts |} None.
Proof.
  intros Hne Hws Hsmall.
  rewrite (isi_rows_exact T ld ts) by (assumption || lia).
  assert (Hne' : map (fun t => repeat false k ++ t) ts <> [])
    by (destruct ts; [congruence|discriminate]).
  assert (Hws' : well_shaped (k + T)
                   {| lead := ld; trains := map (fun t => repeat false k ++ t) ts |}).
  { destruct Hws as [Hn HT]. cbn [lead trains] in *. split; cbn [lead trains].
    - now rewrite length_map.
    - apply List.Forall_forall. intros t' Ht'. apply in_map_iff in Ht' as [t [<- Ht]].
      rewrite List.Forall_forall in HT. rewrite length_app, repeat_length, (HT t Ht).
      reflexivity. }
  rewrite (isi_rows_exact (k + T) ld _ Hne' Hws' Hsmall).
  assert (HC : max_spikes (map (fun t => repeat false k ++ t) ts) = max_spikes ts).
  { unfold max_spikes, max_len. rewrite !map_map. f_equal. apply map_ext.
    intros t. now rewrite spike_times_leading, length_map. }
  rewrite HC, map_map. do 2 f_equal. apply map_ext. intros t.
  unfold exact_row. now rewrite spike_times_leading, gaps_shifted.
Qed.

Lemma isi_leading_silence_witness :
  [train_of 6 [1; 4]%nat] <> []
  /\ well_shaped 6 {| lead := []; trains := [train_of 6 [1; 4]%nat] |}
  /\ (Z.of_nat (3 + 6) <= 2 ^ 24)%Z
  /\ isi {| lead := [];
            trains := map (fun t => repeat false 3 ++ t) [train_of 6 [1; 4]%nat] |} None
     = isi {| lead := []; trains := [train_of 6 [1; 4]%nat] |} None
  /\ isi {| lead := []; trains := [train_of 6 [1; 4]%nat] |} None
     = Ok {| out_lead := []; out_last := 1; rows := [[Fin 3]] |}.
Proof.
  assert (Hne : [train_of 6 [1; 4]%nat] <> []) by discriminate.
  assert (Hws : well_shaped 6 {| lead := []; trains := [train_of 6 [1; 4]%nat] |})
    by (split; [reflexivity|repeat constructor]).
  assert (Hsmall : (Z.of_nat (3 + 6) <= 2 ^ 24)%Z) by discriminate.
  split; [exact Hne|]. split; [exact Hws|]. split; [exact Hsmall|].
  split; [exact (isi_leading_silence 6 [] _ 3 Hne Hws Hsmall)|].
  vm_compute. reflexivity.
Defined.

(** With the step time [0.1] the same delay changes the interval: the
    spikes at the steps 1 and 4 are [0.30000001...] apart, those at the
    steps 4 and 7 [0.29999998...]. *)
Example isi_leading_silence_step_time :
  isi {| lead := []; trains := [train_of 8 [1; 4]%nat] |} (Some tenth)
  = Ok {| out_lead := []; out_last := 1; rows := [[Fin (5033165 # 16777216)]] |}
  /\ isi {| lead := []; trains := [train_of 8 [4; 7]%nat] |} (Some tenth)
     = Ok {| out_lead := []; out_last := 1; rows := [[Fin (10066329 # 33554432)]] |}.
Proof. split; vm_compute; reflexivity. Qed.

End IntervalFacts.

(** ** The three linear connections *)

Section LinearFacts.

Import Synapses Connections Lateral.

(** X25: [DirectLinear] and [LateralLinear] call the synapse constructor as
    [DenseLinear] does, with the batch size third and the delay fourth: a
    class that records its keyword arguments receives the number of units as
    [shape], [delay = int(batch_size)] and [batch_size = float(delay)], and
    [batch_size = None] when the connection has no delay. *)
Theorem Direct_Lateral_synapse_arguments
    (shape : shape_arg) (T q : Q) (mode : string) (tol : Q)
    (co : option Q) (so : option bool) (B : Z) (bias : bool) :
  0 < T ->
  (forall D : Q,
     0 < D ->
     exists direct lateral : linear kwargs,
       DirectLinear_init keep_synapse shape T
         (partialconstructor recording_cls q mode tol co so) B bias (Some D) = Ok direct
       /\ LateralLinear_init keep_synapse shape T
            (partialconstructor recording_cls q mode tol co so) B bias (Some D) = Ok lateral
       /\ connection direct = connection lateral
       /\ kw_shape (connection direct) = PyInt (prod (convert_shape shape))
       /\ kw_step_time (connection direct) = PyFloat T
       /\ kw_delay (connection direct) = PyInt B
       /\ kw_batch_size (connection direct) = PyFloat D)
  /\ (exists direct lateral : linear kwargs,
        DirectLinear_init keep_synapse shape T
          (partialconstructor recording_cls q mode tol co so) B bias None = Ok direct
        /\ LateralLinear_init keep_synapse shape T
             (partialconstructor recording_cls q mode tol co so) B bias None = Ok lateral
        /\ connection direct = connection lateral
        /\ kw_delay (connection direct) = PyInt B
        /\ kw_batch_size (connection direct) = PyNone).
Proof.
  intros HT. split.
  - intros D HD. unfold DirectLinear_init, LateralLinear_init.
    rewrite (Qle_bool_false T 0), (Qle_bool_false D 0) by assumption.
    unfold py_not. rewrite Qeq_bool_false by lra.
    cbn [partialconstructor recording_cls keep_synapse rbind negb].
    eexists _, _. split; [reflexivity|]. split; [reflexivity|].
    cbn [connection kw_shape kw_step_time kw_delay kw_batch_size]. repeat split.
  - unfold DirectLinear_init, LateralLinear_init.
    rewrite (Qle_bool_false T 0) by assumption.
    cbn [py_not partialconstructor recording_cls keep_synapse rbind negb].
    eexists _, _. split; [reflexivity|]. split; [reflexivity|].
    cbn [connection kw_delay kw_batch_size]. repeat split.
Qed.

Lemma Direct_Lateral_synapse_arguments_witness :
  0 < 1 /\ 0 < 2
  /\ exists direct lateral : linear kwargs,
       DirectLinear_init keep_synapse (ShapeTuple [2; 3]%Z) 1
         (partialconstructor recording_cls 1 "previous" 0 (Some 0) (Some false))
         4 false (Some 2) = Ok direct
       /\ LateralLinear_init keep_synapse (ShapeTuple [2; 3]%Z) 1
            (partialconstructor recording_cls 1 "previous" 0 (Some 0) (Some false))
            4 false (Some 2) = Ok lateral
       /\ connection direct = connection lateral
       /\ kw_shape (connection direct) = PyInt (prod (convert_shape (ShapeTuple [2; 3]%Z)))
       /\ kw_step_time (connection direct) = PyFloat 1
       /\ kw_delay (connection direct) = PyInt 4
       /\ kw_batch_size (connection direct) = PyFloat 2.
Proof.
  assert (H1 : 0 < 1) by reflexivity.
  assert (H2 : 0 < 2) by reflexivity.
  split; [exact H1|]. split; [exact H2|].
  exact (proj1 (Direct_Lateral_synapse_arguments (ShapeTuple [2; 3]%Z) 1 1 "previous" 0
                  (Some 0) (Some false) 4 false H1) 2 H2).
Defined.

End LinearFacts.

(** ** Injected currents *)

Section InjectionFacts.

Import Float Synapses Injection.

Lemma lookup_nth_error {A : Type} (l : list A) (i : nat) : l !! i = nth_error l i.
Proof.
  revert i. induction l as [|x l IH]; intros [|i]; try reflexivity. apply IH.
Qed.

Lemma sum_from_columns (ts : list (list float)) :
  forall acc : list float,
    Forall (fun t => length t = length acc) ts ->
    exists total : list float,
      sum_from acc ts = Ok total
      /\ length total = length acc
      /\ forall (u : nat) (a : float),
           nth_error acc u = Some a ->
           nth_error total u = Some (column_sum a u ts).
Proof.
  induction ts as [|t ts IH]; intros acc Hlen.
  - exists acc. split; [reflexivity|]. split; [reflexivity|].
    intros u a Ha. exact Ha.
  - apply Forall_cons_1 in Hlen as [Ht Hts].
    cbn [sum_from]. unfold tensor_add. rewrite <- Ht, Nat.eqb_refl. cbn [rbind].
    assert (Hz : length (zip_with (fadd binary32) acc t) = length acc).
    { rewrite length_zip_with. lia. }
    destruct (IH (zip_with (fadd binary32) acc t)) as [total [Hsum [Hl Hcol]]].
    { eapply Forall_impl; [exact Hts|]. cbn beta. intros t' Ht'. now rewrite Hz. }
    exists total. split; [exact Hsum|]. split; [congruence|].
    intros u a Ha.
    assert (Hu : (u < length t)%nat).
    { rewrite Ht. apply nth_error_Some. congruence. }
    destruct (nth_error t u) as [b|] eqn:Hb; [|apply nth_error_None in Hb; lia].
    rewrite (Hcol u (fadd binary32 a b)).
    + unfold column_sum. cbn [fold_left]. now rewrite (nth_error_nth t u (Fin 0) Hb).
    + rewrite <- lookup_nth_error, lookup_zip_with, !lookup_nth_error, Ha, Hb.
      reflexivity.
Qed.

(** X27: a step of [DeltaPlusCurrent] returns, for every unit, the first
    input times [spike_q / dt] plus the injected currents of that unit, and
    stores the first input read as booleans as the spikes of the step: the
    current of a unit is the float32 sum that starts from [0 + x * k], [x]
    being the first input of the unit and [k] the quotient of the two Python
    floats, and adds the injected currents in their order.  When the
    quotient raises (a zero step time), so does the step. *)
Theorem DeltaPlus_forward_adds_injected (self : DeltaPlusCurrent) (input0 : tensor)
    (injected : list tensor) :
  history_wf (units (pbase self)) (pspike_ self) ->
  history_wf (units (pbase self)) (pcurrent_ self) ->
  length (to_float input0) = units (pbase self) ->
  Forall (fun t => length (to_float t) = units (pbase self)) injected ->
  match truediv (pspike_q self) (dt (pbase self)) with
  | Ok k =>
      exists (self' : DeltaPlusCurrent) (out : list float),
        pforward self (input0 :: injected) = Ok (self', out)
        /\ length out = units (pbase self)
        /\ newest (pspike_ self') = to_bool input0
        /\ newest (pcurrent_ self') = out
        /\ forall (u : nat) (x : float),
             nth_error (to_float input0) u = Some x ->
             nth_error out u
             = Some (column_sum
                       (fadd binary32 (Fin 0) (fmul binary32 x (cast binary32 k)))
                       u (map to_float injected))
  | Raise e => pforward self (input0 :: injected) = Raise e
  end.
Proof.
  intros [Hs _] [Hc _] Hlen Hinj. unfold pforward.
  rewrite record_obs_ok by (now rewrite length_to_bool).
  cbn [rbind].
  destruct (truediv (pspike_q self) (dt (pbase self))) as [k|e]; [|reflexivity].
  cbn [rbind]. unfold py_sum.
  set (first := scalar_mul (to_float input0) k).
  assert (Hfirst : length (map (fadd binary32 (Fin 0)) first) = units (pbase self))
    by (unfold first, scalar_mul; now rewrite !length_map).
  destruct (sum_from_columns (map to_float injected) (map (fadd binary32 (Fin 0)) first))
    as [total [Hsum [Hl Hcol]]].
  { rewrite Hfirst. apply List.Forall_forall. intros t Ht.
    apply in_map_iff in Ht as [t' [<- Ht']].
    rewrite List.Forall_forall in Hinj. now apply Hinj. }
  rewrite Hsum. cbn [rbind].
  rewrite record_obs_ok by congruence. cbn [rbind].
  eexists _, _. split; [reflexivity|]. cbn [pspike_ pcurrent_].
  rewrite !newest_write by assumption.
  split; [congruence|]. split; [reflexivity|]. split; [reflexivity|].
  intros u x Hx. apply Hcol.
  unfold first, scalar_mul. rewrite !nth_error_map, Hx. reflexivity.
Qed.

Lemma DeltaPlus_forward_adds_injected_witness :
  let self :=
    {| pbase := {| shape := [2%nat]; dt := 1 # 2; delay := 0; batch_size := 1 |};
       pspike_q := 3;
       pinterp_fn := interp_previous;
       ptolerance := 0;
       pcurrent_overbound := Some 0;
       pspike_overbound := Some false;
       pcurrent_ := history_new 1 2 (Fin 0);
       pspike_ := history_new 1 2 false |} in
  truediv (pspike_q self) (dt (pbase self)) = Ok (Fin 6)
  /\ exists (self' : DeltaPlusCurrent) (out : list float),
       pforward self [BoolT [true; false]; FloatT [Fin 1; Fin 2]; FloatT [Fin 10; Fin 20]]
       = Ok (self', out)
       /\ length out = 2%nat
       /\ nth_error out 0
          = Some (column_sum (fadd binary32 (Fin 0) (fmul binary32 (Fin 1) (Fin 6))) 0
                    [[Fin 1; Fin 2]; [Fin 10; Fin 20]])
       /\ out = [Fin 17; Fin 22].
Proof.
  intros self.
  assert (Hk : truediv (pspike_q self) (dt (pbase self)) = Ok (Fin 6)) by reflexivity.
  split; [exact Hk|].
  pose proof (DeltaPlus_forward_adds_injected self (BoolT [true; false])
                [FloatT [Fin 1; Fin 2]; FloatT [Fin 10; Fin 20]]
                (history_new_wf 0 2 false) (history_new_wf 0 2 (Fin 0)) eq_refl
                ltac:(repeat constructor)) as H.
  rewrite Hk in H. destruct H as [self' [out [Hf [Hl [_ [_ Hc]]]]]].
  exists self', out. split; [exact Hf|]. split; [exact Hl|].
  split; [exact (Hc 0%nat (Fin 1) eq_refl)|].
  assert (Hv : exists s, pforward self [BoolT [true; false]; FloatT [Fin 1; Fin 2];
                                        FloatT [Fin 10; Fin 20]]
                         = Ok (s, [Fin 17; Fin 22])) by (eexists; vm_compute; reflexivity).
  destruct Hv as [s Hv]. rewrite Hv in Hf. now injection Hf as _ <-.
Defined.

Lemma fadd_zero_round (q : Q) :
  fadd binary32 (Fin 0) (round binary32 q) = round binary32 q.
Proof.
  destruct (round binary32 q) as [r| |] eqn:Hr; try reflexivity.
  cbn [fadd]. rewrite (round_comp binary32 (0 + r) r) by ring.
  now apply (round_idempotent binary32 q r).
Qed.

(** Adding the integer 0 does not change the product of a spike and a
    float32 number. *)
Lemma fadd_zero_fmul (b : bool) (c : float) :
  fadd binary32 (Fin 0) (fmul binary32 (b2f b) c) = fmul binary32 (b2f b) c.
Proof.
  destruct c as [r|s|].
  - destruct b; cbn [b2f fmul]; apply fadd_zero_round.
  - destruct b, s; reflexivity.
  - destruct b; reflexivity.
Qed.

(** X28: without injected current a [DeltaPlusCurrent] answers a step as a
    [DeltaCurrent] with the same charge and step time does: the currents
    returned are equal and the spikes stored are the same; when the quotient
    [spike_q / dt] raises, both steps raise. *)
Theorem DeltaPlus_agrees_with_Delta (delta : DeltaCurrent) (plus : DeltaPlusCurrent)
    (spikes : list bool) :
  spike_q delta = pspike_q plus ->
  base delta = pbase plus ->
  history_wf (units (base delta)) (spike_ delta) ->
  history_wf (units (pbase plus)) (pspike_ plus) ->
  history_wf (units (pbase plus)) (pcurrent_ plus) ->
  length spikes = units (base delta) ->
  match truediv (spike_q delta) (dt (base delta)) with
  | Ok _ =>
      exists (delta' : DeltaCurrent) (plus' : DeltaPlusCurrent) (out out' : list float),
        forward delta [spikes] = Ok (delta', out)
        /\ pforward plus [BoolT spikes] = Ok (plus', out')
        /\ out = out'
        /\ spike delta' = newest (pspike_ plus')
  | Raise e =>
      forward delta [spikes] = Raise e /\ pforward plus [BoolT spikes] = Raise e
  end.
Proof.
  intros Hq Hb Hwd Hws Hwc Hlen.
  pose proof (DeltaPlus_forward_adds_injected plus (BoolT spikes) [] Hws Hwc) as Hplus.
  rewrite <- Hq, <- Hb in Hplus.
  rewrite (forward_returns_to_current delta spikes [] Hwd Hlen).
  destruct (truediv (spike_q delta) (dt (base delta))) as [k|e]; cbn [rbind].
  - destruct Hplus as [plus' [out' [Hpf [Hl' [Hsp [_ Hcol]]]]]].
    { cbn [to_float]. rewrite length_map. exact Hlen. }
    { constructor. }
    eexists _, plus', _, out'. split; [reflexivity|]. split; [exact Hpf|].
    split.
    + apply list_eq. intros u. rewrite lookup_map.
      destruct (spikes !! u) as [b|] eqn:Hu; cbn [fmap option_fmap option_map].
      * rewrite lookup_nth_error, (Hcol u (b2f b)).
        -- cbn [map column_sum fold_left]. now rewrite fadd_zero_fmul.
        -- cbn [to_float]. rewrite nth_error_map, <- lookup_nth_error, Hu. reflexivity.
      * symmetry. apply lookup_ge_None. apply lookup_ge_None in Hu.
        rewrite Hl', <- Hlen. exact Hu.
    + unfold spike. cbn [set_spike_ spike_]. rewrite Hsp. cbn [to_bool].
      apply newest_write. apply Hwd.
  - split; [reflexivity|]. apply Hplus.
    + cbn [to_float]. rewrite length_map. exact Hlen.
    + constructor.
Qed.

Lemma DeltaPlus_agrees_with_Delta_witness :
  let b := {| shape := [2%nat]; dt := 1 # 2; delay := 0; batch_size := 1 |} in
  let delta :=
    {| base := b; spike_q := 3; interp_fn := interp_previous; tolerance := 0;
       current_overbound := Some 0; spike_overbound := Some false;
       spike_ := history_new 1 2 false |} in
  let plus :=
    {| pbase := b; pspike_q := 3; pinterp_fn := interp_previous; ptolerance := 0;
       pcurrent_overbound := Some 0; pspike_overbound := Some false;
       pcurrent_ := history_new 1 2 (Fin 0); pspike_ := history_new 1 2 false |} in
  exists (delta' : DeltaCurrent) (plus' : DeltaPlusCurrent) (out out' : list float),
    forward delta [[true; false]] = Ok (delta', out)
    /\ pforward plus [BoolT [true; false]] = Ok (plus', out')
    /\ out = out'
    /\ spike delta' = newest (pspike_ plus').
Proof.
  intros b delta plus.
  exact (DeltaPlus_agrees_with_Delta delta plus [true; false] eq_refl eq_refl
           (history_new_wf 0 2 false) (history_new_wf 0 2 false)
           (history_new_wf 0 2 (Fin 0)) eq_refl).
Defined.

End InjectionFacts.
